(** * Semblance: PE section scanning and rendering (src/pe_section.c)

    A shallow embedding of [pe_section.c]: address translation
    ([addr2section], [addr2offset]), symbol lookup ([get_export_name],
    [get_imported_name]), the recursive control-flow scanner
    ([scan_segment], [read_sections]), the linear renderer
    ([print_pe_instr], [print_disassembly]) and the listing of the sections
    with their headings ([print_section_flags], [print_sections]).

    Conventions.
    - [dword] is an unsigned 32-bit integer; it is a [Z] and every C
      operation that can wrap is written with [u32].
    - The global state of the C program (the image [pe] with the per-section
      classification maps, the input stream [f] with its position, [opts],
      and the two output streams) is the record [world]; the C functions
      pass it along explicitly.
    - An access to [instr_flags] outside the allocated map is undefined in
      C; here it yields [Fault].
    - [warn_at] is modelled as compiled with [USE_WARN]: a warning is an
      entry appended to [w_stderr].
    - Recursion that C leaves unbounded takes a [fuel] argument and yields
      [OutOfFuel] when it is used up. *)

From Stdlib Require Import ZArith Lia Bool.
From stdpp Require Import base list numbers strings.

Local Open Scope Z_scope.

(** ** Machine integers *)

(** Reduction of an integer result to [dword] (uint32_t). *)
Definition u32 (x : Z) : Z := x mod 2 ^ 32.

(** [sizeof(dword)]. *)
Definition sizeof_dword : Z := 4.

(** C truth value of [x & m]. *)
Definition has (x m : Z) : bool := negb (Z.land x m =? 0).

(** ** Declarations of the absent headers

    [semblance.h], [pe.h] and [x86_instr.h] are not part of the sources at
    hand. Their constants and the instruction decoder are parameters. *)

(** [struct op] and [struct instr] of [x86_instr.h], restricted to the
    fields [pe_section.c] reads. *)
Record op := mk_op {
  opcode : Z;
  subcode : Z;
  op_name : string;
  op_arg0 : Z;
  op_flags : Z
}.

Record instr := mk_instr {
  instr_op : op;
  arg0 : Z;
  modrm_disp : Z;
  modrm_reg : Z
}.

(** Constants of [semblance.h]: the classification bits, the option bit
    and the size of the decode window. *)
Class Semblance_h := {
  INSTR_SCANNED : Z;
  INSTR_VALID : Z;
  INSTR_JUMP : Z;
  INSTR_FUNC : Z;
  DISASSEMBLE_ALL : Z;
  MAX_INSTR : Z
}.

(** Constants and functions of [x86_instr.h]. [get_instr ip p is32] decodes
    the window [p] and yields the instruction with its length; [print_instr]
    renders one listing line (the text it leaves in [out]). *)
Class X86_instr_h := {
  OP_BRANCH : Z;
  OP_STOP : Z;
  DISP_16 : Z;
  REL16 : Z;
  get_instr : Z -> list Z -> Z -> instr * Z;
  print_instr : Z -> list Z -> Z -> Z -> instr -> option string -> string
}.

(** A mask that is one bit of a byte. *)
Definition byte_bit (m : Z) : Prop := exists b, 0 <= b < 8 /\ m = 2 ^ b.

(** What the development assumes of the absent headers: the four
    classification masks are distinct single bits of a byte, the decode
    window is not empty, and the decoder consumes at least one byte and at
    most the window. *)
Class HeaderLaws {SH : Semblance_h} {XH : X86_instr_h} : Prop := {
  scanned_bit : byte_bit INSTR_SCANNED;
  valid_bit : byte_bit INSTR_VALID;
  jump_bit : byte_bit INSTR_JUMP;
  func_bit : byte_bit INSTR_FUNC;
  valid_scanned : INSTR_VALID <> INSTR_SCANNED;
  jump_scanned : INSTR_JUMP <> INSTR_SCANNED;
  func_scanned : INSTR_FUNC <> INSTR_SCANNED;
  jump_valid : INSTR_JUMP <> INSTR_VALID;
  func_valid : INSTR_FUNC <> INSTR_VALID;
  max_instr_pos : 0 < MAX_INSTR;
  get_instr_length : forall ip p is32,
    1 <= snd (get_instr ip p is32) <= MAX_INSTR
}.

(** ** Data model ([pe.h]) *)

(** [struct section]. The fields [name], [length] and [flags] carry the
    prefix [sec_]; [instr_flags] is the classification map, one byte per
    byte of the section. *)
Record section := mk_section {
  sec_name : string;
  min_alloc : Z;
  address : Z;
  sec_length : Z;
  offset : Z;
  sec_flags : Z;
  instr_flags : list Z
}.

(** [struct export]. *)
Record export := mk_export {
  export_address : Z;
  export_name : option string
}.

(** [struct import_module]. *)
Record import_module := mk_import_module {
  nametab_addr : Z;
  nametab : list string;
  count : Z
}.

(** [struct pe]. [NumberOfSections], [export_count] and [import_count] are
    the lengths of the three lists. *)
Record pe := mk_pe {
  sections : list section;
  exports : list export;
  imports : list import_module;
  ImageBase : Z;
  AddressOfEntryPoint : Z;
  Characteristics : Z
}.

(** One line written to standard output. *)
Inductive line :=
  | GapMarker                                 (* "     ...\n" *)
  | BlankLine                                 (* "\n" *)
  | FuncHeader (ip : Z) (name : string)       (* "%x <%s>:\n" *)
  | InstrLine (out : string).                 (* "%s\n" *)

(** One warning written by [warn_at]: the [ip] in scope and the message. *)
Inductive warning :=
  | NotInImage
  | NotInstrStart
  | BranchNotInImage (name : string) (target : Z)
  | ReachedEnd.

(** The state of the running program. [w_ticks] is a ghost counter of the
    iterations of the loop of [scan_segment]; nothing reads it. *)
Record world := mk_world {
  w_pe : pe;
  w_file : list Z;
  w_fpos : Z;
  w_opts : Z;
  w_stdout : list line;
  w_stderr : list (Z * warning);
  w_ticks : nat
}.

(** Outcome of a computation. *)
Inductive result (A : Type) :=
  | Done (a : A)
  | Fault
  | OutOfFuel.
Arguments Done {A} a.
Arguments Fault {A}.
Arguments OutOfFuel {A}.

Definition bind {A B} (m : result A) (k : A -> result B) : result B :=
  match m with
  | Done a => k a
  | Fault => Fault
  | OutOfFuel => OutOfFuel
  end.

Notation "'do' x <- m ; k" := (bind m (fun x => k))
  (at level 10, x pattern, m at level 100, k at level 200).

(** ** State updates *)

Definition set_instr_flags (s : section) (fl : list Z) : section :=
  mk_section (sec_name s) (min_alloc s) (address s) (sec_length s) (offset s)
             (sec_flags s) fl.

Definition set_sections (p : pe) (ss : list section) : pe :=
  mk_pe ss (exports p) (imports p) (ImageBase p) (AddressOfEntryPoint p)
        (Characteristics p).

Definition set_pe (w : world) (p : pe) : world :=
  mk_world p (w_file w) (w_fpos w) (w_opts w) (w_stdout w) (w_stderr w)
           (w_ticks w).

Definition set_fpos (w : world) (pos : Z) : world :=
  mk_world (w_pe w) (w_file w) pos (w_opts w) (w_stdout w) (w_stderr w)
           (w_ticks w).

(** [printf]/[putchar] of whole lines. *)
Definition printf (ls : list line) (w : world) : world :=
  mk_world (w_pe w) (w_file w) (w_fpos w) (w_opts w) (w_stdout w ++ ls)
           (w_stderr w) (w_ticks w).

(** [warn_at(...)] with [ip] in scope. *)
Definition warn_at (ip : Z) (m : warning) (w : world) : world :=
  mk_world (w_pe w) (w_file w) (w_fpos w) (w_opts w) (w_stdout w)
           (w_stderr w ++ [(ip, m)]) (w_ticks w).

Definition tick (w : world) : world :=
  mk_world (w_pe w) (w_file w) (w_fpos w) (w_opts w) (w_stdout w)
           (w_stderr w) (S (w_ticks w)).

(** [sec->instr_flags[i]] where [sec = &pe->sections[si]]. *)
Definition flags_get (si : nat) (i : Z) (p : pe) : result Z :=
  match sections p !! si with
  | Some s =>
      if 0 <=? i then
        match instr_flags s !! Z.to_nat i with
        | Some f => Done f
        | None => Fault
        end
      else Fault
  | None => Fault
  end.

(** [sec->instr_flags[i] |= m]. *)
Definition flags_or (si : nat) (i : Z) (m : Z) (p : pe) : result pe :=
  match sections p !! si with
  | Some s =>
      do f <- flags_get si i p;
      Done (set_sections p
              (<[si := set_instr_flags s
                         (<[Z.to_nat i := Z.lor f m]> (instr_flags s))]>
                 (sections p)))
  | None => Fault
  end.

(** ** The input stream [f] *)

(** [fseek(f, pos, SEEK_SET)]. *)
Definition fseek (pos : Z) (w : world) : world := set_fpos w pos.

(** [read_byte()]: [getc] converted to [byte]; at the end of the file
    [getc] yields [EOF], which is 0xff as a byte, and the position stays. *)
Definition read_byte (w : world) : Z * world :=
  match w_file w !! Z.to_nat (w_fpos w) with
  | Some b => (b, set_fpos w (w_fpos w + 1))
  | None => (255, w)
  end.

(** [memset(buffer, 0, sizeof(buffer)); fread(buffer, 1, n, f)]: the window
    of [MAX_INSTR] bytes, of which the first [n] come from the file as far
    as the file reaches, the others being zero. *)
Definition fread_buffer {SH : Semblance_h} (n : Z) (w : world) : list Z * world :=
  let pos := Z.to_nat (w_fpos w) in
  let got := take (Z.to_nat n) (drop pos (w_file w)) in
  (got ++ replicate (Z.to_nat MAX_INSTR - length got) 0,
   set_fpos w (w_fpos w + Z.of_nat (length got))).

(** ** AddressResolver *)

(** The loop of [addr2section], from index [i] on; the result is the index
    of the section the C function returns a pointer to. *)
Fixpoint addr2section_from (i : nat) (ss : list section) (addr : Z)
  : option nat :=
  match ss with
  | [] => None
  | s :: ss' =>
      if (address s <=? addr) && (addr <? u32 (address s + min_alloc s))
      then Some i
      else addr2section_from (S i) ss' addr
  end.

Definition addr2section (addr : Z) (p : pe) : option nat :=
  addr2section_from 0 (sections p) addr.

(** [addr2offset]; the [long] result holds every [dword] value. *)
Definition addr2offset (addr : Z) (p : pe) : Z :=
  match addr2section addr p with
  | None => 0
  | Some si =>
      match sections p !! si with
      | Some s => u32 (u32 (addr - address s) + offset s)
      | None => 0
      end
  end.

(** ** SymbolResolver *)

Fixpoint get_export_name_in (es : list export) (ip : Z) : option string :=
  match es with
  | [] => None
  | e :: es' =>
      if export_address e =? ip then export_name e
      else get_export_name_in es' ip
  end.

Definition get_export_name (ip : Z) (p : pe) : option string :=
  get_export_name_in (exports p) ip.

(** The index [get_imported_name] computes for one import module, [offset]
    being the address less the image base. *)
Definition import_index (offset0 : Z) (m : import_module) : Z :=
  u32 (u32 (offset0 - nametab_addr m) / sizeof_dword).

Fixpoint get_imported_name_in (ms : list import_module) (offset0 : Z)
  : option string :=
  match ms with
  | [] => None
  | m :: ms' =>
      let index := import_index offset0 m in
      if index <? count m then nametab m !! Z.to_nat index
      else get_imported_name_in ms' offset0
  end.

Definition get_imported_name (offset0 : Z) (p : pe) : option string :=
  let offset1 := u32 (offset0 - ImageBase p) in
  get_imported_name_in (imports p) offset1.

(** ** ControlFlowScanner *)

Section Scanner.
Context {SH : Semblance_h} {XH : X86_instr_h}.

(** The marking loop of [scan_segment],
    [for (i = relip; i < relip+instr_length && i < sec->min_alloc; i++)
       sec->instr_flags[i] |= INSTR_SCANNED;],
    from [i] on; [bound] is [relip+instr_length] as a [dword]. The counter
    [n] is the distance from [i] to [bound], which the loop cannot exceed.
    The result carries the final value of [i]. *)
Fixpoint mark_scanned (n : nat) (si : nat) (i bound malloc : Z) (p : pe)
  : result (Z * pe) :=
  match n with
  | O => Done (i, p)
  | S n' =>
      if (i <? bound) && (i <? malloc) then
        do p' <- flags_or si i INSTR_SCANNED p;
        mark_scanned n' si (i + 1) bound malloc p'
      else Done (i, p)
  end.

(** "mark the bytes": the two statements that follow the decoding. *)
Definition mark_instr (si : nat) (relip instr_length malloc : Z) (p : pe)
  : result (Z * pe) :=
  do p1 <- flags_or si relip INSTR_VALID p;
  let bound := u32 (relip + instr_length) in
  mark_scanned (Z.to_nat (bound - relip)) si relip bound malloc p1.

(** The part of [scan_segment] before its loop, the loop being [loop]. *)
Definition scan_enter (loop : nat -> Z -> Z -> world -> result world)
    (ip : Z) (w : world) : result world :=
  match addr2section ip (w_pe w) with
  | None => Done (warn_at ip NotInImage w)
  | Some si =>
      match sections (w_pe w) !! si with
      | None => Fault
      | Some sec =>
          let relip := u32 (ip - address sec) in
          do f <- flags_get si relip (w_pe w);
          let w1 :=
            if Z.land f (Z.lor INSTR_VALID INSTR_SCANNED) =? INSTR_SCANNED
            then warn_at ip NotInstrStart w else w in
          loop si ip relip w1
      end
  end.

(** "handle conditional and unconditional jumps": the [if] on [OP_BRANCH]
    in the loop of [scan_segment]; [scan] is the recursive call. *)
Definition scan_branch (scan : Z -> world -> result world)
    (ip : Z) (ins : instr) (w : world) : result world :=
  if has (op_flags (instr_op ins)) OP_BRANCH then
    (* relative jump, loop, or call *)
    match addr2section (arg0 ins) (w_pe w) with
    | Some ti =>
        match sections (w_pe w) !! ti with
        | None => Fault
        | Some tsec =>
            let trelip := u32 (arg0 ins - address tsec) in
            do p <- flags_or ti trelip
                      (if String.eqb (op_name (instr_op ins)) "call"
                       then INSTR_FUNC else INSTR_JUMP) (w_pe w);
            (* scan it *)
            scan (arg0 ins) (set_pe w p)
        end
    | None =>
        Done (warn_at ip
                (BranchNotInImage (op_name (instr_op ins)) (arg0 ins)) w)
    end
  else Done w.

(** [fseek], [memset] and [fread] before [get_instr]: the decode window at
    [relip]. *)
Definition read_window (sec : section) (relip : Z) (w : world)
  : list Z * world :=
  fread_buffer (Z.min MAX_INSTR (u32 (sec_length sec - relip)))
    (fseek (u32 (offset sec + relip)) w).

(** The loop [while (relip < sec->length)] of [scan_segment] with the
    warning that follows it; [si] is the index of [sec]. One unit of fuel
    is spent per nesting of an iteration or of a recursive call. *)
Fixpoint scan_loop (fuel : nat) (si : nat) (ip relip : Z) (w : world)
  : result world :=
  match fuel with
  | O => OutOfFuel
  | S n =>
      match sections (w_pe w) !! si with
      | None => Fault
      | Some sec =>
          if relip <? sec_length sec then
            let w := tick w in
            (* check if we've already read from here *)
            do f <- flags_get si relip (w_pe w);
            if has f INSTR_SCANNED then Done w else
            (* read the instruction *)
            let '(buffer, w) := read_window sec relip w in
            let '(ins, instr_length) := get_instr ip buffer 1 in
            (* mark the bytes *)
            do (i, p) <- mark_instr si relip instr_length (min_alloc sec) (w_pe w);
            let w := set_pe w p in
            (* instruction which hangs over the minimum allocation *)
            if (i <? u32 (ip + instr_length)) && (i =? min_alloc sec)
            then Done (warn_at ip ReachedEnd w) else
            do w <- scan_branch (scan_enter (scan_loop n)) ip ins w;
            if has (op_flags (instr_op ins)) OP_STOP then Done w else
            let ip := u32 (ip + instr_length) in
            scan_loop n si ip (u32 (ip - address sec)) w
          else Done (warn_at ip ReachedEnd w)
      end
  end.

Definition scan_segment (fuel : nat) (ip : Z) (w : world) : result world :=
  scan_enter (scan_loop fuel) ip w.

(** The loop over the exports in [read_sections]. *)
Fixpoint scan_exports (fuel : nat) (es : list export) (w : world)
  : result world :=
  match es with
  | [] => Done w
  | e :: es' =>
      do w' <- scan_segment fuel (export_address e) w;
      scan_exports fuel es' w'
  end.

Definition read_sections (fuel : nat) (w : world) : result world :=
  do w' <- scan_exports fuel (exports (w_pe w)) w;
  if Z.land (Characteristics (w_pe w')) 8192 =? 0
  then scan_segment fuel (AddressOfEntryPoint (w_pe w')) w'
  else Done w'.

End Scanner.

#[global] Arguments read_window : simpl never.

(** ** InstructionAnnotator and DisassemblyRenderer *)

Section Renderer.
Context {SH : Semblance_h} {XH : X86_instr_h}.

(** [print_pe_instr]: the length of the instruction and the text left in
    [out]. [ip_string] is [ip] printed with [%8x]; [print_instr] receives
    [ip] itself. *)
Definition print_pe_instr (si : nat) (sec : section) (ip : Z) (p : list Z)
    (image : pe) : result (Z * string) :=
  let '(ins, len) := get_instr ip p 1 in
  (* call/jmp to an absolute memory address *)
  let comment :=
    if (opcode (instr_op ins) =? 255)
       && ((subcode (instr_op ins) =? 2) || (subcode (instr_op ins) =? 4))
       && (modrm_disp ins =? DISP_16) && (modrm_reg ins =? 8)
    then get_imported_name (arg0 ins) image else None in
  (* check if we are referencing a named export *)
  let comment :=
    match comment with
    | None =>
        if op_arg0 (instr_op ins) =? REL16
        then get_export_name (arg0 ins) image else None
    | Some c => Some c
    end in
  do f <- flags_get si (u32 (ip - address sec)) image;
  Done (len, print_instr ip p len f ins comment).

(** [while (read_byte() == 0) relip++;]. Every iteration but the last
    consumes a byte of the file, so [n] greater than the size of the file
    is never used up. *)
Fixpoint skip_zeroes (n : nat) (relip : Z) (w : world) : Z * world :=
  match n with
  | O => (relip, w)
  | S n' =>
      let '(b, w') := read_byte w in
      if b =? 0 then skip_zeroes n' (u32 (relip + 1)) w' else (relip, w')
  end.

(** [while ((relip < sec->length) && (relip < sec->min_alloc)
           && !(sec->instr_flags[relip] & INSTR_VALID)) relip++;].
    The counter [n] is the distance from [relip] to [min_alloc], which
    the loop cannot exceed. *)
Fixpoint skip_invalid (n : nat) (si : nat) (sec : section) (relip : Z)
    (image : pe) : result Z :=
  match n with
  | O => Done relip
  | S n' =>
      if (relip <? sec_length sec) && (relip <? min_alloc sec) then
        do f <- flags_get si relip image;
        if negb (has f INSTR_VALID)
        then skip_invalid n' si sec (u32 (relip + 1)) image
        else Done relip
      else Done relip
  end.

(** How one iteration of the loop of [print_disassembly] ends. *)
Inductive sweep :=
  | Next (relip : Z) (w : world)      (* on to the next iteration *)
  | Return (w : world).               (* [return] from inside the loop *)

(** The body of [while (relip < sec->length)] in [print_disassembly]. *)
Definition disassembly_step (si : nat) (sec : section) (relip : Z)
    (w : world) : result sweep :=
  let w := fseek (u32 (offset sec + relip)) w in
  (* find a valid instruction *)
  do f <- flags_get si relip (w_pe w);
  do (relip, w) <-
    (if negb (has f INSTR_VALID) then
       if has (w_opts w) DISASSEMBLE_ALL then
         (* still skip zeroes *)
         let '(b, w) := read_byte w in
         let '(relip, w) :=
           if b =? 0 then (u32 (relip + 1), printf [GapMarker] w)
           else (relip, w) in
         Done (skip_zeroes (S (length (w_file w))) relip w)
       else
         let w := printf [GapMarker] w in
         do relip <- skip_invalid (Z.to_nat (min_alloc sec - relip)) si sec
                       relip (w_pe w);
         Done (relip, w)
     else Done (relip, w));
  let ip := u32 (relip + address sec) in
  let w := fseek (u32 (offset sec + relip)) w in
  if (sec_length sec <=? relip) || (min_alloc sec <=? relip)
  then Done (Return w) else
  (* Instructions can hang over the end of a segment. Zero should be
     supplied. *)
  let '(buffer, w) :=
    fread_buffer (Z.min MAX_INSTR (u32 (sec_length sec - relip))) w in
  do f <- flags_get si relip (w_pe w);
  let w :=
    if has f INSTR_FUNC then
      printf [BlankLine;
              FuncHeader ip (default "no name" (get_export_name ip (w_pe w)))] w
    else w in
  do (len, out) <- print_pe_instr si sec ip buffer (w_pe w);
  Done (Next (u32 (relip + len)) (printf [InstrLine out] w)).

(** The loop of [print_disassembly] from [relip] on, with the [putchar]
    that follows it. *)
Fixpoint print_loop (fuel : nat) (si : nat) (sec : section) (relip : Z)
    (w : world) : result world :=
  match fuel with
  | O => OutOfFuel
  | S n =>
      if relip <? sec_length sec then
        do r <- disassembly_step si sec relip w;
        match r with
        | Next relip' w' => print_loop n si sec relip' w'
        | Return w' => Done w'
        end
      else Done (printf [BlankLine] w)
  end.

(** [print_disassembly(&pe->sections[si], pe)]. *)
Definition print_disassembly (fuel : nat) (si : nat) (w : world)
  : result world :=
  match sections (w_pe w) !! si with
  | None => Fault
  | Some sec => print_loop fuel si sec 0 w
  end.

End Renderer.

(** ** SectionDescriptorFormatter and the listing of all sections *)

(** The [if (flags & mask) strcat(buffer, label);] statements of
    [print_section_flags], in their order. *)
Definition section_flag_labels : list (Z * string) :=
  [ (1, ", STYP_DSECT"); (2, ", STYP_NOLOAD"); (4, ", STYP_GROUP");
    (8, ", STYP_PAD"); (16, ", STYP_COPY"); (32, ", code"); (64, ", data");
    (128, ", bss"); (256, ", S_NEWCFN"); (512, ", STYP_INFO");
    (1024, ", STYP_OVER"); (2048, ", STYP_LIB"); (4096, ", COMDAT");
    (8192, ", STYP_MERGE"); (16384, ", STYP_REVERSE_PAD");
    (32768, ", FARDATA"); (65536, ", (unknown flags 0x10000)");
    (131072, ", purgeable"); (262144, ", locked"); (524288, ", preload");
    (16777216, ", extended relocations"); (33554432, ", discardable");
    (67108864, ", not cached"); (134217728, ", not paged");
    (268435456, ", shared"); (536870912, ", executable");
    (1073741824, ", readable"); (2147483648, ", writable") ]%string.

(** [buffer] after the statements [tbl], starting from [buffer]. *)
Fixpoint strcat_flags (flags : Z) (tbl : list (Z * string)) (buffer : string)
  : string :=
  match tbl with
  | [] => buffer
  | (mask, label) :: tbl' =>
      strcat_flags flags tbl'
        (if has flags mask then (buffer ++ label)%string else buffer)
  end.

(** [buffer+n] for a string in a zero-filled array: past the end it is the
    empty string. *)
Fixpoint string_skip (n : nat) (s : string) : string :=
  match n, s with
  | O, _ => s
  | S n', String _ s' => string_skip n' s'
  | S _, EmptyString => EmptyString
  end.

(** A line of the heading of a section, as [print_sections] and
    [print_section_flags] print them. *)
Inductive heading :=
  | SectionLine (name : string) (start len malloc : Z)
      (* "Section %s (start = 0x%x, length = 0x%x, minimum allocation = 0x%x):\n" *)
  | AddressLine (addr : Z)                   (* "    Address: %x\n" *)
  | FlagsLine (flags : Z) (text : string)    (* "    Flags: 0x%08x (%s)\n" *)
  | AlignmentLine (value exponent : Z).      (* "    Alignment: %d (2**%d)\n" *)

(** [alignment] in [print_section_flags]. *)
Definition section_alignment (flags : Z) : Z :=
  Z.land flags 15728640 / 1048576.

(** The two lines [print_section_flags] prints. *)
Definition print_section_flags (flags : Z) : list heading :=
  let buffer := strcat_flags flags section_flag_labels "" in
  let alignment := section_alignment flags in
  [FlagsLine flags (string_skip 2 buffer);
   AlignmentLine (Z.shiftl 1 alignment) alignment].

(** A line of the whole of standard output: a heading line, or a line of
    the listing of a section. *)
Inductive sheet_line :=
  | Heading (h : heading)
  | Listing (l : line).

Section PrintSections.
Context {SH : Semblance_h} {XH : X86_instr_h}.

(** What [print_sections] prints for a section before its contents. *)
Definition section_heading (sec : section) : list sheet_line :=
  [Listing BlankLine;
   Heading (SectionLine (sec_name sec) (offset sec) (sec_length sec)
              (min_alloc sec));
   Heading (AddressLine (address sec))]
  ++ (Heading <$> print_section_flags (sec_flags sec)).

(** The loop of [print_sections] from section [i] on, [ss] being the
    sections from there. [sheet] is all that has been printed; the lines
    [print_disassembly] adds to [w_stdout] are appended to it. *)
Fixpoint print_sections_from (fuel : nat) (i : nat) (ss : list section)
    (w : world) (sheet : list sheet_line) : result (world * list sheet_line) :=
  match ss with
  | [] => Done (w, sheet)
  | sec :: ss' =>
      let sheet := sheet ++ section_heading sec in
      do (w', sheet') <-
        (if has (sec_flags sec) 64 then
           (* data: todo *)
           Done (w, sheet)
         else if has (sec_flags sec) 32 then
           do w' <- print_disassembly fuel i w;
           Done (w', sheet ++ (Listing <$> drop (length (w_stdout w))
                                             (w_stdout w')))
         else Done (w, sheet));
      print_sections_from fuel (S i) ss' w' sheet'
  end.

Definition print_sections (fuel : nat) (w : world)
  : result (world * list sheet_line) :=
  print_sections_from fuel 0 (sections (w_pe w)) w [].

End PrintSections.

(** ** A small decoder, for concrete runs

    A fragment of the IA-32 instruction set with the constants a header could
    give: [ret] (c3), [jmp rel8] (eb), [jz rel8] (74), [call rel32] (e8);
    [nop] (90); every other byte is a one-byte [db]. *)
Module Demo.

#[export] Instance semblance_h : Semblance_h := {|
  INSTR_SCANNED := 1;
  INSTR_VALID := 2;
  INSTR_JUMP := 4;
  INSTR_FUNC := 8;
  DISASSEMBLE_ALL := 1;
  MAX_INSTR := 16
|}.

Definition rel8 (b : Z) : Z := if b <? 128 then b else b - 256.

Definition plain (name : string) (fl : Z) (target : Z) : instr :=
  mk_instr (mk_op 0 0 name 0 fl) target 0 0.

Definition decode (ip : Z) (p : list Z) (is32 : Z) : instr * Z :=
  match p with
  | 144 :: _ => (plain "nop" 0 0, 1)
  | 195 :: _ => (plain "ret" 16 0, 1)
  | 235 :: d :: _ => (plain "jmp" 24 (u32 (ip + 2 + rel8 d)), 2)
  | 116 :: d :: _ => (plain "jz" 8 (u32 (ip + 2 + rel8 d)), 2)
  | 232 :: d0 :: d1 :: d2 :: d3 :: _ =>
      (mk_instr (mk_op 232 0 "call" 7 8)
         (u32 (ip + 5 + d0 + 256 * d1 + 65536 * d2 + 16777216 * d3)) 0 0, 5)
  | _ => (plain "db" 0 0, 1)
  end.

Definition render (ip : Z) (p : list Z) (len : Z) (fl : Z) (ins : instr)
    (comment : option string) : string :=
  match comment with
  | Some c => (op_name (instr_op ins) ++ " ; " ++ c)%string
  | None => op_name (instr_op ins)
  end.

#[export] Instance x86_instr_h : X86_instr_h := {|
  OP_BRANCH := 8;
  OP_STOP := 16;
  DISP_16 := 2;
  REL16 := 7;
  get_instr := decode;
  print_instr := render
|}.

(** A world with the given image and file, nothing read or written yet. *)
Definition boot (image : pe) (file : list Z) (opts : Z) : world :=
  mk_world image file 0 opts [] [] 0.

(** An image of one section with an empty classification map. *)
Definition one_section (addr len malloc off : Z) (es : list export)
    (entry : Z) : pe :=
  mk_pe [mk_section ".text" malloc addr len off 32
           (replicate (Z.to_nat malloc) 0)]
        es [] 4194304 entry 0.

(** An image with one import module of two names at table address 0x2000. *)
Definition two_imports : pe :=
  mk_pe [] [] [mk_import_module 8192 ["CreateFileA"; "ExitProcess"] 2]
        4194304 4096 0.

(** The self-loop: a four-byte section at 0x1000 that starts with [jmp] to
    itself. *)
Definition self_loop : world :=
  boot (one_section 4096 4 4 0 [] 4096) [235; 254; 144; 144] 0.

(** The self-loop scenario in full: 0x40 bytes, [jmp] to itself and
    filler. *)
Definition self_loop64 : world :=
  boot (one_section 4096 64 64 0 [] 4096) ([235; 254] ++ replicate 62 144) 0.

(** A section whose last instruction, a [jz] back to 0x1000, ends exactly
    at [min_alloc]; the scan enters at the [jz]. *)
Definition last_branch : world :=
  boot (one_section 4096 8 8 0 [] 4102)
       [195; 144; 144; 144; 144; 144; 116; 248] 0.

(** An unscanned section [nop; 0; 0; ret], rendered in disassemble-all
    mode. *)
Definition nop_zeroes : world :=
  boot (one_section 4096 4 4 0 [] 4096) [144; 0; 0; 195] 1.

(** Ten unreached bytes and a [ret] at offset 10, entered at the [ret]. *)
Definition gap_ten : world :=
  boot (one_section 4096 12 12 0 [] 4106) (replicate 10 0 ++ [195; 144]) 0.

(** A [call] of five bytes at the start of a section of which only three
    bytes are allocated. *)
Definition short_alloc : world :=
  boot (one_section 4096 8 3 0 [] 4096) [232; 0; 0; 0; 0; 195; 144; 144] 0.

(** A section at address zero with four bytes in the file and two
    allocated. *)
Definition at_zero : world :=
  boot (one_section 0 4 2 0 [] 0) [144; 144; 144; 144] 0.

(** An unscanned section [0; 0; 0; ret], rendered in disassemble-all mode. *)
Definition zero_run : world :=
  boot (one_section 4096 4 4 0 [] 4096) [0; 0; 0; 195] 1.

(** An image of two sections, the first flagged data and code, the second
    flagged neither. *)
Definition data_image : world :=
  boot (mk_pe [mk_section ".rdata" 4 4096 4 0 96 [0; 0; 0; 0];
               mk_section ".bss" 8 8192 0 0 128 (replicate 8 0)]
              [] [] 4194304 4096 8192)
       [195; 195; 195; 195] 0.

(** A fork: [jz] over a [nop] and a [ret] to a second [ret]. *)
Definition fork : world :=
  boot (one_section 4096 8 8 0 [] 4096)
       [116; 2; 144; 195; 195; 144; 144; 144] 0.

(** An image whose export and entry point lie outside its section. *)
Definition stray : world :=
  boot (one_section 4096 4 4 0 [mk_export 36864 (Some "far")] 20480)
       [195; 195; 195; 195] 0.


(** The world a completed run ends in. *)
Definition outcome (r : result world) (otherwise : world) : world :=
  match r with
  | Done w => w
  | _ => otherwise
  end.

(** The self-loop after the scan of its entry point. *)
Definition self_loop_scanned : world :=
  Eval vm_compute in outcome (scan_segment 3 4096 self_loop) self_loop.

(** [last_branch] after the scan from the [jz]. *)
Definition last_branch_scanned : world :=
  Eval vm_compute in outcome (scan_segment 5 4102 last_branch) last_branch.

(** [gap_ten] after [read_sections]. *)
Definition gap_ten_scanned : world :=
  Eval vm_compute in outcome (read_sections 3 gap_ten) gap_ten.

(** [fork] after the scan of its entry point. *)
Definition fork_scanned : world :=
  Eval vm_compute in outcome (scan_segment 6 4096 fork) fork.

(** [fork_scanned] after a scan from the second byte of its [jz]. *)
Definition fork_rescanned : world :=
  Eval vm_compute in outcome (scan_segment 3 4097 fork_scanned) fork_scanned.

(** [short_alloc] after the scan of its entry point. *)
Definition short_alloc_scanned : world :=
  Eval vm_compute in outcome (scan_segment 3 4096 short_alloc) short_alloc.


(** [nop_zeroes] after the rendering of its section. *)
Definition nop_zeroes_rendered : world :=
  Eval vm_compute in outcome (print_disassembly 5 0 nop_zeroes) nop_zeroes.

End Demo.

(** ** Vocabulary of the properties *)

(** The classification byte [j] of section [si], if there is one. *)
Definition flag_at (p : pe) (si j : nat) : option Z :=
  match sections p !! si with
  | Some s => instr_flags s !! j
  | None => None
  end.

(** What the scanner never writes: every field of a section but the
    contents of its map, and every other field of the image. *)
Definition sec_frame (s : section) : string * Z * Z * Z * Z * Z * nat :=
  (sec_name s, min_alloc s, address s, sec_length s, offset s, sec_flags s,
   length (instr_flags s)).

Definition pe_frame (p : pe) :=
  (sec_frame <$> sections p, exports p, imports p, ImageBase p,
   AddressOfEntryPoint p, Characteristics p).

(** [w'] is [w] with the stream position moved and lines appended. *)
Definition rendered (w w' : world) : Prop :=
  w_pe w' = w_pe w /\ w_file w' = w_file w /\ w_opts w' = w_opts w /\
  w_stderr w' = w_stderr w /\ exists ls, w_stdout w' = w_stdout w ++ ls.

(** The image of the self-loop scenario: one code section
    [[0x1000, 0x1000+0x40)] with an empty map, no exports and entry point
    0x1000; the other fields are free. *)
Definition self_loop_image (nm : string) (off fl : Z)
    (imps : list import_module) (base chars : Z) : pe :=
  mk_pe [mk_section nm 64 4096 64 off fl (replicate 64 0)] [] imps base 4096
        chars.

(** The entry addresses [read_sections] scans from: every export, and the
    entry point unless the image is flagged 0x2000. *)
Definition entry_points (p : pe) : list Z :=
  (export_address <$> exports p) ++
  (if Z.land (Characteristics p) 8192 =? 0 then [AddressOfEntryPoint p]
   else []).

(** The test of [addr2section]: [addr] lies in the range of [s]. *)
Definition in_range (addr : Z) (s : section) : Prop :=
  address s <= addr < u32 (address s + min_alloc s).

(** The names [print_section_flags] lists for [flags]: the labels of the
    bits that are set, in the order of the statements, each without its
    leading separator. *)
Definition section_flag_names (flags : Z) : list string :=
  string_skip 2 <$>
    (snd <$> filter (fun ml => has flags ml.1 = true) section_flag_labels).

(** The dword fields of an import module, with a table that ends inside the
    32-bit address space. *)
Definition import_fits (m : import_module) : Prop :=
  0 <= nametab_addr m /\ 0 <= count m /\
  nametab_addr m + sizeof_dword * count m <= 2 ^ 32.

(** [offset0] lies in a slot of the table of [m]. *)
Definition in_table (offset0 : Z) (m : import_module) : Prop :=
  nametab_addr m <= offset0 < nametab_addr m + sizeof_dword * count m.

(** The heading lines of a sheet. *)
Definition sheet_headings (sheet : list sheet_line) : list heading :=
  omap (fun l => match l with Heading h => Some h | Listing _ => None end)
       sheet.

(** The heading lines of one section. *)
Definition headings_of (sec : section) : list heading :=
  [SectionLine (sec_name sec) (offset sec) (sec_length sec) (min_alloc sec);
   AddressLine (address sec)] ++ print_section_flags (sec_flags sec).

(** The sum of the lengths of the labels of a table. *)
Definition labels_length (tbl : list (Z * string)) : nat :=
  sum_list_with (fun ml => String.length ml.2) tbl.

Section Vocabulary.
Context {SH : Semblance_h} {XH : X86_instr_h}.

(** The four classification bits together. *)
Definition class_mask : Z :=
  Z.lor (Z.lor INSTR_VALID INSTR_SCANNED) (Z.lor INSTR_FUNC INSTR_JUMP).

(** [f'] is [f] with classification bits ORed in. *)
Definition flag_le (f f' : Z) : Prop :=
  exists m, Z.land m class_mask = m /\ f' = Z.lor f m.

(** Same frame, and every classification byte has only gained bits. *)
Definition pe_le (p p' : pe) : Prop :=
  pe_frame p = pe_frame p' /\
  forall si j f, flag_at p si j = Some f ->
    exists f', flag_at p' si j = Some f' /\ flag_le f f'.

(** The number of bytes not yet [INSTR_SCANNED]. *)
Definition unscanned_weight (f : Z) : nat :=
  if has f INSTR_SCANNED then 0%nat else 1%nat.

Definition unscanned_flags (fl : list Z) : nat :=
  sum_list_with unscanned_weight fl.

Definition unscanned (p : pe) : nat :=
  sum_list_with (fun s => unscanned_flags (instr_flags s)) (sections p).

(** The number of bytes of all classification maps. *)
Definition image_bytes (p : pe) : nat :=
  sum_list_with (fun s => length (instr_flags s)) (sections p).

(** The order of images by their count of unscanned bytes. *)
Definition unscanned_ge (p p' : pe) : Prop :=
  (unscanned p' <= unscanned p)%nat.


(** A section the 32-bit arithmetic of the scanner is exact on: the map has
    [min_alloc] bytes, the section and one decode window past it lie below
    2^31 (offsets are also held in an [int]), and the section either does not
    start at address zero or has no file contents past [min_alloc]. *)
Definition wf_frame (fr : string * Z * Z * Z * Z * Z * nat) : Prop :=
  let '(_, malloc, addr, len, _, _, n) := fr in
  n = Z.to_nat malloc /\ 0 <= malloc /\ 0 <= addr /\
  addr + malloc + MAX_INSTR <= 2 ^ 31 /\
  (0 < addr \/ len <= malloc).

Definition wf_pe (p : pe) : Prop :=
  Forall wf_frame (sec_frame <$> sections p).

(** [VALID] implies [SCANNED], for one byte and for an image. *)
Definition flags_ok (f : Z) : Prop :=
  has f INSTR_VALID = true -> has f INSTR_SCANNED = true.

Definition valid_scanned_inv (p : pe) : Prop :=
  forall si j f, flag_at p si j = Some f -> flags_ok f.

Definition empty_maps (p : pe) : Prop :=
  forall si j f, flag_at p si j = Some f -> f = 0.

(** [p'] has the frame of [p] and the invariant if [p] is well-formed and
    has it. *)
Definition keeps_inv (p p' : pe) : Prop :=
  pe_frame p = pe_frame p' /\
  (wf_pe p -> valid_scanned_inv p -> valid_scanned_inv p').


(** The states a sequence of completed calls of [scan_segment] leads to from
    a well-formed image with empty maps. *)
Inductive reachable : world -> Prop :=
  | reach_init w : wf_pe (w_pe w) -> empty_maps (w_pe w) -> reachable w
  | reach_scan w fuel ip w' :
      reachable w -> scan_segment fuel ip w = Done w' -> reachable w'.

(** The ways an iteration of the loop of [scan_segment] with fuel [S n]
    can complete once the bytes are marked: the instruction is taken to
    hang over the allocation; the instruction stops the flow; the scan falls
    through to the next instruction. *)
Inductive after_mark (n si : nat) (sec : section) (ip relip : Z) (ins : instr)
    (len i : Z) (w w' : world) : Prop :=
  | case_hang :
      (i <? u32 (ip + len)) && (i =? min_alloc sec) = true ->
      w' = warn_at ip ReachedEnd w ->
      after_mark n si sec ip relip ins len i w w'
  | case_stop :
      (i <? u32 (ip + len)) && (i =? min_alloc sec) = false ->
      scan_branch (scan_enter (scan_loop n)) ip ins w = Done w' ->
      has (op_flags (instr_op ins)) OP_STOP = true ->
      after_mark n si sec ip relip ins len i w w'
  | case_next w3 :
      (i <? u32 (ip + len)) && (i =? min_alloc sec) = false ->
      scan_branch (scan_enter (scan_loop n)) ip ins w = Done w3 ->
      has (op_flags (instr_op ins)) OP_STOP = false ->
      scan_loop n si (u32 (ip + len)) (u32 (u32 (ip + len) - address sec)) w3
        = Done w' ->
      after_mark n si sec ip relip ins len i w w'.

(** The ways one iteration can complete: the loop condition fails; the byte
    is already scanned; an instruction is decoded and marked. *)
Inductive loop_case (n si : nat) (ip relip : Z) (w w' : world) : Prop :=
  | case_end sec :
      sections (w_pe w) !! si = Some sec -> sec_length sec <= relip ->
      w' = warn_at ip ReachedEnd w -> loop_case n si ip relip w w'
  | case_seen sec f :
      sections (w_pe w) !! si = Some sec -> relip < sec_length sec ->
      flags_get si relip (w_pe w) = Done f -> has f INSTR_SCANNED = true ->
      w' = tick w -> loop_case n si ip relip w w'
  | case_decoded sec f buffer wr ins len i p :
      sections (w_pe w) !! si = Some sec -> relip < sec_length sec ->
      flags_get si relip (w_pe w) = Done f -> has f INSTR_SCANNED = false ->
      read_window sec relip (tick w) = (buffer, wr) ->
      get_instr ip buffer 1 = (ins, len) ->
      mark_instr si relip len (min_alloc sec) (w_pe w) = Done (i, p) ->
      after_mark n si sec ip relip ins len i (set_pe wr p) w' ->
      loop_case n si ip relip w w'.

(** The entry address [e] is settled: if it lies in a section, its byte
    can be read and, when inside the file contents of the section, is
    [INSTR_SCANNED]. *)
Definition settled (e : Z) (p : pe) : Prop :=
  forall si sec, addr2section e p = Some si -> sections p !! si = Some sec ->
    exists f, flags_get si (u32 (e - address sec)) p = Done f /\
      (u32 (e - address sec) < sec_length sec -> has f INSTR_SCANNED = true).

(** The label [print_disassembly] prints before an instruction whose byte
    has flags [f]: none unless the byte is [INSTR_FUNC]. *)
Definition func_header (f ip : Z) (image : pe) : list line :=
  if has f INSTR_FUNC then
    [BlankLine;
     FuncHeader ip (default "no name" (get_export_name ip image))]
  else [].

(** The budget of a scan: [ticks] spent against unscanned bytes left. *)
Definition within_budget (w w' : world) : Prop :=
  (w_ticks w' + 2 * unscanned (w_pe w')
   <= w_ticks w + 2 * unscanned (w_pe w) + 1)%nat.

(** What a call of the loop needs: a well-formed image, an offset that is
    inside the map whenever it is inside the file contents, and fuel beyond
    the number of unscanned bytes. *)
Definition loop_total (n : nat)
    (loop : nat -> Z -> Z -> world -> result world) : Prop :=
  forall si ip relip w sec,
    wf_pe (w_pe w) -> sections (w_pe w) !! si = Some sec ->
    0 <= relip -> (relip < sec_length sec -> relip < min_alloc sec) ->
    ip = address sec + relip -> (unscanned (w_pe w) < n)%nat ->
    exists w', loop si ip relip w = Done w' /\ within_budget w w'.

Definition scan_total (n : nat) (scan : Z -> world -> result world) : Prop :=
  forall ip w, wf_pe (w_pe w) -> (unscanned (w_pe w) < n)%nat ->
    exists w', scan ip w = Done w' /\ within_budget w w'.

(** A sequence of completed calls of [scan_segment]. *)
Inductive scans : world -> world -> Prop :=
  | scans_none w : scans w w
  | scans_more w fuel ip w1 w2 :
      scan_segment fuel ip w = Done w1 -> scans w1 w2 -> scans w w2.

(** What a scan leaves of the world outside the image: nothing is printed,
    the file and the options are as they were, and warnings are only
    appended. *)
Definition scan_frame (w w' : world) : Prop :=
  w_stdout w' = w_stdout w /\ w_file w' = w_file w /\ w_opts w' = w_opts w /\
  exists ws, w_stderr w' = w_stderr w ++ ws.

(** The byte at offset [relip] of section [si] can be read and has the
    bit [m]. *)
Definition byte_has (p : pe) (si : nat) (relip m : Z) : Prop :=
  exists f, flags_get si relip p = Done f /\ has f m = true.

(** The instruction at offset [relip] of [sec] with its length, as
    [scan_segment] and [print_disassembly] decode it from the file. *)
Definition decode_at (sec : section) (relip : Z) (w : world) : instr * Z :=
  get_instr (address sec + relip) (read_window sec relip w).1 1.

(** The bit [scan_segment] sets on the target of a branch. *)
Definition target_mark (ins : instr) : Z :=
  if String.eqb (op_name (instr_op ins)) "call" then INSTR_FUNC
  else INSTR_JUMP.

(** An instruction of [len] bytes at [relip] that the test for an
    instruction hanging over the allocation lets through. *)
Definition ends_inside (sec : section) (relip len : Z) : Prop :=
  relip + len < min_alloc sec \/
  (address sec = 0 /\ relip + len <= min_alloc sec).

(** The target of the branch [ins] is done with: if it lies in a section,
    its byte carries the mark of the branch and, when inside the file
    contents of the section, is [INSTR_SCANNED]. *)
Definition target_done (ins : instr) (p : pe) : Prop :=
  forall ti tsec,
    addr2section (arg0 ins) p = Some ti -> sections p !! ti = Some tsec ->
    exists f, flags_get ti (u32 (arg0 ins - address tsec)) p = Done f /\
      has f (target_mark ins) = true /\
      (u32 (arg0 ins - address tsec) < sec_length tsec ->
       has f INSTR_SCANNED = true).

(** The instruction at offset [relip] of section [si] has been followed:
    its bytes inside the map are [INSTR_SCANNED]; and if it ends inside the
    allocation, the target of a branch is done with, and unless the
    instruction stops the flow the byte after it is [INSTR_SCANNED] when it
    lies inside the file contents. *)
Definition followed (w : world) (si : nat) (sec : section) (relip : Z)
  : Prop :=
  forall ins len, decode_at sec relip w = (ins, len) ->
  (forall k, relip <= k < Z.min (relip + len) (min_alloc sec) ->
     byte_has (w_pe w) si k INSTR_SCANNED) /\
  (ends_inside sec relip len ->
   (has (op_flags (instr_op ins)) OP_BRANCH = true ->
    target_done ins (w_pe w)) /\
   (has (op_flags (instr_op ins)) OP_STOP = false ->
    relip + len < sec_length sec ->
    byte_has (w_pe w) si (relip + len) INSTR_SCANNED)).

(** Every instruction start of [w'] that is not one of [w] lies inside the
    file contents of its section and has been followed. *)
Definition follows (w w' : world) : Prop :=
  forall si sec relip,
    sections (w_pe w') !! si = Some sec ->
    byte_has (w_pe w') si relip INSTR_VALID ->
    byte_has (w_pe w) si relip INSTR_VALID \/
    (relip < sec_length sec /\ followed w' si sec relip).

(** [w'] continues the scan of [w]: bytes have only gained bits, the file
    is the same, and the new instruction starts have been followed. *)
Definition advance (w w' : world) : Prop :=
  pe_le (w_pe w) (w_pe w') /\ w_file w' = w_file w /\ follows w w'.

(** What a call of the loop needs to continue a scan: a well-formed image,
    an offset inside the map whenever it is inside the file contents, and
    the address of that offset. *)
Definition loop_advances
    (loop : nat -> Z -> Z -> world -> result world) : Prop :=
  forall si ip relip w w' sec,
    wf_pe (w_pe w) -> sections (w_pe w) !! si = Some sec ->
    0 <= relip -> (relip < sec_length sec -> relip < min_alloc sec) ->
    ip = address sec + relip ->
    loop si ip relip w = Done w' -> advance w w'.

(** The search for an instruction in one iteration of the loop of
    [print_disassembly]: the statement under "find a valid instruction",
    [f] being the byte at [relip]. *)
Definition sweep_find (si : nat) (sec : section) (relip f : Z) (w : world)
  : result (Z * world) :=
  if negb (has f INSTR_VALID) then
    if has (w_opts w) DISASSEMBLE_ALL then
      let '(b, w) := read_byte w in
      let '(relip, w) :=
        if b =? 0 then (u32 (relip + 1), printf [GapMarker] w)
        else (relip, w) in
      Done (skip_zeroes (S (length (w_file w))) relip w)
    else
      let w := printf [GapMarker] w in
      do relip <- skip_invalid (Z.to_nat (min_alloc sec - relip)) si sec
                    relip (w_pe w);
      Done (relip, w)
  else Done (relip, w).

(** The rest of the iteration, from [ip = relip + sec->address] on:
    the test for the end of the section, and the printing of the
    instruction at [relip]. *)
Definition sweep_tail (si : nat) (sec : section) (relip : Z) (w : world)
  : result sweep :=
  let ip := u32 (relip + address sec) in
  let w := fseek (u32 (offset sec + relip)) w in
  if (sec_length sec <=? relip) || (min_alloc sec <=? relip)
  then Done (Return w) else
  let '(buffer, w) :=
    fread_buffer (Z.min MAX_INSTR (u32 (sec_length sec - relip))) w in
  do f <- flags_get si relip (w_pe w);
  let w :=
    if has f INSTR_FUNC then
      printf [BlankLine;
              FuncHeader ip (default "no name" (get_export_name ip (w_pe w)))] w
    else w in
  do (len, out) <- print_pe_instr si sec ip buffer (w_pe w);
  Done (Next (u32 (relip + len)) (printf [InstrLine out] w)).

(** The number of zero bytes a list starts with. *)
Fixpoint leading_zeroes (l : list Z) : nat :=
  match l with
  | [] => 0%nat
  | b :: l' => if b =? 0 then S (leading_zeroes l') else 0%nat
  end.

(** Once a byte is scanned it is decided whether it starts an instruction:
    bytes have only gained bits from [p] to [p'], and every byte of [p]
    that is [INSTR_SCANNED] has in [p'] the [INSTR_VALID] bit it has in
    [p]. *)
Definition decided (p p' : pe) : Prop :=
  pe_le p p' /\
  forall si j f, flag_at p si j = Some f -> has f INSTR_SCANNED = true ->
    exists f', flag_at p' si j = Some f' /\
      has f' INSTR_VALID = has f INSTR_VALID.

End Vocabulary.

(** * Properties *)

(** ** Bits *)

Lemma land_pow2 f b :
  0 <= b -> Z.land f (2 ^ b) = if Z.testbit f b then 2 ^ b else 0.
Proof.
  intros Hb. apply Z.bits_inj'. intros n Hn.
  rewrite Z.land_spec, Z.pow2_bits_eqb by lia.
  destruct (Z.eqb_spec b n) as [->|Hne].
  - destruct (Z.testbit f n); simpl.
    + rewrite Z.pow2_bits_eqb by lia. symmetry. apply Z.eqb_refl.
    + symmetry. apply Z.bits_0.
  - rewrite andb_false_r. destruct (Z.testbit f b).
    + rewrite Z.pow2_bits_eqb by lia. symmetry. by apply Z.eqb_neq.
    + symmetry. apply Z.bits_0.
Qed.

Lemma has_pow2 f b : 0 <= b -> has f (2 ^ b) = Z.testbit f b.
Proof.
  intros Hb. unfold has. rewrite land_pow2 by done.
  destruct (Z.testbit f b); [|done].
  apply negb_true_iff, Z.eqb_neq.
  pose proof (Z.pow_pos_nonneg 2 b). lia.
Qed.

Lemma has_lor f m m' : has (Z.lor f m') m = has f m || has m' m.
Proof.
  unfold has. rewrite Z.land_lor_distr_l.
  destruct (Z.eqb_spec (Z.land f m) 0) as [E|E];
    destruct (Z.eqb_spec (Z.land m' m) 0) as [E'|E']; simpl.
  - rewrite E, E'. done.
  - rewrite E, Z.lor_0_l. by apply negb_true_iff, Z.eqb_neq.
  - rewrite E', Z.lor_0_r. by apply negb_true_iff, Z.eqb_neq.
  - apply negb_true_iff, Z.eqb_neq. intros E0.
    apply Z.lor_eq_0_iff in E0. tauto.
Qed.

Lemma has_self m : byte_bit m -> has m m = true.
Proof.
  intros (b & Hb & ->). rewrite has_pow2 by lia. apply Z.pow2_bits_true. lia.
Qed.

Lemma has_other m m' : byte_bit m -> byte_bit m' -> m' <> m -> has m' m = false.
Proof.
  intros (b & Hb & ->) (b' & Hb' & ->) Hne. rewrite has_pow2 by lia.
  rewrite Z.pow2_bits_eqb by lia. apply Z.eqb_neq. congruence.
Qed.

Lemma has_lor_self f m : byte_bit m -> has (Z.lor f m) m = true.
Proof. intros Hm. rewrite has_lor, (has_self m Hm). apply orb_true_r. Qed.

Lemma has_lor_other f m m' :
  byte_bit m -> byte_bit m' -> m' <> m -> has (Z.lor f m') m = has f m.
Proof.
  intros Hm Hm' Hne. rewrite has_lor, (has_other m m') by done.
  apply orb_false_r.
Qed.

(** The test [(flags & (INSTR_VALID|INSTR_SCANNED)) == INSTR_SCANNED] holds
    exactly of a byte that is scanned and not valid. *)
Lemma mid_instr_test {SH : Semblance_h} {XH : X86_instr_h} {HL : HeaderLaws} f :
  (Z.land f (Z.lor INSTR_VALID INSTR_SCANNED) =? INSTR_SCANNED)
  = has f INSTR_SCANNED && negb (has f INSTR_VALID).
Proof.
  destruct scanned_bit as (s & Hs & Es), valid_bit as (v & Hv & Ev).
  pose proof valid_scanned as Hne.
  rewrite Es, Ev in *. rewrite !has_pow2 by lia.
  rewrite Z.land_lor_distr_r, !land_pow2 by lia.
  assert (Hsv : s <> v) by congruence.
  assert (H2 : forall b, 0 <= b -> 2 ^ b <> 0).
  { intros b Hb. pose proof (Z.pow_pos_nonneg 2 b). lia. }
  destruct (Z.testbit f v), (Z.testbit f s); cbn [andb negb].
  - apply Z.eqb_neq. intros E.
    assert (E' : Z.testbit (Z.lor (2 ^ v) (2 ^ s)) v = Z.testbit (2 ^ s) v)
      by (by rewrite E).
    rewrite Z.lor_spec, !Z.pow2_bits_eqb, Z.eqb_refl in E' by lia.
    symmetry in E'. apply Z.eqb_eq in E'. lia.
  - rewrite Z.lor_0_r. apply Z.eqb_neq. intros E.
    apply Z.pow_inj_r in E; lia.
  - rewrite Z.lor_0_l. apply Z.eqb_refl.
  - rewrite Z.lor_0_l. apply Z.eqb_neq. specialize (H2 s). lia.
Qed.

(** ** Reading and writing the classification maps *)

Lemma flags_get_Done si i p f :
  flags_get si i p = Done f <-> 0 <= i /\ flag_at p si (Z.to_nat i) = Some f.
Proof.
  unfold flags_get, flag_at. destruct (sections p !! si) as [s|].
  - destruct (Z.leb_spec 0 i).
    + destruct (instr_flags s !! Z.to_nat i); split; intros; try done;
        destruct_and?; simplify_eq; auto.
    + split; [done | lia].
  - split; [done | by intros []].
Qed.

Lemma flags_or_Done si i m p p' :
  flags_or si i m p = Done p' ->
  exists f, 0 <= i /\ flag_at p si (Z.to_nat i) = Some f /\
    pe_frame p' = pe_frame p /\
    forall sj j, flag_at p' sj j =
      if decide (sj = si /\ j = Z.to_nat i) then Some (Z.lor f m)
      else flag_at p sj j.
Proof.
  unfold flags_or. destruct (sections p !! si) as [s|] eqn:Hs; [|done].
  destruct (flags_get si i p) as [f| |] eqn:Hf; [|done..]. simpl.
  intros [= <-]. apply flags_get_Done in Hf as [Hi Hf].
  exists f. split; [done|]. split; [done|].
  unfold flag_at in Hf. rewrite Hs in Hf.
  split.
  - unfold pe_frame. simpl. f_equal. f_equal. f_equal. f_equal. f_equal.
    rewrite list_fmap_insert. apply list_insert_id.
    rewrite list_lookup_fmap, Hs. simpl. unfold sec_frame. simpl.
    by rewrite length_insert.
  - intros sj j. unfold flag_at. simpl.
    destruct (decide (sj = si)) as [->|Hne].
    + rewrite list_lookup_insert_eq by (by eapply lookup_lt_Some). simpl.
      destruct (decide (j = Z.to_nat i)) as [->|Hne].
      * rewrite decide_True by done.
        rewrite list_lookup_insert_eq by (by eapply lookup_lt_Some). done.
      * rewrite decide_False by (intros []; done).
        rewrite list_lookup_insert_ne by done. by rewrite Hs.
    + rewrite decide_False by (intros []; done).
      by rewrite list_lookup_insert_ne.
Qed.

Lemma flags_or_total si i m p f :
  0 <= i -> flag_at p si (Z.to_nat i) = Some f ->
  exists p', flags_or si i m p = Done p'.
Proof.
  intros Hi Hf. unfold flags_or.
  assert (Hg : flags_get si i p = Done f) by (by apply flags_get_Done).
  unfold flag_at in Hf. destruct (sections p !! si); [|done].
  rewrite Hg. simpl. eauto.
Qed.

(** ** Frames *)

Lemma frame_sections p p' :
  pe_frame p = pe_frame p' ->
  sec_frame <$> sections p = sec_frame <$> sections p'.
Proof. unfold pe_frame. by intros [=]. Qed.

Lemma frame_lookup p p' si s :
  pe_frame p = pe_frame p' -> sections p !! si = Some s ->
  exists s', sections p' !! si = Some s' /\ sec_frame s = sec_frame s'.
Proof.
  intros Hfr Hs. apply frame_sections in Hfr.
  assert (Hl : (sec_frame <$> sections p) !! si = Some (sec_frame s))
    by (by rewrite list_lookup_fmap, Hs).
  rewrite Hfr, list_lookup_fmap in Hl.
  destruct (sections p' !! si) as [s'|]; [|done].
  simpl in Hl. exists s'. split; [done|]. congruence.
Qed.

Lemma addr2section_from_frame i ss ss' addr :
  sec_frame <$> ss = sec_frame <$> ss' ->
  addr2section_from i ss addr = addr2section_from i ss' addr.
Proof.
  revert i ss'. induction ss as [|s ss IH]; intros i [|s' ss'] Hfr; try done.
  simpl in *. injection Hfr as _ Hm Ha _ _ _ _ Hss.
  by rewrite Hm, Ha, (IH (S i) ss').
Qed.

Lemma addr2section_frame p p' addr :
  pe_frame p = pe_frame p' -> addr2section addr p = addr2section addr p'.
Proof.
  intros Hfr. apply addr2section_from_frame. by apply frame_sections.
Qed.

(** [addr2section] yields the first section whose range holds the address. *)
Lemma addr2section_from_Some i ss addr si :
  addr2section_from i ss addr = Some si ->
  exists s, (i <= si)%nat /\ ss !! (si - i)%nat = Some s /\
    address s <= addr < u32 (address s + min_alloc s) /\
    forall k t, (k < si - i)%nat -> ss !! k = Some t ->
      ~ (address t <= addr < u32 (address t + min_alloc t)).
Proof.
  revert i. induction ss as [|s ss IH]; intros i; simpl; [done|].
  destruct (Z.leb_spec (address s) addr) as [H1|H1];
    [destruct (Z.ltb_spec addr (u32 (address s + min_alloc s))) as [H2|H2]|];
    simpl.
  1: { intros [= <-]. exists s. rewrite Nat.sub_diag.
       repeat split; try done; lia. }
  all: intros Hr; apply IH in Hr as (t & Hle & Ht & Hin & Hfirst);
    exists t; split; [lia|];
    replace (si - i)%nat with (S (si - S i)) by lia;
    split; [done|]; split; [done|];
    intros [|k] t' Hk Ht'; simpl in Ht';
    [injection Ht' as <-; lia | apply (Hfirst k t'); [lia|done]].
Qed.

Lemma addr2section_from_None i ss addr :
  addr2section_from i ss addr = None ->
  forall k t, ss !! k = Some t ->
    ~ (address t <= addr < u32 (address t + min_alloc t)).
Proof.
  revert i. induction ss as [|s ss IH]; intros i; simpl; [done|].
  destruct (Z.leb_spec (address s) addr) as [H1|H1];
    [destruct (Z.ltb_spec addr (u32 (address s + min_alloc s))) as [H2|H2]|];
    simpl; [done|..];
    intros Hr [|k] t Ht; simpl in Ht;
    try (injection Ht as <-; lia); by eapply IH.
Qed.

(** ** Bytes only gain classification bits *)

Section Growth.
Context {SH : Semblance_h} {XH : X86_instr_h} {HL : HeaderLaws}.

Lemma flag_le_refl f : flag_le f f.
Proof. exists 0. by rewrite Z.land_0_l, Z.lor_0_r. Qed.

Lemma flag_le_trans f g h : flag_le f g -> flag_le g h -> flag_le f h.
Proof.
  intros (m & Hm & ->) (m' & Hm' & ->). exists (Z.lor m m'). split.
  - by rewrite Z.land_lor_distr_l, Hm, Hm'.
  - by rewrite Z.lor_assoc.
Qed.

Lemma land_class_mask m :
  m = INSTR_VALID \/ m = INSTR_SCANNED \/ m = INSTR_FUNC \/ m = INSTR_JUMP ->
  Z.land m class_mask = m.
Proof.
  intros Hm. unfold class_mask. apply Z.bits_inj'. intros n _.
  rewrite Z.land_spec, !Z.lor_spec.
  destruct Hm as [-> | [-> | [-> | ->]]];
    destruct (Z.testbit INSTR_VALID n), (Z.testbit INSTR_SCANNED n),
      (Z.testbit INSTR_FUNC n), (Z.testbit INSTR_JUMP n); done.
Qed.

Lemma flag_le_lor f m :
  m = INSTR_VALID \/ m = INSTR_SCANNED \/ m = INSTR_FUNC \/ m = INSTR_JUMP ->
  flag_le f (Z.lor f m).
Proof. intros Hm. exists m. split; [by apply land_class_mask | done]. Qed.

Lemma flag_le_has f f' m : flag_le f f' -> has f m = true -> has f' m = true.
Proof. intros (m' & _ & ->) Hf. by rewrite has_lor, Hf. Qed.

(** A byte that gains bits keeps every bit it has. *)
Lemma flag_le_testbit f f' n :
  flag_le f f' -> Z.testbit f n = true -> Z.testbit f' n = true.
Proof. intros (m' & _ & ->) Hf. by rewrite Z.lor_spec, Hf. Qed.

Lemma pe_le_refl p : pe_le p p.
Proof. split; [done|]. intros si j f Hf. exists f. auto using flag_le_refl. Qed.

Lemma pe_le_trans p q r : pe_le p q -> pe_le q r -> pe_le p r.
Proof.
  intros [Hfr1 H1] [Hfr2 H2]. split; [congruence|].
  intros si j f Hf. destruct (H1 _ _ _ Hf) as (g & Hg & Hfg).
  destruct (H2 _ _ _ Hg) as (h & Hh & Hgh).
  exists h. eauto using flag_le_trans.
Qed.

Lemma flags_or_le si i m p p' :
  m = INSTR_VALID \/ m = INSTR_SCANNED \/ m = INSTR_FUNC \/ m = INSTR_JUMP ->
  flags_or si i m p = Done p' -> pe_le p p'.
Proof.
  intros Hm Hor. apply flags_or_Done in Hor as (f & Hi & Hf & Hfr & Hat).
  split; [done|]. intros sj j g Hg. rewrite Hat. case_decide as Hd.
  - destruct Hd as [-> ->]. exists (Z.lor f m). split; [done|].
    replace g with f by congruence. by apply flag_le_lor.
  - exists g. auto using flag_le_refl.
Qed.

(** ** The count of unscanned bytes *)

Lemma sum_list_with_insert {A} (g : A -> nat) (l : list A) i x y :
  l !! i = Some x ->
  (sum_list_with g (<[i:=y]> l) + g x = sum_list_with g l + g y)%nat.
Proof.
  revert i. induction l as [|a l IH]; intros [|i] Hl; simpl in *; try done.
  - injection Hl as ->. lia.
  - specialize (IH i Hl). lia.
Qed.

Lemma flags_or_unscanned si i m p p' f :
  flags_or si i m p = Done p' -> flag_at p si (Z.to_nat i) = Some f ->
  (unscanned p' + unscanned_weight f
   = unscanned p + unscanned_weight (Z.lor f m))%nat.
Proof.
  unfold flags_or, flag_at. destruct (sections p !! si) as [s|] eqn:Hs; [|done].
  intros Hor Hf.
  assert (Hg : flags_get si i p = Done f).
  { unfold flags_get. rewrite Hs.
    destruct (Z.leb_spec 0 i) as [Hi|Hi]; [by rewrite Hf|].
    revert Hor. unfold flags_get. rewrite Hs.
    destruct (Z.leb_spec 0 i); [lia | done]. }
  rewrite Hg in Hor. simpl in Hor. injection Hor as <-.
  unfold unscanned. simpl.
  pose proof (sum_list_with_insert
    (fun s => unscanned_flags (instr_flags s)) (sections p) si s
    (set_instr_flags s (<[Z.to_nat i:=Z.lor f m]> (instr_flags s))) Hs) as H1.
  simpl in H1.
  pose proof (sum_list_with_insert unscanned_weight (instr_flags s)
    (Z.to_nat i) f (Z.lor f m) Hf) as H2.
  unfold unscanned_flags in *. lia.
Qed.

Lemma flags_or_unscanned_le si i m p p' :
  flags_or si i m p = Done p' -> (unscanned p' <= unscanned p)%nat.
Proof.
  intros Hor. pose proof Hor as (f & Hi & Hf & _)%flags_or_Done.
  pose proof (flags_or_unscanned _ _ _ _ _ _ Hor Hf) as Hu.
  unfold unscanned_weight in Hu. rewrite has_lor in Hu.
  destruct (has f INSTR_SCANNED); simpl in Hu;
    [|destruct (has m INSTR_SCANNED)]; lia.
Qed.

Lemma unscanned_le_image_bytes p : (unscanned p <= image_bytes p)%nat.
Proof.
  unfold unscanned, image_bytes.
  induction (sections p) as [|s ss IH]; simpl; [done|].
  assert (unscanned_flags (instr_flags s) <= length (instr_flags s))%nat.
  { unfold unscanned_flags. induction (instr_flags s) as [|f fl IHf]; simpl;
      [done|]. unfold unscanned_weight at 1.
    destruct (has f INSTR_SCANNED); lia. }
  lia.
Qed.

End Growth.

(** ** Marking the bytes of one instruction *)

Section Marking.
Context {SH : Semblance_h} {XH : X86_instr_h} {HL : HeaderLaws}.

Lemma sec_frame_fields s s' :
  sec_frame s = sec_frame s' ->
  min_alloc s = min_alloc s' /\ address s = address s' /\
  sec_length s = sec_length s' /\ offset s = offset s' /\
  length (instr_flags s) = length (instr_flags s').
Proof. unfold sec_frame. intros [=]. auto. Qed.

Lemma mark_scanned_le n si i bound malloc p i' p' :
  mark_scanned n si i bound malloc p = Done (i', p') ->
  pe_le p p' /\ (unscanned p' <= unscanned p)%nat.
Proof.
  revert i p. induction n as [|n IH]; intros i p; simpl.
  - intros [= <- <-]. split; [apply pe_le_refl | done].
  - destruct ((i <? bound) && (i <? malloc)).
    + destruct (flags_or si i INSTR_SCANNED p) as [p1| |] eqn:Hor; [|done..].
      simpl. intros Hrest. apply IH in Hrest as [Hle Hu].
      split.
      * eapply pe_le_trans; [|exact Hle]. eapply flags_or_le; [|exact Hor]. auto.
      * apply flags_or_unscanned_le in Hor. lia.
    + intros [= <- <-]. split; [apply pe_le_refl | done].
Qed.

(** A byte the marking loop leaves is unchanged or [INSTR_SCANNED]. *)
Lemma mark_scanned_touched n si i bound malloc p i' p' :
  mark_scanned n si i bound malloc p = Done (i', p') ->
  forall sj j f', flag_at p' sj j = Some f' ->
    flag_at p sj j = Some f' \/ has f' INSTR_SCANNED = true.
Proof.
  revert i p. induction n as [|n IH]; intros i p; simpl.
  - intros [= <- <-]. auto.
  - destruct ((i <? bound) && (i <? malloc)).
    + destruct (flags_or si i INSTR_SCANNED p) as [p1| |] eqn:Hor; [|done..].
      simpl. intros Hrest sj j f' Hf'.
      destruct (IH _ _ Hrest sj j f' Hf') as [H1|]; [|by right].
      apply flags_or_Done in Hor as (f & _ & _ & _ & Hat).
      rewrite Hat in H1. case_decide; [|by left].
      injection H1 as <-. right. apply has_lor_self, scanned_bit.
    + intros [= <- <-]. auto.
Qed.

(** The byte the marking loop starts at is [INSTR_SCANNED] afterwards, and
    the count of unscanned bytes has dropped if it was not before. *)
Lemma mark_scanned_first n si i bound malloc p i' p' f :
  mark_scanned (S n) si i bound malloc p = Done (i', p') ->
  i < bound -> i < malloc -> flag_at p si (Z.to_nat i) = Some f ->
  (exists f', flag_at p' si (Z.to_nat i) = Some f' /\ flag_le f f' /\
     has f' INSTR_SCANNED = true) /\
  (has f INSTR_SCANNED = false -> (unscanned p' < unscanned p)%nat).
Proof.
  intros Hm Hb Ha Hf. simpl in Hm.
  rewrite (proj2 (Z.ltb_lt _ _) Hb), (proj2 (Z.ltb_lt _ _) Ha) in Hm.
  simpl in Hm.
  destruct (flags_or si i INSTR_SCANNED p) as [p1| |] eqn:Hor; [|done..].
  simpl in Hm. apply mark_scanned_le in Hm as [[_ Hle] Hu].
  pose proof (flags_or_unscanned _ _ _ _ _ _ Hor Hf) as Hw.
  pose proof Hor as (g & _ & Hg & _ & Hat)%flags_or_Done.
  replace g with f in * by congruence.
  specialize (Hat si (Z.to_nat i)). rewrite decide_True in Hat by done.
  destruct (Hle _ _ _ Hat) as (f' & Hf' & Hff').
  split.
  - exists f'. split; [done|]. split.
    + eapply flag_le_trans; [|exact Hff']. apply flag_le_lor. auto.
    + eapply flag_le_has; [exact Hff'|]. apply has_lor_self, scanned_bit.
  - intros Hns. unfold unscanned_weight in Hw.
    rewrite Hns, (has_lor_self f _ scanned_bit) in Hw. lia.
Qed.

(** Where the marking loop stops. *)
Lemma mark_scanned_index n si i bound malloc p i' p' :
  (Z.to_nat (bound - i) <= n)%nat ->
  mark_scanned n si i bound malloc p = Done (i', p') ->
  i' = if (i <? bound) && (i <? malloc) then Z.min bound malloc else i.
Proof.
  revert i p. induction n as [|n IH]; intros i p Hn; simpl.
  - intros [= <- <-]. destruct (Z.ltb_spec i bound); [lia | done].
  - destruct (Z.ltb_spec i bound) as [Hb|Hb];
      [destruct (Z.ltb_spec i malloc) as [Ha|Ha]|]; simpl;
      try (by intros [= <- <-]).
    destruct (flags_or si i INSTR_SCANNED p) as [p1| |]; [|done..]. simpl.
    intros Hrest. apply IH in Hrest; [|lia]. subst i'.
    destruct (Z.ltb_spec (i + 1) bound); [destruct (Z.ltb_spec (i + 1) malloc)|];
      simpl; lia.
Qed.

(** The marking loop stays inside a map of [malloc] bytes. *)
Lemma mark_scanned_total n si i bound malloc p s :
  sections p !! si = Some s -> length (instr_flags s) = Z.to_nat malloc ->
  0 <= i ->
  exists r, mark_scanned n si i bound malloc p = Done r.
Proof.
  revert i p s. induction n as [|n IH]; intros i p s Hs Hlen Hi; simpl;
    [eauto|].
  destruct (Z.ltb_spec i bound) as [Hb|Hb];
    [destruct (Z.ltb_spec i malloc) as [Ha|Ha]|]; simpl; eauto.
  assert (Hlt : (Z.to_nat i < length (instr_flags s))%nat) by lia.
  apply lookup_lt_is_Some in Hlt as [f Hf].
  destruct (flags_or_total si i INSTR_SCANNED p f Hi) as [p1 Hor].
  { unfold flag_at. by rewrite Hs. }
  rewrite Hor. simpl.
  apply flags_or_Done in Hor as (_ & _ & _ & Hfr & _).
  destruct (frame_lookup p p1 si s) as (s1 & Hs1 & Hfs); [done..|].
  apply sec_frame_fields in Hfs as (_ & _ & _ & _ & Hl).
  apply (IH _ _ s1); [done | lia | lia].
Qed.

(** The marking loop writes only offsets from [i] up to [malloc]. *)
Lemma mark_scanned_range n si i bound malloc p i' p' :
  0 <= i -> mark_scanned n si i bound malloc p = Done (i', p') ->
  forall sj j,
    (sj = si /\ i <= Z.of_nat j < malloc) \/ flag_at p' sj j = flag_at p sj j.
Proof.
  revert i p. induction n as [|n IH]; intros i p Hi; simpl.
  - intros [= <- <-]. auto.
  - destruct (Z.ltb_spec i bound) as [Hb|Hb];
      [destruct (Z.ltb_spec i malloc) as [Ha|Ha]|]; simpl;
      try (intros [= <- <-]; auto).
    destruct (flags_or si i INSTR_SCANNED p) as [p1| |] eqn:Hor; [|done..].
    simpl. intros Hrest sj j.
    destruct (IH (i + 1) p1 ltac:(lia) Hrest sj j) as [[-> Hj]|Heq];
      [left; split; [done | lia]|].
    apply flags_or_Done in Hor as (f & _ & _ & _ & Hat).
    rewrite Heq, Hat. case_decide as Hd; [|by right].
    destruct Hd as [-> ->]. left. split; [done | lia].
Qed.

Lemma mark_instr_le si relip len malloc p i p' :
  mark_instr si relip len malloc p = Done (i, p') ->
  pe_le p p' /\ (unscanned p' <= unscanned p)%nat.
Proof.
  unfold mark_instr.
  destruct (flags_or si relip INSTR_VALID p) as [p1| |] eqn:Hor; [|done..].
  simpl. intros [Hle Hu]%mark_scanned_le. split.
  - eapply pe_le_trans; [|exact Hle]. eapply flags_or_le; [|exact Hor]. auto.
  - apply flags_or_unscanned_le in Hor. lia.
Qed.

(** The effect of "mark the bytes" on a byte inside the map, for an
    instruction of at least one byte that does not wrap around. *)
Lemma mark_instr_spec si relip len malloc p i p' f :
  mark_instr si relip len malloc p = Done (i, p') ->
  flag_at p si (Z.to_nat relip) = Some f ->
  0 <= relip < malloc -> 1 <= len -> relip + len < 2 ^ 32 ->
  i = Z.min (relip + len) malloc /\
  (exists f', flag_at p' si (Z.to_nat relip) = Some f' /\
     has f' INSTR_VALID = true /\ has f' INSTR_SCANNED = true) /\
  (has f INSTR_SCANNED = false -> (unscanned p' < unscanned p)%nat) /\
  (valid_scanned_inv p -> valid_scanned_inv p').
Proof.
  unfold mark_instr. intros Hm Hf Hr Hlen Hwrap.
  destruct (flags_or si relip INSTR_VALID p) as [p1| |] eqn:Hor; [|done..].
  simpl in Hm.
  assert (Hu : u32 (relip + len) = relip + len).
  { unfold u32. apply Z.mod_small. lia. }
  rewrite Hu in Hm.
  pose proof Hor as (g & _ & Hg & _ & Hat)%flags_or_Done.
  replace g with f in * by congruence.
  pose proof (Hat si (Z.to_nat relip)) as Hat1.
  rewrite decide_True in Hat1 by done.
  pose proof (mark_scanned_index _ _ _ _ _ _ _ _ (Nat.le_refl _) Hm) as Hi.
  rewrite (proj2 (Z.ltb_lt relip (relip + len))),
    (proj2 (Z.ltb_lt relip malloc)) in Hi by lia. simpl in Hi.
  destruct (Z.to_nat (relip + len - relip)) as [|n] eqn:Hn; [lia|].
  destruct (mark_scanned_first _ _ _ _ _ _ _ _ _ Hm ltac:(lia) ltac:(lia) Hat1)
    as [(f' & Hf' & Hle' & Hs') Hdrop].
  split; [done|]. split; [|split].
  - exists f'. split; [done|]. split; [|done].
    eapply flag_le_has; [exact Hle'|]. apply has_lor_self, valid_bit.
  - intros Hns.
    assert (Hns1 : has (Z.lor f INSTR_VALID) INSTR_SCANNED = false).
    { rewrite has_lor_other; [done | apply scanned_bit | apply valid_bit |].
      apply valid_scanned. }
    specialize (Hdrop Hns1). apply flags_or_unscanned_le in Hor. lia.
  - intros Hinv sj j h Hh.
    destruct (mark_scanned_touched _ _ _ _ _ _ _ _ Hm sj j h Hh) as [H1|H1];
      [|by intros _].
    rewrite Hat in H1. case_decide as Hd.
    + destruct Hd as [-> ->]. intros _. congruence.
    + by apply (Hinv sj j).
Qed.

(** "mark the bytes" stays inside a map of [malloc] bytes when it starts
    inside. *)
Lemma mark_instr_total si relip len malloc p s :
  sections p !! si = Some s -> length (instr_flags s) = Z.to_nat malloc ->
  0 <= relip < malloc ->
  exists i p', mark_instr si relip len malloc p = Done (i, p').
Proof.
  intros Hs Hlen Hr. unfold mark_instr.
  assert (Hlt : (Z.to_nat relip < length (instr_flags s))%nat) by lia.
  apply lookup_lt_is_Some in Hlt as [f Hf].
  destruct (flags_or_total si relip INSTR_VALID p f) as [p1 Hor]; [lia| |].
  { unfold flag_at. by rewrite Hs. }
  rewrite Hor. simpl.
  apply flags_or_Done in Hor as (_ & _ & _ & Hfr & _).
  destruct (frame_lookup p p1 si s) as (s1 & Hs1 & Hfs); [done..|].
  apply sec_frame_fields in Hfs as (_ & _ & _ & _ & Hl).
  destruct (mark_scanned_total
    (Z.to_nat (u32 (relip + len) - relip)) si relip (u32 (relip + len))
    malloc p1 s1) as [[i p'] Hm]; [done | lia | lia |].
  eauto.
Qed.

End Marking.

(** ** One iteration of the scanner, case by case *)

Section ScanCases.
Context {SH : Semblance_h} {XH : X86_instr_h}.

Lemma read_window_frame sec relip w buffer wr :
  read_window sec relip w = (buffer, wr) ->
  w_pe wr = w_pe w /\ w_stderr wr = w_stderr w /\ w_stdout wr = w_stdout w /\
  w_ticks wr = w_ticks w /\ w_file wr = w_file w /\ w_opts wr = w_opts w.
Proof. unfold read_window, fread_buffer. by intros [= _ <-]. Qed.

Lemma scan_loop_cases n si ip relip w w' :
  scan_loop (S n) si ip relip w = Done w' -> loop_case n si ip relip w w'.
Proof.
  cbn [scan_loop]. destruct (sections (w_pe w) !! si) as [sec|] eqn:Hsec; [|done].
  destruct (Z.ltb_spec relip (sec_length sec)) as [Hlt|Hge].
  2: { intros [= <-]. by eapply case_end. }
  change (w_pe (tick w)) with (w_pe w).
  destruct (flags_get si relip (w_pe w)) as [f| |] eqn:Hf; [|done..].
  cbn [bind].
  destruct (has f INSTR_SCANNED) eqn:Hs.
  { intros [= <-]. by eapply case_seen. }
  destruct (read_window sec relip (tick w)) as [buffer wr] eqn:Hrw.
  destruct (get_instr ip buffer 1) as [ins len] eqn:Hgi.
  pose proof (read_window_frame _ _ _ _ _ Hrw) as (Hpe & _).
  rewrite Hpe. change (w_pe (tick w)) with (w_pe w).
  destruct (mark_instr si relip len (min_alloc sec) (w_pe w))
    as [[i p]| |] eqn:Hm; [|done..]. cbn [bind].
  intros Hrest. eapply case_decoded; try done.
  destruct ((i <? u32 (ip + len)) && (i =? min_alloc sec)) eqn:Hbr.
  { injection Hrest as <-. by apply case_hang. }
  destruct (scan_branch (scan_enter (scan_loop n)) ip ins (set_pe wr p))
    as [w3| |] eqn:Hb; [|done..]. cbn [bind] in Hrest.
  destruct (has (op_flags (instr_op ins)) OP_STOP) eqn:Hstop.
  - injection Hrest as <-. by apply case_stop.
  - by eapply case_next.
Qed.

Lemma scan_branch_cases scan ip ins w w' :
  scan_branch scan ip ins w = Done w' ->
  (has (op_flags (instr_op ins)) OP_BRANCH = false /\ w' = w) \/
  (has (op_flags (instr_op ins)) OP_BRANCH = true /\
   addr2section (arg0 ins) (w_pe w) = None /\
   w' = warn_at ip (BranchNotInImage (op_name (instr_op ins)) (arg0 ins)) w) \/
  (has (op_flags (instr_op ins)) OP_BRANCH = true /\
   exists ti tsec m p,
     addr2section (arg0 ins) (w_pe w) = Some ti /\
     sections (w_pe w) !! ti = Some tsec /\
     m = (if String.eqb (op_name (instr_op ins)) "call"
          then INSTR_FUNC else INSTR_JUMP) /\
     flags_or ti (u32 (arg0 ins - address tsec)) m (w_pe w) = Done p /\
     scan (arg0 ins) (set_pe w p) = Done w').
Proof.
  unfold scan_branch. destruct (has (op_flags (instr_op ins)) OP_BRANCH).
  2: { intros [= <-]. by left. }
  destruct (addr2section (arg0 ins) (w_pe w)) as [ti|] eqn:Ha.
  2: { intros [= <-]. right. by left. }
  destruct (sections (w_pe w) !! ti) as [tsec|] eqn:Ht; [|done].
  destruct (flags_or ti _ _ (w_pe w)) as [p| |] eqn:Hor; [|done..]. simpl.
  intros Hs. right. right. split; [done|]. by eexists ti, tsec, _, p.
Qed.

Lemma scan_enter_cases loop ip w w' :
  scan_enter loop ip w = Done w' ->
  (addr2section ip (w_pe w) = None /\ w' = warn_at ip NotInImage w) \/
  (exists si sec f,
     addr2section ip (w_pe w) = Some si /\
     sections (w_pe w) !! si = Some sec /\
     flags_get si (u32 (ip - address sec)) (w_pe w) = Done f /\
     loop si ip (u32 (ip - address sec))
       (if Z.land f (Z.lor INSTR_VALID INSTR_SCANNED) =? INSTR_SCANNED
        then warn_at ip NotInstrStart w else w) = Done w').
Proof.
  unfold scan_enter. destruct (addr2section ip (w_pe w)) as [si|] eqn:Ha.
  2: { intros [= <-]. by left. }
  destruct (sections (w_pe w) !! si) as [sec|] eqn:Hs; [|done].
  destruct (flags_get si _ (w_pe w)) as [f| |] eqn:Hf; [|done..]. simpl.
  intros Hl. right. by exists si, sec, f.
Qed.

(** A preorder on images that holds across "mark the bytes" and across the
    marking of a branch target holds across a whole scan. *)
Section Relation.
Variable R : pe -> pe -> Prop.
Context {R_pre : PreOrder R}.
Hypothesis R_mark : forall si sec ip buffer ins relip len f p i p',
  sections p !! si = Some sec -> flags_get si relip p = Done f ->
  get_instr ip buffer 1 = (ins, len) ->
  mark_instr si relip len (min_alloc sec) p = Done (i, p') -> R p p'.
Hypothesis R_target : forall ti trelip m p p',
  m = INSTR_FUNC \/ m = INSTR_JUMP ->
  flags_or ti trelip m p = Done p' -> R p p'.

Lemma scan_enter_rel (loop : nat -> Z -> Z -> world -> result world) :
  (forall si ip relip w w',
     loop si ip relip w = Done w' -> R (w_pe w) (w_pe w')) ->
  forall ip w w', scan_enter loop ip w = Done w' -> R (w_pe w) (w_pe w').
Proof.
  intros Hloop ip w w' [[_ ->]|(si & sec & f & _ & _ & _ & Hl)]%scan_enter_cases.
  - reflexivity.
  - apply Hloop in Hl. by destruct (_ =? _).
Qed.

Lemma scan_branch_rel scan ip ins w w' :
  (forall ip w w', scan ip w = Done w' -> R (w_pe w) (w_pe w')) ->
  scan_branch scan ip ins w = Done w' -> R (w_pe w) (w_pe w').
Proof.
  intros Hscan Hc%scan_branch_cases.
  destruct Hc as [[_ ->]|[(_ & _ & ->)|(_ & ti & tsec & m & p & _ & _ & Hm & Hor & Hs)]].
  - reflexivity.
  - reflexivity.
  - apply Hscan in Hs. simpl in Hs. etrans; [|exact Hs].
    eapply R_target; [|exact Hor]. rewrite Hm. destruct (String.eqb _ _); auto.
Qed.

Lemma scan_loop_rel n si ip relip w w' :
  scan_loop n si ip relip w = Done w' -> R (w_pe w) (w_pe w').
Proof.
  revert si ip relip w w'. induction n as [|n IH]; intros si ip relip w w';
    [done|].
  intros Hc%scan_loop_cases.
  assert (Hscan : forall ip w w',
    scan_enter (scan_loop n) ip w = Done w' -> R (w_pe w) (w_pe w'))
    by (apply scan_enter_rel; exact IH).
  destruct Hc as [sec _ _ ->|sec f _ _ _ _ ->
                 |sec f buffer wr ins len i p Hsec _ Hf _ Hrw Hgi Hm Hafter].
  - reflexivity.
  - reflexivity.
  - apply read_window_frame in Hrw as (Hpe & _).
    assert (Hmark : R (w_pe w) p) by (eapply R_mark; eauto).
    etrans; [exact Hmark|].
    destruct Hafter as [_ ->|_ Hb _|w3 _ Hb _ Hl].
    + reflexivity.
    + by apply scan_branch_rel in Hb.
    + apply scan_branch_rel in Hb; [|done]. apply IH in Hl.
      simpl in Hb. by etrans.
Qed.

Lemma scan_segment_rel fuel ip w w' :
  scan_segment fuel ip w = Done w' -> R (w_pe w) (w_pe w').
Proof. apply scan_enter_rel. intros *. apply scan_loop_rel. Qed.

End Relation.
End ScanCases.

(** ** What a scan preserves *)

Section ScanFacts.
Context {SH : Semblance_h} {XH : X86_instr_h}.

#[global] Instance pe_le_pre : PreOrder pe_le.
Proof. split; [exact pe_le_refl | exact pe_le_trans]. Qed.

Lemma scan_segment_le fuel ip w w' :
  scan_segment fuel ip w = Done w' -> pe_le (w_pe w) (w_pe w').
Proof.
  apply (scan_segment_rel pe_le).
  - intros * _ _ _ Hm. by apply mark_instr_le in Hm as [? _].
  - intros * Hm Hor. eapply flags_or_le; [|exact Hor]. tauto.
Qed.

Lemma scan_loop_le n si ip relip w w' :
  scan_loop n si ip relip w = Done w' -> pe_le (w_pe w) (w_pe w').
Proof.
  apply (scan_loop_rel pe_le).
  - intros * _ _ _ Hm. by apply mark_instr_le in Hm as [? _].
  - intros * Hm Hor. eapply flags_or_le; [|exact Hor]. tauto.
Qed.

#[global] Instance unscanned_ge_pre : PreOrder unscanned_ge.
Proof. split; unfold unscanned_ge; [intros ?|intros ???]; lia. Qed.

Lemma scan_loop_unscanned n si ip relip w w' :
  scan_loop n si ip relip w = Done w' ->
  (unscanned (w_pe w') <= unscanned (w_pe w))%nat.
Proof.
  apply (scan_loop_rel unscanned_ge).
  - intros * _ _ _ Hm. by apply mark_instr_le in Hm as [_ ?].
  - intros * _ Hor. by apply flags_or_unscanned_le in Hor.
Qed.

Lemma wf_pe_lookup p si s :
  wf_pe p -> sections p !! si = Some s -> wf_frame (sec_frame s).
Proof.
  intros Hwf Hs. unfold wf_pe in Hwf. rewrite Forall_lookup in Hwf.
  apply (Hwf si). by rewrite list_lookup_fmap, Hs.
Qed.

Lemma wf_pe_frame p p' : pe_frame p = pe_frame p' -> wf_pe p -> wf_pe p'.
Proof. intros Hfr%frame_sections. unfold wf_pe. by rewrite Hfr. Qed.

Lemma wf_frame_fields s :
  wf_frame (sec_frame s) ->
  length (instr_flags s) = Z.to_nat (min_alloc s) /\ 0 <= min_alloc s /\
  0 <= address s /\ address s + min_alloc s + MAX_INSTR <= 2 ^ 31 /\
  (0 < address s \/ sec_length s <= min_alloc s).
Proof. done. Qed.

Lemma scans_le w w' : scans w w' -> pe_le (w_pe w) (w_pe w').
Proof.
  induction 1 as [w|w fuel ip w1 w2 Hs _ IH]; [apply pe_le_refl|].
  apply scan_segment_le in Hs. by eapply pe_le_trans.
Qed.

End ScanFacts.

Section Invariant.
Context {SH : Semblance_h} {XH : X86_instr_h} {HL : HeaderLaws}.

#[global] Instance keeps_inv_pre : PreOrder keeps_inv.
Proof.
  split.
  - intros p. by split.
  - intros p q r [F1 H1] [F2 H2]. split; [congruence|].
    intros Hwf Hi. apply H2; [by eapply wf_pe_frame | by apply H1].
Qed.




End Invariant.

(** ** Termination of the scanner *)

Section Termination.
Context {SH : Semblance_h} {XH : X86_instr_h} {HL : HeaderLaws}.

Lemma u32_small x : 0 <= x < 2 ^ 32 -> u32 x = x.
Proof. apply Z.mod_small. Qed.

(** On a well-formed image [addr2section] yields a section that holds the
    address, and the relative offset is exact. *)
Lemma addr2section_wf p addr si :
  wf_pe p -> addr2section addr p = Some si ->
  exists sec, sections p !! si = Some sec /\
    address sec <= addr < address sec + min_alloc sec /\
    u32 (addr - address sec) = addr - address sec.
Proof.
  intros Hwf Ha. apply addr2section_from_Some in Ha as (sec & _ & Hs & Hin & _).
  rewrite Nat.sub_0_r in Hs. exists sec. split; [done|].
  pose proof (wf_pe_lookup _ _ _ Hwf Hs) as
    (_ & Hma & Had & Hfit & _)%wf_frame_fields.
  pose proof max_instr_pos.
  rewrite u32_small in Hin by lia. split; [done|]. apply u32_small. lia.
Qed.

Lemma scan_enter_total n loop :
  loop_total n loop -> scan_total n (scan_enter loop).
Proof.
  intros Hloop ip w Hwf Hn. unfold scan_enter.
  destruct (addr2section ip (w_pe w)) as [si|] eqn:Ha.
  2: { eexists. split; [done|]. unfold within_budget. simpl. lia. }
  destruct (addr2section_wf _ _ _ Hwf Ha) as (sec & Hs & Hin & Hu).
  rewrite Hs, Hu.
  pose proof (wf_pe_lookup _ _ _ Hwf Hs) as
    (Hlen & Hma & Had & Hfit & _)%wf_frame_fields.
  assert (Hlt : (Z.to_nat (ip - address sec) < length (instr_flags sec))%nat)
    by lia.
  apply lookup_lt_is_Some in Hlt as [f Hf].
  assert (Hg : flags_get si (ip - address sec) (w_pe w) = Done f).
  { apply flags_get_Done. split; [lia|]. unfold flag_at. by rewrite Hs. }
  rewrite Hg. cbn [bind].
  destruct (Hloop si ip (ip - address sec)
    (if Z.land f (Z.lor INSTR_VALID INSTR_SCANNED) =? INSTR_SCANNED
     then warn_at ip NotInstrStart w else w) sec) as (w' & Hw' & Hb);
    try (by destruct (_ =? _)); try lia.
  exists w'. split; [done|]. by destruct (_ =? _).
Qed.

Lemma scan_branch_total n scan ip ins w :
  scan_total n scan -> wf_pe (w_pe w) -> (unscanned (w_pe w) < n)%nat ->
  exists w', scan_branch scan ip ins w = Done w' /\ within_budget w w'.
Proof.
  intros Hscan Hwf Hn. unfold scan_branch.
  destruct (has (op_flags (instr_op ins)) OP_BRANCH).
  2: { eexists. split; [done|]. unfold within_budget. lia. }
  destruct (addr2section (arg0 ins) (w_pe w)) as [ti|] eqn:Ha.
  2: { eexists. split; [done|]. unfold within_budget. simpl. lia. }
  destruct (addr2section_wf _ _ _ Hwf Ha) as (tsec & Hs & Hin & Hu).
  rewrite Hs, Hu.
  pose proof (wf_pe_lookup _ _ _ Hwf Hs) as
    (Hlen & Hma & Had & Hfit & _)%wf_frame_fields.
  assert (Hlt : (Z.to_nat (arg0 ins - address tsec)
                 < length (instr_flags tsec))%nat) by lia.
  apply lookup_lt_is_Some in Hlt as [f Hf].
  destruct (flags_or_total ti (arg0 ins - address tsec)
    (if String.eqb (op_name (instr_op ins)) "call"
     then INSTR_FUNC else INSTR_JUMP) (w_pe w) f) as [p Hor]; [lia| |].
  { unfold flag_at. by rewrite Hs. }
  rewrite Hor. cbn [bind].
  pose proof (flags_or_unscanned_le _ _ _ _ _ Hor) as Hle.
  apply flags_or_Done in Hor as (_ & _ & _ & Hfr & _).
  destruct (Hscan (arg0 ins) (set_pe w p)) as (w' & Hw' & Hb).
  { simpl. eapply wf_pe_frame; [symmetry; exact Hfr | done]. }
  { simpl. lia. }
  exists w'. split; [done|]. unfold within_budget in *. simpl in Hb. lia.
Qed.

Lemma scan_branch_le scan ip ins w w' :
  (forall ip w w', scan ip w = Done w' -> pe_le (w_pe w) (w_pe w')) ->
  scan_branch scan ip ins w = Done w' -> pe_le (w_pe w) (w_pe w').
Proof.
  apply (scan_branch_rel pe_le (R_pre := pe_le_pre)).
  intros * Hm Hor. eapply flags_or_le; [|exact Hor]. tauto.
Qed.

Lemma scan_branch_unscanned scan ip ins w w' :
  (forall ip w w', scan ip w = Done w' ->
     (unscanned (w_pe w') <= unscanned (w_pe w))%nat) ->
  scan_branch scan ip ins w = Done w' ->
  (unscanned (w_pe w') <= unscanned (w_pe w))%nat.
Proof.
  apply (scan_branch_rel unscanned_ge (R_pre := unscanned_ge_pre)).
  intros * _ Hor. by apply flags_or_unscanned_le in Hor.
Qed.

Lemma scan_loop_total n : loop_total n (scan_loop n).
Proof.
  induction n as [|n IH]; intros si ip relip w sec Hwf Hsec Hr Hin Hip Hn;
    [lia|].
  pose proof (wf_pe_lookup _ _ _ Hwf Hsec) as
    (Hlen & Hma & Had & Hfit & Hzero)%wf_frame_fields.
  cbn [scan_loop]. rewrite Hsec.
  destruct (Z.ltb_spec relip (sec_length sec)) as [Hlt|Hge].
  2: { eexists. split; [done|]. unfold within_budget. simpl. lia. }
  specialize (Hin Hlt). change (w_pe (tick w)) with (w_pe w).
  assert (Hb : (Z.to_nat relip < length (instr_flags sec))%nat) by lia.
  apply lookup_lt_is_Some in Hb as [f Hf].
  assert (Hfa : flag_at (w_pe w) si (Z.to_nat relip) = Some f).
  { unfold flag_at. by rewrite Hsec. }
  assert (Hg : flags_get si relip (w_pe w) = Done f)
    by (by apply flags_get_Done).
  rewrite Hg. cbn [bind]. destruct (has f INSTR_SCANNED) eqn:Hs.
  { eexists. split; [done|]. unfold within_budget. simpl. lia. }
  destruct (read_window sec relip (tick w)) as [buffer wr] eqn:Hrw.
  destruct (get_instr ip buffer 1) as [ins len] eqn:Hgi.
  pose proof (get_instr_length ip buffer 1) as Hl. rewrite Hgi in Hl.
  simpl in Hl.
  apply read_window_frame in Hrw as (Hpe & _ & _ & Htk & _).
  rewrite Hpe. change (w_pe (tick w)) with (w_pe w).
  destruct (mark_instr_total si relip len (min_alloc sec) (w_pe w) sec)
    as (i & p & Hm); [done | done | lia |].
  rewrite Hm. cbn [bind].
  pose proof (mark_instr_spec _ _ _ _ _ _ _ _ Hm Hfa ltac:(lia) ltac:(lia)
    ltac:(lia)) as (Hi & _ & Hdrop & _).
  specialize (Hdrop Hs).
  pose proof (mark_instr_le _ _ _ _ _ _ _ Hm) as [[Hfr _] _].
  assert (Hwf2 : wf_pe p) by (by eapply wf_pe_frame).
  change (w_ticks (tick w)) with (S (w_ticks w)) in Htk.
  destruct ((i <? u32 (ip + len)) && (i =? min_alloc sec)) eqn:Hbr.
  { eexists. split; [done|]. unfold within_budget. simpl. lia. }
  destruct (scan_branch_total n (scan_enter (scan_loop n)) ip ins (set_pe wr p))
    as (w3 & Hw3 & Hb3); [by apply scan_enter_total | done | simpl; lia |].
  rewrite Hw3. cbn [bind].
  unfold within_budget in Hb3. simpl in Hb3.
  destruct (has (op_flags (instr_op ins)) OP_STOP).
  { exists w3. split; [done|]. unfold within_budget. lia. }
  pose proof (scan_branch_le _ _ _ _ _
    (fun ip w w' => scan_segment_le n ip w w') Hw3) as [Hfr3 _].
  pose proof (scan_branch_unscanned _ _ _ _ _
    (scan_enter_rel unscanned_ge (scan_loop n) (scan_loop_unscanned n)) Hw3)
    as Hu3.
  simpl in Hfr3, Hu3.
  destruct (frame_lookup (w_pe w) (w_pe w3) si sec) as (sec3 & Hsec3 & Hf3);
    [congruence | done |].
  apply sec_frame_fields in Hf3 as (Hm3 & Ha3 & Hl3 & _).
  rewrite (u32_small (ip + len)) in * by lia.
  rewrite (u32_small (ip + len - address sec)) by lia.
  destruct (IH si (ip + len) (ip + len - address sec) w3 sec3)
    as (w' & Hw' & Hb'); try lia.
  - eapply wf_pe_frame; [|exact Hwf2]. congruence.
  - done.
  - exists w'. split; [done|]. unfold within_budget in *. lia.
Qed.

Lemma scan_segment_total fuel : scan_total fuel (scan_segment fuel).
Proof. apply scan_enter_total, scan_loop_total. Qed.

End Termination.

(** ** AddressResolver and SymbolResolver *)

Lemma addr2section_from_first i ss addr k s :
  ss !! k = Some s -> in_range addr s ->
  (forall j t, (j < k)%nat -> ss !! j = Some t -> ~ in_range addr t) ->
  addr2section_from i ss addr = Some (i + k)%nat.
Proof.
  unfold in_range. revert i k. induction ss as [|a ss IH]; intros i k Hk Hin Hfirst;
    [done|]. simpl. destruct k as [|k]; simpl in Hk.
  - injection Hk as ->.
    rewrite (proj2 (Z.leb_le _ _)), (proj2 (Z.ltb_lt _ _)) by lia. simpl.
    f_equal. lia.
  - assert (Ha : ~ (address a <= addr < u32 (address a + min_alloc a)))
      by (apply (Hfirst 0%nat a); [lia | done]).
    destruct (Z.leb_spec (address a) addr);
      [destruct (Z.ltb_spec addr (u32 (address a + min_alloc a)))|]; simpl;
      try lia.
    all: rewrite (IH (S i) k Hk Hin); [f_equal; lia|];
      intros j t Hj Ht; apply (Hfirst (S j) t); [lia | done].
Qed.

(** C4 (amended). The range of a section is the one the code tests,
    [address <= addr < (address + min_alloc) mod 2^32]. For an address in
    the range of some section, [addr2offset] returns
    [offset + (addr - address)] of the first such section, computed in
    32-bit arithmetic (hence exactly that sum whenever the sum fits a
    [dword]); for an address in no range it returns 0, the very value it
    returns for an address that is mapped to file offset zero. For a
    section with [dword] fields the range is the plain one,
    [address <= addr < address + min_alloc], when [address + min_alloc] is
    below 2^32, and holds no address at all when it is not. *)
Theorem addr2offset_first_section_or_zero (p : pe) (addr : Z) :
  (forall k s, sections p !! k = Some s -> in_range addr s ->
     (forall j t, (j < k)%nat -> sections p !! j = Some t -> ~ in_range addr t) ->
     addr2section addr p = Some k /\
     addr2offset addr p = u32 (u32 (addr - address s) + offset s) /\
     (0 <= offset s -> offset s + (addr - address s) < 2 ^ 32 ->
      addr2offset addr p = offset s + (addr - address s))) /\
  ((forall k s, sections p !! k = Some s -> ~ in_range addr s) ->
   addr2section addr p = None /\ addr2offset addr p = 0) /\
  (forall s, 0 <= address s < 2 ^ 32 -> 0 <= min_alloc s < 2 ^ 32 ->
     (in_range addr s <->
      address s <= addr < address s + min_alloc s /\
      address s + min_alloc s < 2 ^ 32)).
Proof.
  split; [|split].
  - intros k s Hk Hin Hfirst.
    assert (Ha : addr2section addr p = Some k)
      by (apply (addr2section_from_first 0 _ _ k s); done).
    unfold addr2offset. rewrite Ha, Hk. repeat split.
    intros Ho Hfit. unfold in_range in Hin.
    assert (Hd : u32 (addr - address s) = addr - address s)
      by (apply Z.mod_small; lia).
    rewrite Hd, Z.add_comm. apply Z.mod_small. lia.
  - intros Hnone.
    assert (Ha : addr2section addr p = None).
    { destruct (addr2section addr p) as [si|] eqn:Ha; [|done].
      apply addr2section_from_Some in Ha as (s & _ & Hs & Hin & _).
      rewrite Nat.sub_0_r in Hs. by destruct (Hnone si s). }
    unfold addr2offset. by rewrite Ha.
  - intros s Had Hma. unfold in_range, u32.
    destruct (Z.lt_ge_cases (address s + min_alloc s) (2 ^ 32)) as [Hlt|Hge].
    + rewrite Z.mod_small by lia. tauto.
    + assert ((address s + min_alloc s) mod 2 ^ 32
              = address s + min_alloc s - 2 ^ 32)
        by (symmetry; apply (Z.mod_unique _ _ 1); lia).
      lia.
Qed.

(** Instance of C4 (amended) on a one-section image. *)
Lemma addr2offset_first_section_or_zero_witness :
  addr2offset 4100 (Demo.one_section 4096 64 64 512 [] 4096) = 512 + 4.
Proof.
  pose proof (proj1 (addr2offset_first_section_or_zero
    (Demo.one_section 4096 64 64 512 [] 4096) 4100) 0%nat
    (mk_section ".text" 64 4096 64 512 32 (replicate (Z.to_nat 64) 0))
    eq_refl) as H.
  destruct H as (_ & _ & H).
  - unfold in_range. simpl. vm_compute. split; [discriminate | reflexivity].
  - intros j t Hj. lia.
  - apply H; simpl; lia.
Defined.

(** C4 as stated fails: in an image whose section lies at file offset zero,
    the unmapped address 0x5000 and the mapped address 0x1000 both yield 0. *)
Lemma addr2offset_not_mapped_aliases_offset_zero :
  let p := Demo.one_section 4096 64 64 0 [] 4096 in
  addr2section 20480 p = None /\ addr2section 4096 p = Some 0%nat /\
  addr2offset 20480 p = 0 /\ addr2offset 4096 p = 0.
Proof. vm_compute. repeat split. Qed.

(** A section at 0xfffffff0 with [min_alloc] 0x20 and file offset 0x200:
    the bound of its range wraps to 0x10, so the address 0xfffffff8 is in
    no range and yields 0. *)
Example addr2offset_wrapping_section :
  let p := Demo.one_section 4294967280 32 32 512 [] 4096 in
  addr2section 4294967288 p = None /\ addr2offset 4294967288 p = 0.
Proof. vm_compute. by split. Qed.

Lemma get_imported_name_in_first ms offset0 k m :
  ms !! k = Some m -> import_index offset0 m < count m ->
  (forall j t, (j < k)%nat -> ms !! j = Some t ->
     ~ import_index offset0 t < count t) ->
  get_imported_name_in ms offset0 = nametab m !! Z.to_nat (import_index offset0 m).
Proof.
  revert k. induction ms as [|a ms IH]; intros k Hk Hin Hfirst; [done|].
  simpl. destruct k as [|k]; simpl in Hk.
  - injection Hk as ->. by rewrite (proj2 (Z.ltb_lt _ _)) by lia.
  - assert (Ha : ~ import_index offset0 a < count a)
      by (apply (Hfirst 0%nat a); [lia | done]).
    destruct (Z.ltb_spec (import_index offset0 a) (count a)); [lia|].
    apply (IH k); [done..|].
    intros j t Hj Ht. apply (Hfirst (S j) t); [lia | done].
Qed.

Lemma get_imported_name_in_none ms offset0 :
  (forall k m, ms !! k = Some m -> ~ import_index offset0 m < count m) ->
  get_imported_name_in ms offset0 = None.
Proof.
  induction ms as [|a ms IH]; intros Hnone; [done|]. simpl.
  destruct (Z.ltb_spec (import_index offset0 a) (count a)) as [Hlt|_].
  - by destruct (Hnone 0%nat a).
  - apply IH. intros k m Hk. by apply (Hnone (S k) m).
Qed.

(** C5 (amended). [get_imported_name] subtracts the image base from the
    address and, for the first import module for which the index
    [(address - image base - nametab_addr) / sizeof(dword)], the
    subtractions wrapping at 32 bits and the division rounding down, is
    below [count], returns the name at that index; no remainder is checked.
    With no such module the result is none. *)
Theorem get_imported_name_first_in_range (p : pe) (addr : Z) :
  let offset0 := u32 (addr - ImageBase p) in
  (forall m, import_index offset0 m = u32 (offset0 - nametab_addr m) / 4) /\
  (forall k m, imports p !! k = Some m -> import_index offset0 m < count m ->
     (forall j t, (j < k)%nat -> imports p !! j = Some t ->
        ~ import_index offset0 t < count t) ->
     get_imported_name addr p
     = nametab m !! Z.to_nat (import_index offset0 m)) /\
  ((forall k m, imports p !! k = Some m ->
      ~ import_index offset0 m < count m) ->
   get_imported_name addr p = None).
Proof.
  intros offset0. split; [|split].
  - intros m. unfold import_index, sizeof_dword. apply Z.mod_small.
    assert (0 <= u32 (offset0 - nametab_addr m) < 2 ^ 32)
      by (apply Z.mod_pos_bound; lia).
    split; [apply Z.div_pos; lia|].
    apply Z.div_lt_upper_bound; lia.
  - intros k m Hk Hin Hfirst. by apply (get_imported_name_in_first _ _ k).
  - apply get_imported_name_in_none.
Qed.

(** Instance of C5 (amended): the second slot of the table. *)
Lemma get_imported_name_first_in_range_witness :
  get_imported_name 4202500 Demo.two_imports = Some "ExitProcess".
Proof.
  pose proof (proj1 (proj2 (get_imported_name_first_in_range Demo.two_imports
    4202500)) 0%nat (mk_import_module 8192 ["CreateFileA"; "ExitProcess"] 2)
    eq_refl) as H.
  rewrite H; [reflexivity | vm_compute; reflexivity |].
  intros j t Hj. lia.
Defined.

(** C5 as stated fails: an address one byte past the start of the first
    slot, which the address width does not divide evenly, still yields the
    name of that slot. *)
Lemma get_imported_name_ignores_remainder :
  get_imported_name 4202497 Demo.two_imports = Some "CreateFileA" /\
  (4202497 - ImageBase Demo.two_imports - 8192) mod sizeof_dword = 1.
Proof. vm_compute. split; reflexivity. Qed.

(** ** The decoder of the concrete runs obeys the laws *)

Lemma demo_decode_length ip p is32 :
  1 <= snd (Demo.decode ip p is32) <= 16.
Proof.
  unfold Demo.decode. repeat case_match; simpl; lia.
Qed.

#[global] Instance demo_laws :
  @HeaderLaws Demo.semblance_h Demo.x86_instr_h.
Proof.
  split; try done.
  - by exists 0.
  - by exists 1.
  - by exists 2.
  - by exists 3.
  - apply demo_decode_length.
Qed.

Lemma demo_one_section_wf addr len malloc off es entry :
  0 <= malloc -> 0 <= addr -> addr + malloc + 16 <= 2 ^ 31 ->
  0 < addr \/ len <= malloc ->
  @wf_pe Demo.semblance_h (Demo.one_section addr len malloc off es entry).
Proof.
  intros. unfold wf_pe. simpl. constructor; [|constructor].
  simpl. rewrite length_replicate. done.
Qed.

Lemma demo_one_section_empty addr len malloc off es entry :
  empty_maps (Demo.one_section addr len malloc off es entry).
Proof.
  intros [|si] j f; unfold flag_at; simpl; [|done].
  by intros [-> _]%lookup_replicate.
Qed.

(** ** The renderer leaves the image alone *)

Section RendererFrame.
Context {SH : Semblance_h} {XH : X86_instr_h}.

Lemma rendered_refl w : rendered w w.
Proof. repeat split. exists []. by rewrite app_nil_r. Qed.

Lemma rendered_trans w1 w2 w3 :
  rendered w1 w2 -> rendered w2 w3 -> rendered w1 w3.
Proof.
  intros (Ha & Hb & Hc & Hd & l1 & E1) (Ha' & Hb' & Hc' & Hd' & l2 & E2).
  repeat split; try congruence. exists (l1 ++ l2).
  by rewrite E2, E1, app_assoc.
Qed.

Lemma rendered_fpos w pos : rendered w (set_fpos w pos).
Proof. repeat split. exists []. simpl. by rewrite app_nil_r. Qed.

Lemma rendered_printf w ls : rendered w (printf ls w).
Proof. repeat split. by exists ls. Qed.

Lemma read_byte_rendered w : rendered w (read_byte w).2.
Proof.
  unfold read_byte. destruct (w_file w !! _); simpl;
    [apply rendered_fpos | apply rendered_refl].
Qed.

Lemma skip_zeroes_rendered n relip w :
  rendered w (skip_zeroes n relip w).2.
Proof.
  revert relip w. induction n as [|n IH]; intros relip w; simpl;
    [apply rendered_refl|].
  pose proof (read_byte_rendered w) as Hr.
  destruct (read_byte w) as [b w1]. simpl in Hr.
  destruct (b =? 0); [|done]. eapply rendered_trans; [exact Hr | apply IH].
Qed.

Lemma disassembly_step_rendered si sec relip w r :
  disassembly_step si sec relip w = Done r ->
  match r with Next _ w' | Return w' => rendered w w' end.
Proof.
  unfold disassembly_step.
  change (w_pe (fseek _ w)) with (w_pe w).
  destruct (flags_get si relip (w_pe w)) as [f| |]; [|done..]. cbn [bind].
  set (w0 := fseek (u32 (offset sec + relip)) w).
  assert (H0 : rendered w w0) by apply rendered_fpos.
  assert (Hfind : forall relip1 w1,
    rendered w w1 ->
    (let ip := u32 (relip1 + address sec) in
     let w2 := fseek (u32 (offset sec + relip1)) w1 in
     if (sec_length sec <=? relip1) || (min_alloc sec <=? relip1)
     then Done (Return w2)
     else
       let '(buffer, w3) :=
         fread_buffer (Z.min MAX_INSTR (u32 (sec_length sec - relip1))) w2 in
       do f1 <- flags_get si relip1 (w_pe w3);
       let w4 :=
         if has f1 INSTR_FUNC then
           printf [BlankLine;
                   FuncHeader ip (default "no name" (get_export_name ip (w_pe w3)))]
                  w3
         else w3 in
       do (len, out) <- print_pe_instr si sec ip buffer (w_pe w4);
       Done (Next (u32 (relip1 + len)) (printf [InstrLine out] w4))) = Done r ->
    match r with Next _ w' | Return w' => rendered w w' end).
  { intros relip1 w1 H1. cbn zeta.
    destruct (_ || _).
    { intros [= <-]. eapply rendered_trans; [exact H1 | apply rendered_fpos]. }
    unfold fread_buffer. cbn [w_pe set_fpos fseek].
    destruct (flags_get si relip1 (w_pe w1)) as [f1| |]; [|done..].
    cbn [bind].
    match goal with |- context [print_pe_instr ?a ?b ?c ?d ?e] =>
      destruct (print_pe_instr a b c d e) as [[len out]| |] end; [|done..].
    cbn [bind]. intros [= <-].
    eapply rendered_trans; [exact H1|].
    eapply rendered_trans; [apply rendered_fpos|].
    eapply rendered_trans; [apply rendered_fpos|].
    destruct (has f1 INSTR_FUNC).
    - eapply rendered_trans; apply rendered_printf.
    - apply rendered_printf. }
  destruct (negb (has f INSTR_VALID)); cbn [bind].
  2: { apply Hfind. exact H0. }
  destruct (has (w_opts w0) DISASSEMBLE_ALL).
  - pose proof (read_byte_rendered w0) as Hb.
    destruct (read_byte w0) as [b w1]. simpl in Hb.
    destruct (b =? 0).
    + pose proof (skip_zeroes_rendered (S (length (w_file (printf [GapMarker] w1))))
        (u32 (relip + 1)) (printf [GapMarker] w1)) as Hz.
      destruct (skip_zeroes _ _ _) as [relip1 w2]. cbn [bind]. simpl in Hz.
      apply Hfind.
      eapply rendered_trans; [exact H0|].
      eapply rendered_trans; [exact Hb|].
      eapply rendered_trans; [apply rendered_printf | exact Hz].
    + pose proof (skip_zeroes_rendered (S (length (w_file w1))) relip w1) as Hz.
      destruct (skip_zeroes _ _ _) as [relip1 w2]. cbn [bind]. simpl in Hz.
      apply Hfind. eapply rendered_trans; [exact H0|].
      by eapply rendered_trans; [exact Hb|].
  - change (w_pe (printf [GapMarker] w0)) with (w_pe w).
    destruct (skip_invalid _ si sec relip (w_pe w)) as [relip1| |]; [|done..].
    cbn [bind]. apply Hfind.
    eapply rendered_trans; [exact H0 | apply rendered_printf].
Qed.

Lemma print_loop_rendered fuel si sec relip w w' :
  print_loop fuel si sec relip w = Done w' -> rendered w w'.
Proof.
  revert relip w. induction fuel as [|n IH]; intros relip w; [done|].
  cbn [print_loop]. destruct (relip <? sec_length sec).
  2: { intros [= <-]. apply rendered_printf. }
  destruct (disassembly_step si sec relip w) as [r| |] eqn:Hstep; [|done..].
  cbn [bind]. apply disassembly_step_rendered in Hstep.
  destruct r as [relip1 w1|w1].
  - intros Hl%IH. by eapply rendered_trans.
  - by intros [= <-].
Qed.

Lemma print_disassembly_rendered fuel si w w' :
  print_disassembly fuel si w = Done w' -> rendered w w'.
Proof.
  unfold print_disassembly. destruct (sections (w_pe w) !! si); [|done].
  apply print_loop_rendered.
Qed.

End RendererFrame.

(** * The claims *)

Section ScannerClaims.
Context {SH : Semblance_h} {XH : X86_instr_h}.

(** C9. Every write of [scan_segment] to a classification map ORs
    classification bits into a byte: across any sequence of scans the frame
    of the image is unchanged, every byte is its old value ORed with a mask
    of classification bits, and so keeps every bit it had.
    [print_disassembly] leaves the image, maps included, as it finds it. *)
Theorem scan_segment_only_sets_bits :
  (forall w w', scans w w' ->
     pe_le (w_pe w) (w_pe w') /\
     forall si j f n, flag_at (w_pe w) si j = Some f ->
       Z.testbit f n = true ->
       exists f', flag_at (w_pe w') si j = Some f' /\ Z.testbit f' n = true) /\
  (forall fuel si w w',
     print_disassembly fuel si w = Done w' -> w_pe w' = w_pe w).
Proof.
  split.
  - intros w w' Hs%scans_le. split; [done|].
    intros si j f n Hf Hn. destruct Hs as [_ Hs].
    destruct (Hs si j f Hf) as (f' & Hf' & Hle).
    exists f'. split; [done|]. by eapply flag_le_testbit.
  - intros fuel si w w' Hp. by apply print_disassembly_rendered in Hp as [? _].
Qed.

End ScannerClaims.

(** Runs of the scanner and of the renderer the instances below use. *)
Lemma demo_self_loop_scan :
  scan_segment (SH := Demo.semblance_h) (XH := Demo.x86_instr_h) 3 4096
    Demo.self_loop = Done Demo.self_loop_scanned.
Proof. vm_compute. reflexivity. Qed.

Lemma demo_nop_zeroes_render :
  print_disassembly (SH := Demo.semblance_h) (XH := Demo.x86_instr_h) 5 0
    Demo.nop_zeroes = Done Demo.nop_zeroes_rendered.
Proof. vm_compute. reflexivity. Qed.

(** Instance of C9: the scan of the self-loop, and a rendering. *)
Lemma scan_segment_only_sets_bits_witness :
  pe_le (SH := Demo.semblance_h) (w_pe Demo.self_loop)
    (w_pe Demo.self_loop_scanned) /\
  w_pe Demo.nop_zeroes_rendered = w_pe Demo.nop_zeroes.
Proof.
  split.
  - exact (proj1 (proj1 (scan_segment_only_sets_bits
             (SH := Demo.semblance_h) (XH := Demo.x86_instr_h)) _ _
             (scans_more _ _ _ _ _ demo_self_loop_scan (scans_none _)))).
  - exact (proj2 (scan_segment_only_sets_bits
             (SH := Demo.semblance_h) (XH := Demo.x86_instr_h)) _ _ _ _
             demo_nop_zeroes_render).
Defined.

Section ScannerClaimsLaws.
Context {SH : Semblance_h} {XH : X86_instr_h} {HL : HeaderLaws}.

(** C10. A call of [scan_segment] at an address whose byte is scanned and
    not valid writes the warning "Attempt to scan byte that does not begin
    instruction" and completes with the image, all classification maps
    included, unchanged; when the address lies past the file contents of
    its section the warning "Scan reached the end of section" follows. *)
Theorem scan_segment_mid_instruction (fuel : nat) (ip : Z) (w : world)
    (si : nat) (sec : section) (f : Z) :
  (0 < fuel)%nat ->
  addr2section ip (w_pe w) = Some si ->
  sections (w_pe w) !! si = Some sec ->
  flags_get si (u32 (ip - address sec)) (w_pe w) = Done f ->
  has f INSTR_SCANNED = true -> has f INSTR_VALID = false ->
  exists w', scan_segment fuel ip w = Done w' /\ w_pe w' = w_pe w /\
    w_stderr w' = w_stderr w ++ (ip, NotInstrStart) ::
      (if u32 (ip - address sec) <? sec_length sec then []
       else [(ip, ReachedEnd)]).
Proof.
  intros Hfuel Ha Hs Hf Hsc Hv. unfold scan_segment, scan_enter.
  rewrite Ha, Hs, Hf. cbn [bind]. rewrite mid_instr_test, Hsc, Hv.
  cbn [andb negb]. destruct fuel as [|n]; [lia|]. cbn [scan_loop].
  change (w_pe (warn_at ip NotInstrStart w)) with (w_pe w). rewrite Hs.
  destruct (u32 (ip - address sec) <? sec_length sec).
  - change (w_pe (tick (warn_at ip NotInstrStart w))) with (w_pe w).
    rewrite Hf. cbn [bind]. rewrite Hsc. eexists. split; [done|].
    by split.
  - eexists. split; [done|]. split; [done|]. simpl. by rewrite <- app_assoc.
Qed.


End ScannerClaimsLaws.

(** Instance of C10: the second byte of the [jmp] of the scanned
    self-loop. *)
Lemma scan_segment_mid_instruction_witness :
  exists w',
    scan_segment (SH := Demo.semblance_h) (XH := Demo.x86_instr_h) 1 4097
      Demo.self_loop_scanned = Done w' /\
    w_pe w' = w_pe Demo.self_loop_scanned /\
    w_stderr w' = [(4097, NotInstrStart)].
Proof.
  exact (scan_segment_mid_instruction (HL := demo_laws) 1 4097
           Demo.self_loop_scanned 0
           (mk_section ".text" 4 4096 4 0 32 [7; 1; 0; 0]) 1
           (Nat.lt_0_succ 0) eq_refl eq_refl eq_refl eq_refl eq_refl).
Defined.




(** C2 fails on the code. The [jz] at 0x1006 ends exactly at [min_alloc]
    of its section, which starts at 0x1000: the test compares the final
    index with [ip+instr_length], an address, so it takes the instruction to
    hang over the allocation; the scan warns and stops, and the branch
    target 0x1000 is neither marked nor scanned. *)
Theorem scan_segment_stops_at_exact_end :
  scan_segment (SH := Demo.semblance_h) (XH := Demo.x86_instr_h) 5 4102
    Demo.last_branch = Done Demo.last_branch_scanned /\
  instr_flags <$> sections (w_pe Demo.last_branch_scanned)
    = [[0; 0; 0; 0; 0; 0; 3; 1]] /\
  w_stderr Demo.last_branch_scanned = [(4102, ReachedEnd)].
Proof. split; [vm_compute; reflexivity|]. by split. Qed.

(** C7 fails on the code. In disassemble-all mode the sweep stands at
    offset 0 of [nop; 0; 0; ret], a non-zero byte that is not valid: the
    zero-skipping loop reads on from offset 1, moves the offset to 2, and the
    first line printed is the instruction at offset 2, after which the sweep
    is at offset 3; the [nop] at offset 0 is never printed and no gap marker
    is. *)
Theorem print_disassembly_all_skips_nonzero_byte :
  print_disassembly (SH := Demo.semblance_h) (XH := Demo.x86_instr_h) 5 0
    Demo.nop_zeroes = Done Demo.nop_zeroes_rendered /\
  w_stdout Demo.nop_zeroes_rendered
    = [InstrLine "db"; InstrLine "ret"; BlankLine] /\
  exists w1,
    disassembly_step (SH := Demo.semblance_h) (XH := Demo.x86_instr_h) 0
      (mk_section ".text" 4 4096 4 0 32 [0; 0; 0; 0]) 0 Demo.nop_zeroes
      = Done (Next 3 w1) /\
    w_stdout w1 = [InstrLine "db"].
Proof.
  split; [exact demo_nop_zeroes_render|]. split; [reflexivity|].
  eexists. split; [vm_compute; reflexivity | reflexivity].
Qed.

(** The halves of C2 and C7 the code agrees with, on concrete runs: a
    [call] of five bytes in a section with three bytes allocated marks
    those three bytes and stops with the warning; a run of zero bytes is
    passed with one gap marker. *)
Example scan_segment_overrun_scenario :
  exists w',
    scan_segment (SH := Demo.semblance_h) (XH := Demo.x86_instr_h) 5 4096
      Demo.short_alloc = Done w' /\
    instr_flags <$> sections (w_pe w') = [[3; 1; 1]] /\
    w_stderr w' = [(4096, ReachedEnd)].
Proof. eexists. split; [vm_compute; reflexivity|]. by split. Qed.

(** Why well-formed images exclude a section at address zero with file
    contents past [min_alloc]: there an instruction that ends exactly at
    [min_alloc] does not stop the scan, and the next iteration reads the
    map at [min_alloc]. *)
Example scan_segment_reads_past_map :
  scan_segment (SH := Demo.semblance_h) (XH := Demo.x86_instr_h) 5 0
    Demo.at_zero = Fault.
Proof. vm_compute. reflexivity. Qed.

Example print_disassembly_all_zero_run :
  exists w',
    print_disassembly (SH := Demo.semblance_h) (XH := Demo.x86_instr_h) 5 0
      Demo.zero_run = Done w' /\
    w_stdout w' = [GapMarker; InstrLine "ret"; BlankLine].
Proof. eexists. split; [vm_compute; reflexivity|]. done. Qed.

(** ** Termination, progress and the self-loop *)

Section TerminationClaim.
Context {SH : Semblance_h} {XH : X86_instr_h} {HL : HeaderLaws}.

(** An iteration that does not find its byte scanned leaves fewer bytes
    unscanned. *)
Lemma scan_loop_progress n si ip relip w w' sec :
  wf_pe (w_pe w) -> sections (w_pe w) !! si = Some sec ->
  relip < sec_length sec ->
  scan_loop (S n) si ip relip w = Done w' ->
  (exists f, flags_get si relip (w_pe w) = Done f /\
     has f INSTR_SCANNED = true /\ w_pe w' = w_pe w) \/
  (unscanned (w_pe w') < unscanned (w_pe w))%nat.
Proof.
  intros Hwf Hsec Hlt Hc%scan_loop_cases.
  destruct Hc as [sec' Hsec' Hge _|sec' f _ _ Hf Hs ->
                 |sec' f buffer wr ins len i p Hsec' _ Hf Hs Hrw Hgi Hm Hafter].
  - assert (sec' = sec) as -> by congruence. lia.
  - left. by exists f.
  - right. assert (sec' = sec) as -> by congruence.
    pose proof Hf as [Hr Hfa]%flags_get_Done.
    pose proof (wf_pe_lookup _ _ _ Hwf Hsec) as
      (Hlen & Hma & Had & Hfit & _)%wf_frame_fields.
    assert (Hb : (Z.to_nat relip < length (instr_flags sec))%nat).
    { unfold flag_at in Hfa. rewrite Hsec in Hfa. by eapply lookup_lt_Some. }
    pose proof (get_instr_length ip buffer 1) as Hl. rewrite Hgi in Hl.
    simpl in Hl.
    pose proof (mark_instr_spec _ _ _ _ _ _ _ _ Hm Hfa ltac:(lia) ltac:(lia)
      ltac:(lia)) as (_ & _ & Hdrop & _).
    specialize (Hdrop Hs).
    assert (Hscan : forall ip w w', scan_enter (scan_loop n) ip w = Done w' ->
      (unscanned (w_pe w') <= unscanned (w_pe w))%nat)
      by apply (scan_enter_rel unscanned_ge (scan_loop n)
                  (scan_loop_unscanned n)).
    destruct Hafter as [_ ->|_ Hb3 _|w3 _ Hb3 _ Hl3].
    + simpl. lia.
    + apply scan_branch_unscanned in Hb3; [|done]. simpl in Hb3. lia.
    + apply scan_branch_unscanned in Hb3; [|done]. simpl in Hb3.
      apply scan_loop_unscanned in Hl3. lia.
Qed.

(** One iteration on a byte that is already scanned. *)
Lemma scan_loop_seen n si ip relip w sec f :
  sections (w_pe w) !! si = Some sec -> relip < sec_length sec ->
  flags_get si relip (w_pe w) = Done f -> has f INSTR_SCANNED = true ->
  scan_loop (S n) si ip relip w = Done (tick w).
Proof.
  intros Hsec Hlt Hf Hs. cbn [scan_loop]. rewrite Hsec.
  rewrite (proj2 (Z.ltb_lt _ _) Hlt).
  change (w_pe (tick w)) with (w_pe w). rewrite Hf. cbn [bind]. by rewrite Hs.
Qed.

(** One iteration on a byte that is not scanned, up to the test for an
    instruction that hangs over. *)
Lemma scan_loop_decoded n si ip relip w sec f buffer wr ins len i p :
  sections (w_pe w) !! si = Some sec -> relip < sec_length sec ->
  flags_get si relip (w_pe w) = Done f -> has f INSTR_SCANNED = false ->
  read_window sec relip (tick w) = (buffer, wr) ->
  get_instr ip buffer 1 = (ins, len) ->
  mark_instr si relip len (min_alloc sec) (w_pe w) = Done (i, p) ->
  scan_loop (S n) si ip relip w =
    if (i <? u32 (ip + len)) && (i =? min_alloc sec)
    then Done (warn_at ip ReachedEnd (set_pe wr p))
    else
      do w3 <- scan_branch (scan_enter (scan_loop n)) ip ins (set_pe wr p);
      if has (op_flags (instr_op ins)) OP_STOP then Done w3
      else scan_loop n si (u32 (ip + len))
             (u32 (u32 (ip + len) - address sec)) w3.
Proof.
  intros Hsec Hlt Hf Hs Hrw Hgi Hm. cbn [scan_loop]. rewrite Hsec.
  rewrite (proj2 (Z.ltb_lt _ _) Hlt).
  change (w_pe (tick w)) with (w_pe w). rewrite Hf. cbn [bind]. rewrite Hs.
  rewrite Hrw, Hgi.
  apply read_window_frame in Hrw as [Hpe _]. rewrite Hpe.
  change (w_pe (tick w)) with (w_pe w). rewrite Hm. by cbn [bind].
Qed.

(** An instruction whose span runs past [min_alloc]: "mark the bytes"
    stays inside the map, writes only offsets from [relip] up to
    [min_alloc], and the scan of this branch stops with the warning. *)
Lemma scan_loop_hangs_over n si ip relip w sec f buffer wr ins len :
  wf_pe (w_pe w) -> sections (w_pe w) !! si = Some sec ->
  0 <= relip -> relip < sec_length sec -> relip < min_alloc sec ->
  ip = address sec + relip ->
  flags_get si relip (w_pe w) = Done f -> has f INSTR_SCANNED = false ->
  read_window sec relip (tick w) = (buffer, wr) ->
  get_instr ip buffer 1 = (ins, len) ->
  min_alloc sec < relip + len ->
  exists p,
    mark_instr si relip len (min_alloc sec) (w_pe w)
      = Done (min_alloc sec, p) /\
    scan_loop (S n) si ip relip w
      = Done (warn_at ip ReachedEnd (set_pe wr p)) /\
    pe_frame (w_pe w) = pe_frame p /\
    forall sj j,
      (sj = si /\ relip <= Z.of_nat j < min_alloc sec) \/
      flag_at p sj j = flag_at (w_pe w) sj j.
Proof.
  intros Hwf Hsec Hr Hl Hm Hip Hf Hs Hrw Hgi Hover.
  pose proof (wf_pe_lookup _ _ _ Hwf Hsec) as
    (Hlen & Hma & Had & Hfit & _)%wf_frame_fields.
  pose proof (get_instr_length ip buffer 1) as Hlb. rewrite Hgi in Hlb.
  simpl in Hlb.
  destruct (mark_instr_total si relip len (min_alloc sec) (w_pe w) sec)
    as (i & p & Hmark); [done | done | lia |].
  pose proof Hf as [_ Hfa]%flags_get_Done.
  pose proof (mark_instr_spec _ _ _ _ _ _ _ _ Hmark Hfa ltac:(lia) ltac:(lia)
    ltac:(lia)) as (Hi & _).
  rewrite Z.min_r in Hi by lia. subst i.
  exists p. split; [done|]. split; [|split].
  - rewrite (scan_loop_decoded n si ip relip w sec f buffer wr ins len
               (min_alloc sec) p Hsec Hl Hf Hs Hrw Hgi Hmark).
    rewrite (u32_small (ip + len)) by lia.
    rewrite (proj2 (Z.ltb_lt _ _)) by lia. by rewrite Z.eqb_refl.
  - by apply mark_instr_le in Hmark as [[? _] _].
  - intros sj j. unfold mark_instr in Hmark.
    destruct (flags_or si relip INSTR_VALID (w_pe w)) as [p1| |] eqn:Hor;
      [|done..]. simpl in Hmark.
    destruct (mark_scanned_range _ _ _ _ _ _ _ _ Hr Hmark sj j) as [?|Heq];
      [by left|].
    apply flags_or_Done in Hor as (g & _ & _ & _ & Hat).
    rewrite Heq, Hat. case_decide as Hd; [|by right].
    destruct Hd as [-> ->]. left. split; [done | lia].
Qed.

Lemma has_zero m : has 0 m = false.
Proof. unfold has. by rewrite Z.land_0_l. Qed.

(** The entry of a scan at an address inside a section. *)
Lemma scan_enter_at loop ip w si sec f :
  addr2section ip (w_pe w) = Some si -> sections (w_pe w) !! si = Some sec ->
  flags_get si (u32 (ip - address sec)) (w_pe w) = Done f ->
  scan_enter loop ip w =
    loop si ip (u32 (ip - address sec))
      (if has f INSTR_SCANNED && negb (has f INSTR_VALID)
       then warn_at ip NotInstrStart w else w).
Proof.
  intros Ha Hs Hf. unfold scan_enter. rewrite Ha, Hs, Hf. cbn [bind].
  by rewrite mid_instr_test.
Qed.

(** A branch to an address inside a section. *)
Lemma scan_branch_at scan ip ins w ti tsec p :
  has (op_flags (instr_op ins)) OP_BRANCH = true ->
  addr2section (arg0 ins) (w_pe w) = Some ti ->
  sections (w_pe w) !! ti = Some tsec ->
  flags_or ti (u32 (arg0 ins - address tsec))
    (if String.eqb (op_name (instr_op ins)) "call"
     then INSTR_FUNC else INSTR_JUMP) (w_pe w) = Done p ->
  scan_branch scan ip ins w = scan (arg0 ins) (set_pe w p).
Proof.
  intros Hb Ha Hs Hor. unfold scan_branch. by rewrite Hb, Ha, Hs, Hor.
Qed.

Lemma self_loop_scan nm off fl imps base chars w ins fuel :
  w_pe w = self_loop_image nm off fl imps base chars ->
  Z.land chars 8192 = 0 ->
  get_instr 4096
    (read_window (mk_section nm 64 4096 64 off fl (replicate 64 0)) 0
       (tick w)).1 1 = (ins, 2) ->
  has (op_flags (instr_op ins)) OP_BRANCH = true ->
  has (op_flags (instr_op ins)) OP_STOP = true ->
  arg0 ins = 4096 -> op_name (instr_op ins) <> "call" ->
  (2 <= fuel)%nat ->
  exists w', read_sections fuel w = Done w' /\
    flag_at (w_pe w') 0 0
      = Some (Z.lor (Z.lor INSTR_VALID INSTR_SCANNED) INSTR_JUMP) /\
    w_stderr w' = w_stderr w.
Proof.
  intros Hpe Hchars Hgi Hbr Hstop Harg Hname Hfuel.
  set (sec := mk_section nm 64 4096 64 off fl (replicate 64 0)) in *.
  set (flags1 := Z.lor INSTR_VALID INSTR_SCANNED :: INSTR_SCANNED
                   :: replicate 62 0).
  set (flags2 := Z.lor (Z.lor INSTR_VALID INSTR_SCANNED) INSTR_JUMP
                   :: INSTR_SCANNED :: replicate 62 0).
  set (image1 := mk_pe [mk_section nm 64 4096 64 off fl flags1]
                   [] imps base 4096 chars).
  set (image2 := mk_pe [mk_section nm 64 4096 64 off fl flags2]
                   [] imps base 4096 chars).
  (* read_sections comes down to the scan of the entry point *)
  unfold read_sections. rewrite Hpe.
  cbn [exports self_loop_image scan_exports bind]. rewrite Hpe.
  cbn [Characteristics AddressOfEntryPoint self_loop_image].
  rewrite Hchars. cbn [Z.eqb]. unfold scan_segment.
  (* entry: byte 0 is empty *)
  rewrite (scan_enter_at _ 4096 w 0%nat sec 0) by (by rewrite Hpe).
  rewrite has_zero. cbn [andb].
  change (u32 (4096 - address sec)) with 0.
  destruct fuel as [|[|n]]; [lia..|].
  (* first iteration: the jump is decoded and marked *)
  destruct (read_window sec 0 (tick w)) as [buffer wr] eqn:Hrw.
  simpl in Hgi.
  pose proof (read_window_frame _ _ _ _ _ Hrw) as (Hper & Herr & _).
  change (w_stderr (tick w)) with (w_stderr w) in Herr.
  assert (Hm : mark_instr 0 0 2 (min_alloc sec) (w_pe w) = Done (2, image1)).
  { rewrite Hpe. vm_compute. reflexivity. }
  rewrite (scan_loop_decoded (S n) 0%nat 4096 0 w sec 0 buffer wr ins 2 2 image1
             ltac:(by rewrite Hpe) ltac:(done) ltac:(by rewrite Hpe)
             (has_zero _) Hrw Hgi Hm).
  change ((2 <? u32 (4096 + 2)) && (2 =? min_alloc sec)) with false.
  cbn iota.
  (* the branch goes back to byte 0 *)
  assert (Hor : flags_or 0 (u32 (arg0 ins - 4096))
                  (if String.eqb (op_name (instr_op ins)) "call"
                   then INSTR_FUNC else INSTR_JUMP) image1 = Done image2).
  { rewrite Harg, (proj2 (String.eqb_neq _ _) Hname). vm_compute. reflexivity. }
  rewrite (scan_branch_at _ 4096 ins (set_pe wr image1) 0%nat
             (mk_section nm 64 4096 64 off fl flags1) image2 Hbr
             ltac:(by rewrite Harg) eq_refl Hor).
  rewrite Harg.
  (* the recursive call finds byte 0 scanned and valid *)
  assert (Hs : has (Z.lor (Z.lor INSTR_VALID INSTR_SCANNED) INSTR_JUMP)
                 INSTR_SCANNED = true).
  { rewrite has_lor, has_lor_self by apply scanned_bit. done. }
  assert (Hv : has (Z.lor (Z.lor INSTR_VALID INSTR_SCANNED) INSTR_JUMP)
                 INSTR_VALID = true).
  { rewrite !has_lor, (has_self _ valid_bit). done. }
  rewrite (scan_enter_at _ 4096 (set_pe (set_pe wr image1) image2) 0%nat
             (mk_section nm 64 4096 64 off fl flags2)
             (Z.lor (Z.lor INSTR_VALID INSTR_SCANNED) INSTR_JUMP)
             eq_refl eq_refl eq_refl).
  rewrite Hs, Hv. cbn [andb negb address].
  change (u32 (4096 - 4096)) with 0.
  rewrite (scan_loop_seen n 0%nat 4096 0 (set_pe (set_pe wr image1) image2)
             (mk_section nm 64 4096 64 off fl flags2)
             (Z.lor (Z.lor INSTR_VALID INSTR_SCANNED) INSTR_JUMP)
             eq_refl eq_refl eq_refl Hs).
  cbn [bind]. rewrite Hstop.
  eexists. split; [reflexivity|]. split; [reflexivity|]. exact Herr.
Qed.

(** C1. On a well-formed image [scan_segment] completes from every entry
    address, cyclic control flow included, once the fuel exceeds the number
    of unscanned bytes: the iterations of its loop, over all recursive
    calls, number at most twice the bytes newly scanned plus one, hence at
    most twice the bytes of the maps plus one. Every iteration either finds
    its byte scanned and ends the call without a write, or leaves fewer
    bytes unscanned. In the self-loop scenario, whatever two-byte
    flow-ending branch to 0x1000 the decoder finds at 0x1000, the scan of
    the entry point ends with byte 0x1000 valid, scanned and a jump target,
    and writes no warning. *)
Theorem scan_segment_terminates :
  (forall fuel ip w,
     wf_pe (w_pe w) -> (unscanned (w_pe w) < fuel)%nat ->
     exists w', scan_segment fuel ip w = Done w' /\
       (w_ticks w' + 2 * unscanned (w_pe w')
        <= w_ticks w + 2 * unscanned (w_pe w) + 1)%nat /\
       (unscanned (w_pe w) <= image_bytes (w_pe w))%nat) /\
  (forall n si ip relip w w' sec,
     wf_pe (w_pe w) -> sections (w_pe w) !! si = Some sec ->
     relip < sec_length sec ->
     scan_loop (S n) si ip relip w = Done w' ->
     (exists f, flags_get si relip (w_pe w) = Done f /\
        has f INSTR_SCANNED = true /\ w_pe w' = w_pe w) \/
     (unscanned (w_pe w') < unscanned (w_pe w))%nat) /\
  (forall nm off fl imps base chars w ins fuel,
     w_pe w = self_loop_image nm off fl imps base chars ->
     Z.land chars 8192 = 0 ->
     get_instr 4096
       (read_window (mk_section nm 64 4096 64 off fl (replicate 64 0)) 0
          (tick w)).1 1 = (ins, 2) ->
     has (op_flags (instr_op ins)) OP_BRANCH = true ->
     has (op_flags (instr_op ins)) OP_STOP = true ->
     arg0 ins = 4096 -> op_name (instr_op ins) <> "call" ->
     (2 <= fuel)%nat ->
     exists w', read_sections fuel w = Done w' /\
       flag_at (w_pe w') 0 0
         = Some (Z.lor (Z.lor INSTR_VALID INSTR_SCANNED) INSTR_JUMP) /\
       w_stderr w' = w_stderr w).
Proof.
  split; [|split].
  - intros fuel ip w Hwf Hfuel.
    destruct (scan_segment_total fuel ip w Hwf Hfuel) as (w' & Hw' & Hb).
    exists w'. split; [done|]. split; [exact Hb|].
    apply unscanned_le_image_bytes.
  - apply scan_loop_progress.
  - apply self_loop_scan.
Qed.

End TerminationClaim.

(** Instance of C1 on the self-loop: four bytes with fuel five, and the
    scenario itself. *)
Lemma scan_segment_terminates_witness :
  (exists w',
     scan_segment (SH := Demo.semblance_h) (XH := Demo.x86_instr_h) 5 4096
       Demo.self_loop = Done w' /\
     (w_ticks w' + 2 * unscanned (SH := Demo.semblance_h) (w_pe w')
      <= 0 + 2 * 4 + 1)%nat /\ (4 <= 4)%nat) /\
  (exists w',
     read_sections (SH := Demo.semblance_h) (XH := Demo.x86_instr_h) 2
       Demo.self_loop64 = Done w' /\
     flag_at (w_pe w') 0 0 = Some 7 /\ w_stderr w' = []).
Proof.
  split.
  - exact (proj1 (scan_segment_terminates (HL := demo_laws)) 5%nat 4096
             Demo.self_loop
             (demo_one_section_wf 4096 4 4 0 [] 4096 ltac:(lia) ltac:(lia)
                ltac:(lia) ltac:(lia))
             (Nat.le_refl 5)).
  - exact (proj2 (proj2 (scan_segment_terminates (HL := demo_laws)))
             ".text" 0 32 [] 4194304 0 Demo.self_loop64
             (Demo.plain "jmp" 24 4096) 2%nat eq_refl eq_refl eq_refl
             eq_refl eq_refl eq_refl ltac:(discriminate) (Nat.le_refl 2)).
Defined.

(** ** A second pass changes nothing *)

Section Idempotence.
Context {SH : Semblance_h} {XH : X86_instr_h} {HL : HeaderLaws}.

Lemma addr2section_lookup p addr si :
  addr2section addr p = Some si -> exists sec, sections p !! si = Some sec.
Proof.
  intros (sec & _ & Hs & _)%addr2section_from_Some.
  rewrite Nat.sub_0_r in Hs. eauto.
Qed.

Lemma settled_mono e p p' : pe_le p p' -> settled e p -> settled e p'.
Proof.
  intros [Hfr Hle] Hset si sec' Ha' Hs'.
  rewrite <- (addr2section_frame p p' e Hfr) in Ha'.
  destruct (addr2section_lookup _ _ _ Ha') as [sec Hs].
  destruct (frame_lookup p p' si sec Hfr Hs) as (sec2 & Hs2 & Hf2).
  assert (sec2 = sec') as -> by congruence.
  apply sec_frame_fields in Hf2 as (_ & Had & Hlen & _).
  destruct (Hset si sec Ha' Hs) as (f & Hf & Hsc).
  rewrite <- Had, <- Hlen.
  apply flags_get_Done in Hf as [Hr Hfa].
  destruct (Hle _ _ _ Hfa) as (f' & Hf' & Hff).
  exists f'. split; [by apply flags_get_Done|].
  intros Hlt. eapply flag_le_has; [exact Hff | by apply Hsc].
Qed.

(** A completed scan from [e] leaves [e] settled. *)
Lemma scan_segment_settles fuel e w w' :
  wf_pe (w_pe w) -> scan_segment fuel e w = Done w' -> settled e (w_pe w').
Proof.
  intros Hwf Hscan.
  pose proof (scan_segment_le _ _ _ _ Hscan) as Hle.
  apply scan_enter_cases in Hscan as [[Ha _]|(si & sec & f & Ha & Hs & Hf & Hl)].
  { intros si sec Ha'.
    rewrite <- (addr2section_frame _ _ e (proj1 Hle)) in Ha'. congruence. }
  set (w1 := if Z.land f (Z.lor INSTR_VALID INSTR_SCANNED) =? INSTR_SCANNED
             then warn_at e NotInstrStart w else w) in *.
  assert (Hpe1 : w_pe w1 = w_pe w) by (unfold w1; by destruct (_ =? _)).
  destruct fuel as [|n]; [done|].
  apply scan_loop_cases in Hl.
  destruct Hl as [sec' Hs' Hge ->|sec' f' Hs' _ Hf' Hsc ->
                 |sec' f' buffer wr ins len i p Hs' Hlt Hf' Hsc Hrw Hgi Hm Hafter];
    rewrite Hpe1 in *; assert (sec' = sec) as -> by congruence.
  - intros si2 sec2 Ha2 Hs2. simpl in *. rewrite Hpe1 in *.
    assert (si2 = si) as -> by congruence.
    assert (sec2 = sec) as -> by congruence.
    exists f. split; [done | lia].
  - intros si2 sec2 Ha2 Hs2. simpl in *. rewrite Hpe1 in *.
    assert (si2 = si) as -> by congruence.
    assert (sec2 = sec) as -> by congruence.
    exists f. split; [done|]. intros _. congruence.
  - assert (f' = f) as -> by congruence.
    pose proof Hf as [Hr Hfa]%flags_get_Done.
    pose proof (wf_pe_lookup _ _ _ Hwf Hs) as
      (Hlen & Hma & Had & Hfit & _)%wf_frame_fields.
    assert (Hb : (Z.to_nat (u32 (e - address sec))
                  < length (instr_flags sec))%nat).
    { unfold flag_at in Hfa. rewrite Hs in Hfa. by eapply lookup_lt_Some. }
    pose proof (get_instr_length e buffer 1) as Hl. rewrite Hgi in Hl.
    simpl in Hl.
    pose proof (mark_instr_spec _ _ _ _ _ _ _ _ Hm Hfa ltac:(lia) ltac:(lia)
      ltac:(lia)) as (_ & (g & Hg & _ & Hgs) & _).
    pose proof (mark_instr_le _ _ _ _ _ _ _ Hm) as [Hle1 _].
    assert (Hset : settled e p).
    { intros si2 sec2 Ha2 Hs2.
      rewrite <- (addr2section_frame _ _ e (proj1 Hle1)) in Ha2.
      assert (si2 = si) as -> by congruence.
      destruct (frame_lookup _ _ si sec (proj1 Hle1) Hs) as (sec3 & Hs3 & Hf3).
      assert (sec3 = sec2) as -> by congruence.
      apply sec_frame_fields in Hf3 as (_ & <- & _).
      exists g. split; [by apply flags_get_Done | done]. }
    eapply settled_mono; [|exact Hset].
    assert (Hscan : forall ip w w', scan_enter (scan_loop n) ip w = Done w' ->
      pe_le (w_pe w) (w_pe w')) by (intros *; apply scan_segment_le).
    destruct Hafter as [_ ->|_ Hb3 _|w3 _ Hb3 _ Hl3].
    + apply pe_le_refl.
    + by apply scan_branch_le in Hb3.
    + apply scan_branch_le in Hb3; [|done]. apply scan_loop_le in Hl3.
      by eapply pe_le_trans.
Qed.

(** A scan from a settled address returns without a write. *)
Lemma scan_segment_quiet fuel e w :
  (0 < fuel)%nat -> settled e (w_pe w) ->
  exists w', scan_segment fuel e w = Done w' /\ w_pe w' = w_pe w.
Proof.
  intros Hfuel Hset. unfold scan_segment, scan_enter.
  destruct (addr2section e (w_pe w)) as [si|] eqn:Ha; [|by eexists].
  destruct (addr2section_lookup _ _ _ Ha) as [sec Hs]. rewrite Hs.
  destruct (Hset si sec Ha Hs) as (f & Hf & Hsc). rewrite Hf. cbn [bind].
  set (w1 := if Z.land f (Z.lor INSTR_VALID INSTR_SCANNED) =? INSTR_SCANNED
             then warn_at e NotInstrStart w else w).
  assert (Hpe1 : w_pe w1 = w_pe w) by (unfold w1; by destruct (_ =? _)).
  destruct fuel as [|n]; [lia|]. cbn [scan_loop]. rewrite Hpe1, Hs.
  destruct (Z.ltb_spec (u32 (e - address sec)) (sec_length sec)) as [Hlt|Hge].
  - change (w_pe (tick w1)) with (w_pe w1). rewrite Hpe1, Hf. cbn [bind].
    rewrite (Hsc Hlt). by eexists.
  - by eexists.
Qed.

Lemma scan_exports_settles fuel es w w' :
  wf_pe (w_pe w) -> scan_exports fuel es w = Done w' ->
  pe_le (w_pe w) (w_pe w') /\
  Forall (fun e => settled (export_address e) (w_pe w')) es.
Proof.
  revert w. induction es as [|e es IH]; intros w Hwf; simpl.
  - intros [= <-]. split; [apply pe_le_refl | constructor].
  - destruct (scan_segment fuel (export_address e) w) as [w1| |] eqn:Hs;
      [|done..]. cbn [bind]. intros Hrest.
    pose proof (scan_segment_le _ _ _ _ Hs) as Hle1.
    apply scan_segment_settles in Hs; [|done].
    destruct (IH w1) as [Hle Hall]; [by eapply wf_pe_frame, Hwf; apply Hle1|done|].
    split; [by eapply pe_le_trans|].
    constructor; [by eapply settled_mono | done].
Qed.

Lemma scan_exports_quiet fuel es w :
  (0 < fuel)%nat ->
  Forall (fun e => settled (export_address e) (w_pe w)) es ->
  exists w', scan_exports fuel es w = Done w' /\ w_pe w' = w_pe w.
Proof.
  intros Hfuel. revert w. induction es as [|e es IH]; intros w Hall; simpl;
    [by eexists|].
  apply Forall_cons in Hall as [He Hall].
  destruct (scan_segment_quiet fuel _ w Hfuel He) as (w1 & Hw1 & Hpe1).
  rewrite Hw1. cbn [bind].
  destruct (IH w1) as (w' & Hw' & Hpe'); [by rewrite Hpe1|].
  exists w'. split; [done | congruence].
Qed.

(** C3. After a complete run of [read_sections] on a well-formed image,
    every entry address (each export, and the entry point unless the image
    is flagged 0x2000) is settled, and a second run with any fuel completes
    and leaves the image, every classification map included, exactly as
    the first run left it. *)
Theorem read_sections_idempotent (fuel : nat) (w w1 : world) :
  wf_pe (w_pe w) -> read_sections fuel w = Done w1 ->
  Forall (fun e => settled e (w_pe w1)) (entry_points (w_pe w1)) /\
  forall fuel2, (0 < fuel2)%nat ->
    exists w2, read_sections fuel2 w1 = Done w2 /\ w_pe w2 = w_pe w1.
Proof.
  intros Hwf. unfold read_sections.
  destruct (scan_exports fuel (exports (w_pe w)) w) as [wa| |] eqn:Hex;
    [|done..]. cbn [bind].
  destruct (scan_exports_settles _ _ _ _ Hwf Hex) as [Hle Hall].
  assert (Hwfa : wf_pe (w_pe wa)) by (eapply wf_pe_frame, Hwf; apply Hle).
  assert (Hexp : forall p p', pe_le p p' ->
    exports p' = exports p /\ Characteristics p' = Characteristics p /\
    AddressOfEntryPoint p' = AddressOfEntryPoint p).
  { intros p p' [Hfr _]. unfold pe_frame in Hfr. by injection Hfr as _ -> _ _ -> ->. }
  intros Hent.
  assert (Hfinal : pe_le (w_pe wa) (w_pe w1) /\
    Forall (fun e => settled e (w_pe w1)) (entry_points (w_pe w1))).
  { destruct (Hexp _ _ Hle) as (He & Hc & Hp).
    unfold entry_points.
    destruct (Z.land (Characteristics (w_pe wa)) 8192 =? 0) eqn:Hch.
    - pose proof (scan_segment_le _ _ _ _ Hent) as Hle2.
      destruct (Hexp _ _ Hle2) as (He2 & Hc2 & Hp2).
      split; [done|]. rewrite He2, Hc2, Hp2, Hch, He.
      apply Forall_app. split.
      + apply Forall_fmap. eapply Forall_impl; [exact Hall|].
        intros e. simpl. by apply settled_mono.
      + constructor; [|constructor].
        by apply scan_segment_settles in Hent.
    - injection Hent as <-. split; [apply pe_le_refl|].
      rewrite Hch, He, app_nil_r. by apply Forall_fmap. }
  destruct Hfinal as [Hle2 Hset]. split; [exact Hset|].
  intros fuel2 Hfuel2. unfold entry_points in Hset.
  apply Forall_app in Hset as [Hset1 Hset2]. apply Forall_fmap in Hset1.
  destruct (scan_exports_quiet fuel2 _ w1 Hfuel2 Hset1) as (wb & Hwb & Hpeb).
  rewrite Hwb. cbn [bind]. rewrite Hpeb.
  destruct (Z.land (Characteristics (w_pe w1)) 8192 =? 0).
  - rewrite Forall_singleton in Hset2.
    destruct (scan_segment_quiet fuel2 (AddressOfEntryPoint (w_pe w1)) wb
      Hfuel2) as (w2 & Hw2 & Hpe2); [by rewrite Hpeb|].
    exists w2. split; [done | congruence].
  - by exists wb.
Qed.

End Idempotence.

Lemma demo_self_loop_read :
  read_sections (SH := Demo.semblance_h) (XH := Demo.x86_instr_h) 3
    Demo.self_loop = Done Demo.self_loop_scanned.
Proof. vm_compute. reflexivity. Qed.

(** Instance of C3: the self-loop, scanned twice. *)
Lemma read_sections_idempotent_witness :
  exists w2,
    read_sections (SH := Demo.semblance_h) (XH := Demo.x86_instr_h) 1
      Demo.self_loop_scanned = Done w2 /\
    w_pe w2 = w_pe Demo.self_loop_scanned.
Proof.
  exact (proj2 (read_sections_idempotent (HL := demo_laws) 3 Demo.self_loop
                  Demo.self_loop_scanned
                  (demo_one_section_wf 4096 4 4 0 [] 4096 ltac:(lia)
                     ltac:(lia) ltac:(lia) ltac:(lia))
                  demo_self_loop_read)
           1%nat (Nat.lt_0_succ 0)).
Defined.

(** ** The gap of the default mode *)

Section DefaultGap.
Context {SH : Semblance_h} {XH : X86_instr_h}.


(** Where the gap loop stops. *)
Lemma skip_invalid_spec n si sec relip image :
  sections image !! si = Some sec ->
  length (instr_flags sec) = Z.to_nat (min_alloc sec) ->
  min_alloc sec < 2 ^ 32 -> 0 <= relip ->
  (Z.to_nat (min_alloc sec - relip) <= n)%nat ->
  exists r, skip_invalid n si sec relip image = Done r /\ relip <= r /\
    (forall j, relip <= j < r ->
       j < sec_length sec /\ j < min_alloc sec /\
       exists f, flag_at image si (Z.to_nat j) = Some f /\
         has f INSTR_VALID = false) /\
    ((r < sec_length sec /\ r < min_alloc sec /\
      exists f, flag_at image si (Z.to_nat r) = Some f /\
        has f INSTR_VALID = true) \/
     (sec_length sec <= r \/ min_alloc sec <= r)).
Proof.
  intros Hsec Hlen Hfit. revert relip.
  induction n as [|n IH]; intros relip Hr Hn; simpl.
  - exists relip. split; [done|]. split; [lia|]. split; [lia|]. right. lia.
  - destruct (Z.ltb_spec relip (sec_length sec)) as [Hl|Hl];
      [destruct (Z.ltb_spec relip (min_alloc sec)) as [Hm|Hm]|]; simpl.
    2, 3: exists relip; split; [done|]; split; [lia|]; split; [lia|];
      right; lia.
    assert (Hb : (Z.to_nat relip < length (instr_flags sec))%nat) by lia.
    apply lookup_lt_is_Some in Hb as [f Hf].
    assert (Hfa : flag_at image si (Z.to_nat relip) = Some f)
      by (unfold flag_at; by rewrite Hsec).
    rewrite (proj2 (flags_get_Done si relip image f) (conj Hr Hfa)).
    cbn [bind]. destruct (has f INSTR_VALID) eqn:Hv; simpl.
    + exists relip. split; [done|]. split; [lia|]. split; [lia|]. left.
      repeat split; try done. by exists f.
    + rewrite (u32_small (relip + 1)) by lia.
      destruct (IH (relip + 1)) as (r & Hskip & Hle & Hgap & Hstop); [lia..|].
      exists r. split; [done|]. split; [lia|]. split; [|done].
      intros j Hj. destruct (decide (j = relip)) as [->|Hne].
      * repeat split; try done. by exists f.
      * apply Hgap. lia.
Qed.

Lemma print_pe_instr_total si sec ip p image f :
  flags_get si (u32 (ip - address sec)) image = Done f ->
  exists len out, print_pe_instr si sec ip p image = Done (len, out).
Proof.
  intros Hf. unfold print_pe_instr. destruct (get_instr ip p 1) as [ins len].
  rewrite Hf. cbn [bind]. eauto.
Qed.



End DefaultGap.

(** * Further properties of the code *)

(** ** AddressResolver *)

(** [addr2section] yields index [k] exactly when section [k] is the first
    whose range holds the address, and nothing exactly when no range holds
    it. *)
Theorem addr2section_first_match (p : pe) (addr : Z) :
  (forall k, addr2section addr p = Some k <->
     exists s, sections p !! k = Some s /\ in_range addr s /\
       forall j t, (j < k)%nat -> sections p !! j = Some t ->
         ~ in_range addr t) /\
  (addr2section addr p = None <->
     forall k s, sections p !! k = Some s -> ~ in_range addr s).
Proof.
  split.
  - intros k. split.
    + intros Ha. apply addr2section_from_Some in Ha as (s & _ & Hs & Hin & Hf).
      rewrite Nat.sub_0_r in *. by exists s.
    + intros (s & Hs & Hin & Hf).
      by apply (addr2section_from_first 0 _ _ k s).
  - split.
    + intros Ha k s Hs. by eapply addr2section_from_None.
    + intros Hnone. destruct (addr2section addr p) as [k|] eqn:Ha; [|done].
      apply addr2section_from_Some in Ha as (s & _ & Hs & Hin & _).
      rewrite Nat.sub_0_r in Hs. by destruct (Hnone k s).
Qed.

(** A section whose range would wrap past 2^32 holds no address: whenever
    [addr2section] yields a section with dword fields, the range does not
    wrap and the offset [addr - address] lies inside the map of [min_alloc]
    bytes, with no wrap-around in its computation. *)
Theorem addr2section_offset_in_map (p : pe) (addr : Z) (k : nat)
    (s : section) :
  addr2section addr p = Some k -> sections p !! k = Some s ->
  0 <= address s < 2 ^ 32 -> 0 <= min_alloc s < 2 ^ 32 ->
  address s + min_alloc s < 2 ^ 32 /\
  0 <= addr - address s < min_alloc s /\
  u32 (addr - address s) = addr - address s.
Proof.
  intros Ha Hs Had Hma.
  apply addr2section_from_Some in Ha as (s' & _ & Hs' & Hin & _).
  rewrite Nat.sub_0_r in Hs'. assert (s' = s) as -> by congruence.
  unfold u32 in *.
  assert (Hfit : address s + min_alloc s < 2 ^ 32).
  { destruct (Z.lt_ge_cases (address s + min_alloc s) (2 ^ 32)) as [|Hge];
      [done|].
    assert ((address s + min_alloc s) mod 2 ^ 32
            = address s + min_alloc s - 2 ^ 32).
    { symmetry. apply (Z.mod_unique _ _ 1); lia. }
    lia. }
  rewrite Z.mod_small in Hin by lia.
  split; [done|]. split; [lia|]. apply Z.mod_small. lia.
Qed.

Lemma addr2section_offset_in_map_witness :
  0 <= 4100 - 4096 < 64.
Proof.
  exact (proj1 (proj2 (addr2section_offset_in_map
    (Demo.one_section 4096 64 64 512 [] 4096) 4100 0%nat
    (mk_section ".text" 64 4096 64 512 32 (replicate (Z.to_nat 64) 0))
    eq_refl eq_refl ltac:(simpl; lia) ltac:(simpl; lia)))).
Defined.

(** ** SymbolResolver *)

Lemma get_export_name_in_first es ip k e :
  es !! k = Some e -> export_address e = ip ->
  (forall j e', (j < k)%nat -> es !! j = Some e' -> export_address e' <> ip) ->
  get_export_name_in es ip = export_name e.
Proof.
  revert k. induction es as [|a es IH]; intros k Hk He Hfirst; [done|].
  simpl. destruct k as [|k]; simpl in Hk.
  - injection Hk as ->. by rewrite (proj2 (Z.eqb_eq _ _) He).
  - assert (Ha : export_address a <> ip) by (apply (Hfirst 0%nat a); [lia|done]).
    rewrite (proj2 (Z.eqb_neq _ _) Ha). apply (IH k); [done..|].
    intros j e' Hj He'. apply (Hfirst (S j) e'); [lia | done].
Qed.

Lemma get_export_name_in_Some es ip n :
  get_export_name_in es ip = Some n ->
  exists k e, es !! k = Some e /\ export_address e = ip /\
    export_name e = Some n.
Proof.
  induction es as [|a es IH]; [done|]. simpl.
  destruct (Z.eqb_spec (export_address a) ip) as [He|Hne].
  - intros Hn. by exists 0%nat, a.
  - intros (k & e & Hk & He & Hn)%IH. by exists (S k), e.
Qed.

(** [get_export_name] is decided by the first export at the address: it
    yields the name of that export, none if that export has no name even
    when a later export at the same address has one, and none when no
    export is at the address; a name it yields is the name of an export at
    the address. *)
Theorem get_export_name_first_match (p : pe) (ip : Z) :
  (forall k e, exports p !! k = Some e -> export_address e = ip ->
     (forall j e', (j < k)%nat -> exports p !! j = Some e' ->
        export_address e' <> ip) ->
     get_export_name ip p = export_name e) /\
  ((forall k e, exports p !! k = Some e -> export_address e <> ip) ->
   get_export_name ip p = None) /\
  (forall n, get_export_name ip p = Some n ->
     exists k e, exports p !! k = Some e /\ export_address e = ip /\
       export_name e = Some n).
Proof.
  split; [|split].
  - intros k e. apply get_export_name_in_first.
  - intros Hnone. destruct (get_export_name ip p) as [n|] eqn:Hn; [|done].
    apply get_export_name_in_Some in Hn as (k & e & Hk & He & _).
    by destruct (Hnone k e).
  - apply get_export_name_in_Some.
Qed.

Lemma import_index_table_iff (m : import_module) (offset0 : Z) :
  import_fits m -> 0 <= offset0 < 2 ^ 32 ->
  (import_index offset0 m < count m <-> in_table offset0 m) /\
  (in_table offset0 m ->
   import_index offset0 m = (offset0 - nametab_addr m) / sizeof_dword).
Proof.
  unfold import_fits, in_table, import_index, sizeof_dword, u32.
  intros (Hb & Hc & Hfit) Ho. change (2 ^ 32) with 4294967296 in *.
  Z.div_mod_to_equations. lia.
Qed.

(** For an import module whose table lies inside the address space, the
    index test of [get_imported_name] holds exactly of the offsets inside
    the table: an offset below the table wraps to an index past [count].
    Inside the table the index is the number of the slot. *)
Theorem import_index_in_table (m : import_module) (offset0 : Z) :
  import_fits m -> 0 <= offset0 < 2 ^ 32 ->
  (import_index offset0 m < count m <-> in_table offset0 m) /\
  (in_table offset0 m ->
   import_index offset0 m = (offset0 - nametab_addr m) / sizeof_dword).
Proof. apply import_index_table_iff. Qed.

Lemma import_index_in_table_witness :
  import_index 8196 (mk_import_module 8192 ["CreateFileA"; "ExitProcess"] 2)
  = (8196 - 8192) / sizeof_dword.
Proof.
  apply (import_index_in_table
    (mk_import_module 8192 ["CreateFileA"; "ExitProcess"] 2) 8196).
  - unfold import_fits, sizeof_dword. simpl. lia.
  - lia.
  - unfold in_table, sizeof_dword. simpl. lia.
Defined.

(** The address of any byte of slot [i] of an import module, image base
    included, resolves to entry [i] of the name table of that module,
    provided no earlier module takes the offset. *)
Theorem get_imported_name_of_slot (p : pe) (addr : Z) (k : nat)
    (m : import_module) (i r : Z) :
  imports p !! k = Some m -> import_fits m ->
  0 <= i < count m -> 0 <= r < sizeof_dword ->
  u32 (addr - ImageBase p) = nametab_addr m + sizeof_dword * i + r ->
  (forall j t, (j < k)%nat -> imports p !! j = Some t ->
     ~ import_index (u32 (addr - ImageBase p)) t < count t) ->
  get_imported_name addr p = nametab m !! Z.to_nat i.
Proof.
  intros Hk Hfit Hi Hr Hoff Hfirst.
  destruct Hfit as (Hb & Hc & Hf). pose proof Hf as Hf'.
  unfold sizeof_dword in *.
  assert (Hrange : 0 <= u32 (addr - ImageBase p) < 2 ^ 32)
    by (apply Z.mod_pos_bound; lia).
  destruct (import_index_table_iff m (u32 (addr - ImageBase p))
    ltac:(by repeat split) Hrange) as [Hiff Hidx].
  assert (Hin : in_table (u32 (addr - ImageBase p)) m)
    by (unfold in_table, sizeof_dword; lia).
  assert (Hval : import_index (u32 (addr - ImageBase p)) m = i).
  { rewrite (Hidx Hin), Hoff. unfold sizeof_dword.
    replace (nametab_addr m + 4 * i + r - nametab_addr m) with (r + i * 4)
      by lia.
    rewrite Z.div_add by lia. rewrite Z.div_small by lia. lia. }
  unfold get_imported_name.
  rewrite (get_imported_name_in_first _ _ k m Hk); [by rewrite Hval| |done].
  by apply Hiff.
Qed.

Lemma get_imported_name_of_slot_witness :
  get_imported_name 4202503 Demo.two_imports = Some "ExitProcess".
Proof.
  apply (get_imported_name_of_slot Demo.two_imports 4202503 0%nat
    (mk_import_module 8192 ["CreateFileA"; "ExitProcess"] 2) 1 3 eq_refl).
  - unfold import_fits, sizeof_dword. simpl. lia.
  - simpl. lia.
  - unfold sizeof_dword. lia.
  - reflexivity.
  - intros j t Hj. lia.
Defined.

(** ** SectionDescriptorFormatter *)

Lemma string_app_cons (x : Ascii.ascii) (a b : string) :
  (String x a ++ b)%string = String x (a ++ b).
Proof. reflexivity. Qed.

Lemma string_app_nil_l (b : string) : ("" ++ b)%string = b.
Proof. reflexivity. Qed.

Lemma string_app_assoc (a b c : string) :
  ((a ++ b) ++ c = a ++ (b ++ c))%string.
Proof.
  induction a as [|x a IH]; [done|]. by rewrite !string_app_cons, IH.
Qed.

Lemma string_app_nil_r (a : string) : (a ++ "" = a)%string.
Proof.
  induction a as [|x a IH]; [done|]. by rewrite string_app_cons, IH.
Qed.

Lemma string_length_app (a b : string) :
  String.length (a ++ b) = (String.length a + String.length b)%nat.
Proof.
  induction a as [|x a IH]; [done|]. rewrite string_app_cons. simpl.
  by rewrite IH.
Qed.

(** The buffer is the initial buffer followed by the labels of the bits
    that are set. *)
Lemma strcat_flags_selected flags tbl buffer :
  strcat_flags flags tbl buffer
  = (buffer ++ foldr String.append ""
       (snd <$> filter (fun ml => has flags ml.1 = true) tbl))%string.
Proof.
  revert buffer. induction tbl as [|[mask label] tbl IH]; intros buffer; simpl.
  - by rewrite string_app_nil_r.
  - rewrite IH, filter_cons. simpl. destruct (has flags mask) eqn:Hm.
    + rewrite decide_True by done. simpl. by rewrite string_app_assoc.
    + rewrite decide_False by done. done.
Qed.

Lemma skip_separators (names : list string) :
  string_skip 2 (foldr String.append ""
                   ((fun n => ", " ++ n)%string <$> names))
  = String.concat ", " names.
Proof.
  assert (Hrest : forall ns : list string,
    foldr String.append "" ((fun n => ", " ++ n)%string <$> ns)
    = match ns with
      | [] => ""%string
      | _ => (", " ++ String.concat ", " ns)%string
      end).
  { induction ns as [|n ns IH]; [done|]. rewrite fmap_cons. cbn [foldr].
    rewrite IH. destruct ns as [|n' ns]; [by rewrite string_app_nil_r|].
    by rewrite string_app_assoc. }
  destruct names as [|n ns]; [done|]. rewrite Hrest.
  by rewrite !string_app_cons, string_app_nil_l.
Qed.

Lemma section_flag_labels_separated :
  Forall (fun ml : Z * string => ml.2 = (", " ++ string_skip 2 ml.2)%string)
         section_flag_labels.
Proof. repeat constructor. Qed.

(** The text between the parentheses of the flags line is the names of the
    bits that are set, in the order of the statements, joined by ", "; with
    no named bit set it is empty. *)
Theorem print_section_flags_lists_names (flags : Z) :
  exists alignment,
    print_section_flags flags
    = [FlagsLine flags (String.concat ", " (section_flag_names flags));
       alignment].
Proof.
  eexists. unfold print_section_flags. f_equal. f_equal.
  rewrite strcat_flags_selected, string_app_nil_l.
  unfold section_flag_names. rewrite <- skip_separators. f_equal. f_equal.
  pose proof section_flag_labels_separated as Hsep.
  induction section_flag_labels as [|[mask label] tbl IH]; [done|].
  apply Forall_cons in Hsep as [Hl Hsep]. rewrite filter_cons.
  cbn [fst snd] in *. case_decide; [|by apply IH].
  rewrite !fmap_cons. cbn [snd]. rewrite <- Hl. f_equal. by apply IH.
Qed.

Lemma strcat_flags_length flags tbl buffer :
  (String.length (strcat_flags flags tbl buffer)
   <= String.length buffer + labels_length tbl)%nat.
Proof.
  revert buffer. induction tbl as [|[mask label] tbl IH]; intros buffer; simpl.
  - lia.
  - etrans; [apply IH|]. unfold labels_length. simpl.
    destruct (has flags mask); [rewrite string_length_app|]; lia.
Qed.

Lemma section_alignment_bits flags :
  section_alignment flags = (flags / 2 ^ 20) mod 2 ^ 4.
Proof.
  unfold section_alignment. change 1048576 with (2 ^ 20).
  apply Z.bits_inj'. intros n Hn.
  rewrite Z.div_pow2_bits, Z.land_spec by lia.
  change 15728640 with (Z.shiftl 15 20).
  rewrite Z.shiftl_spec by lia. replace (n + 20 - 20) with n by lia.
  destruct (Z.lt_ge_cases n 4) as [Hlt|Hge].
  - rewrite Z.mod_pow2_bits_low, Z.div_pow2_bits by lia.
    assert (Z.testbit 15 n = true) as ->; [|by rewrite andb_true_r].
    assert (n = 0 \/ n = 1 \/ n = 2 \/ n = 3) as [-> | [-> | [-> | ->]]]
      by lia; done.
  - rewrite Z.mod_pow2_bits_high by lia.
    assert (Z.testbit 15 n = false) as ->; [|by rewrite andb_false_r].
    apply (Z.bits_above_log2 15 n); [lia|]. simpl. lia.
Qed.

(** [print_section_flags] stays inside its buffer of 1024 bytes whatever
    the flags: the labels together have 315 characters. The alignment is the
    number in bits 20 to 23 of the flags, between 0 and 15, and the value
    printed with it, [1 << alignment], is that power of two, at most
    32768. *)
Theorem print_section_flags_bounds (flags : Z) :
  (String.length (strcat_flags flags section_flag_labels "") + 1 <= 1024)%nat /\
  labels_length section_flag_labels = 315%nat /\
  section_alignment flags = (flags / 2 ^ 20) mod 16 /\
  0 <= section_alignment flags <= 15 /\
  print_section_flags flags !! 1%nat
  = Some (AlignmentLine (2 ^ section_alignment flags)
            (section_alignment flags)) /\
  1 <= 2 ^ section_alignment flags <= 32768.
Proof.
  assert (Hlen : labels_length section_flag_labels = 315%nat)
    by (vm_compute; reflexivity).
  assert (Hal : section_alignment flags = (flags / 2 ^ 20) mod 16)
    by apply section_alignment_bits.
  assert (Hr : 0 <= section_alignment flags <= 15).
  { rewrite Hal. pose proof (Z.mod_pos_bound (flags / 2 ^ 20) 16). lia. }
  split; [|split; [done|split; [done|split; [done|split]]]].
  - pose proof (strcat_flags_length flags section_flag_labels "") as H.
    rewrite Hlen in H. change (String.length "") with 0%nat in H. lia.
  - rewrite <- Z.shiftl_1_l. reflexivity.
  - split.
    + pose proof (Z.pow_pos_nonneg 2 (section_alignment flags)). lia.
    + change 32768 with (2 ^ 15). apply Z.pow_le_mono_r; lia.
Qed.

(** ** The listing of all sections *)

Section SectionsListing.
Context {SH : Semblance_h} {XH : X86_instr_h}.

Lemma sheet_headings_listing (ls : list line) :
  sheet_headings (Listing <$> ls) = [].
Proof. induction ls as [|l ls IH]; [done|]. by rewrite fmap_cons. Qed.

Lemma sheet_headings_heading (hs : list heading) :
  sheet_headings (Heading <$> hs) = hs.
Proof.
  induction hs as [|h hs IH]; [done|]. rewrite fmap_cons.
  unfold sheet_headings in *. cbn [omap list_omap]. by rewrite IH.
Qed.

Lemma sheet_headings_section (sec : section) :
  sheet_headings (section_heading sec) = headings_of sec.
Proof.
  unfold section_heading, headings_of, sheet_headings.
  rewrite omap_app. f_equal; apply sheet_headings_heading.
Qed.

Lemma print_sections_from_headings fuel i ss w sheet w' sheet' :
  print_sections_from fuel i ss w sheet = Done (w', sheet') ->
  rendered w w' /\
  sheet_headings sheet' = sheet_headings sheet ++ flat_map headings_of ss.
Proof.
  revert i w sheet. induction ss as [|sec ss IH]; intros i w sheet.
  - intros [= <- <-]. split; [apply rendered_refl | by rewrite app_nil_r].
  - cbn [print_sections_from flat_map].
    assert (Hhead : sheet_headings (sheet ++ section_heading sec)
                    = sheet_headings sheet ++ headings_of sec).
    { unfold sheet_headings at 1. rewrite omap_app.
      f_equal; apply sheet_headings_section. }
    destruct (has (sec_flags sec) 64); [|destruct (has (sec_flags sec) 32)];
      cbn [bind].
    1, 3: intros [Hr Hs]%IH; split; [done|];
      by rewrite Hs, Hhead, <- app_assoc.
    destruct (print_disassembly fuel i w) as [w1| |] eqn:Hp; [|done..].
    cbn [bind]. intros [Hr Hs]%IH.
    apply print_disassembly_rendered in Hp.
    split; [by eapply rendered_trans|].
    rewrite Hs. unfold sheet_headings at 1. rewrite omap_app.
    fold (sheet_headings (sheet ++ section_heading sec)).
    fold (sheet_headings (Listing <$> drop (length (w_stdout w)) (w_stdout w1))).
    by rewrite sheet_headings_listing, app_nil_r, Hhead, <- app_assoc.
Qed.

(** A completed [print_sections] leaves the image, the file and the
    warnings as they were, and has printed the heading lines of every
    section in the order of the section table, whatever the sections
    hold. *)
Theorem print_sections_headings (fuel : nat) (w w' : world)
    (sheet : list sheet_line) :
  print_sections fuel w = Done (w', sheet) ->
  w_pe w' = w_pe w /\ w_file w' = w_file w /\ w_stderr w' = w_stderr w /\
  sheet_headings sheet = flat_map headings_of (sections (w_pe w)).
Proof.
  intros [(Hpe & Hfile & _ & Herr & _) Hs]%print_sections_from_headings.
  by repeat split.
Qed.

Lemma print_sections_from_unlisted fuel i ss w sheet :
  Forall (fun sec => has (sec_flags sec) 64 = true \/
                     has (sec_flags sec) 32 = false) ss ->
  print_sections_from fuel i ss w sheet
  = Done (w, sheet ++ flat_map section_heading ss).
Proof.
  revert i sheet. induction ss as [|sec ss IH]; intros i sheet Hall.
  - by rewrite app_nil_r.
  - apply Forall_cons in Hall as [Hsec Hall]. cbn [print_sections_from flat_map].
    assert (Hstep : (if has (sec_flags sec) 64
                     then Done (w, sheet ++ section_heading sec)
                     else if has (sec_flags sec) 32
                          then do w' <- print_disassembly fuel i w;
                               Done (w', (sheet ++ section_heading sec) ++
                                       (Listing <$> drop (length (w_stdout w))
                                                      (w_stdout w')))
                          else Done (w, sheet ++ section_heading sec))
                    = Done (w, sheet ++ section_heading sec)).
    { destruct Hsec as [-> | Hc]; [done|]. rewrite Hc.
      by destruct (has (sec_flags sec) 64). }
    rewrite Hstep. cbn [bind]. rewrite IH by done. by rewrite <- app_assoc.
Qed.

(** A section flagged data (0x40) is never disassembled, not even when it
    is flagged code (0x20) as well, nor is a section flagged neither: for an
    image of such sections [print_sections] completes whatever the fuel,
    reads no classification map, changes nothing, and prints the headings
    of the sections and nothing else. *)
Theorem print_sections_data_not_listed (fuel : nat) (w : world) :
  Forall (fun sec => has (sec_flags sec) 64 = true \/
                     has (sec_flags sec) 32 = false) (sections (w_pe w)) ->
  print_sections fuel w
  = Done (w, flat_map section_heading (sections (w_pe w))).
Proof. intros Hall. by apply print_sections_from_unlisted. Qed.

End SectionsListing.

Lemma print_sections_headings_witness :
  exists w' sheet,
    print_sections (SH := Demo.semblance_h) (XH := Demo.x86_instr_h) 5
      Demo.nop_zeroes = Done (w', sheet) /\
    sheet_headings sheet
    = [SectionLine ".text" 0 4 4; AddressLine 4096; FlagsLine 32 "code";
       AlignmentLine 1 0].
Proof.
  eexists _, _. split; [vm_compute; reflexivity|].
  etrans; [|vm_compute; reflexivity].
  eapply (print_sections_headings (SH := Demo.semblance_h)
            (XH := Demo.x86_instr_h) 5 Demo.nop_zeroes).
  vm_compute. reflexivity.
Defined.

Lemma print_sections_data_not_listed_witness :
  exists sheet,
    print_sections (SH := Demo.semblance_h) (XH := Demo.x86_instr_h) 0
      Demo.data_image = Done (Demo.data_image, sheet) /\
    length sheet = 10%nat.
Proof.
  eexists. split.
  - apply (print_sections_data_not_listed (SH := Demo.semblance_h)
             (XH := Demo.x86_instr_h) 0 Demo.data_image).
    apply Forall_cons_2; [left; reflexivity|].
    apply Forall_cons_2; [right; reflexivity|]. apply Forall_nil_2.
  - reflexivity.
Defined.

(** ** What the scanner leaves alone *)

Section ScannerFrame.
Context {SH : Semblance_h} {XH : X86_instr_h}.

#[global] Instance scan_frame_pre : PreOrder scan_frame.
Proof.
  split.
  - intros w. repeat split. exists []. by rewrite app_nil_r.
  - intros w1 w2 w3 (Ha & Hb & Hc & l1 & E1) (Ha' & Hb' & Hc' & l2 & E2).
    repeat split; try congruence. exists (l1 ++ l2).
    by rewrite E2, E1, app_assoc.
Qed.

Lemma scan_frame_quiet w w' :
  w_stdout w' = w_stdout w -> w_file w' = w_file w ->
  w_opts w' = w_opts w -> w_stderr w' = w_stderr w -> scan_frame w w'.
Proof. intros. repeat split; try done. exists []. by rewrite app_nil_r. Qed.

Lemma scan_frame_warn w ip m : scan_frame w (warn_at ip m w).
Proof. repeat split. by eexists. Qed.

Lemma scan_enter_frame (loop : nat -> Z -> Z -> world -> result world) :
  (forall si ip relip w w',
     loop si ip relip w = Done w' -> scan_frame w w') ->
  forall ip w w', scan_enter loop ip w = Done w' -> scan_frame w w'.
Proof.
  intros Hloop ip w w' [[_ ->]|(si & sec & f & _ & _ & _ & Hl)]%scan_enter_cases.
  - apply scan_frame_warn.
  - apply Hloop in Hl. destruct (_ =? _); [|done].
    etrans; [apply scan_frame_warn | exact Hl].
Qed.

Lemma scan_branch_frame scan ip ins w w' :
  (forall ip w w', scan ip w = Done w' -> scan_frame w w') ->
  scan_branch scan ip ins w = Done w' -> scan_frame w w'.
Proof.
  intros Hscan Hc%scan_branch_cases.
  destruct Hc as [[_ ->]|[(_ & _ & ->)|(_ & ti & tsec & m & p & _ & _ & _ & _ & Hs)]].
  - reflexivity.
  - apply scan_frame_warn.
  - apply Hscan in Hs. etrans; [|exact Hs]. by apply scan_frame_quiet.
Qed.

Lemma scan_loop_frame n si ip relip w w' :
  scan_loop n si ip relip w = Done w' -> scan_frame w w'.
Proof.
  revert si ip relip w w'. induction n as [|n IH]; intros si ip relip w w';
    [done|].
  intros Hc%scan_loop_cases.
  assert (Hscan : forall ip w w',
    scan_enter (scan_loop n) ip w = Done w' -> scan_frame w w')
    by (apply scan_enter_frame; exact IH).
  destruct Hc as [sec _ _ ->|sec f _ _ _ _ ->
                 |sec f buffer wr ins len i p _ _ _ _ Hrw _ _ Hafter].
  - apply scan_frame_warn.
  - by apply scan_frame_quiet.
  - apply read_window_frame in Hrw as (_ & Herr & Hout & _ & Hfile & Hopts).
    assert (Hmark : scan_frame w (set_pe wr p)) by (by apply scan_frame_quiet).
    etrans; [exact Hmark|].
    destruct Hafter as [_ ->|_ Hb _|w3 _ Hb _ Hl].
    + apply scan_frame_warn.
    + by apply scan_branch_frame in Hb.
    + apply scan_branch_frame in Hb; [|done]. apply IH in Hl. by etrans.
Qed.

Lemma scan_segment_frame fuel ip w w' :
  scan_segment fuel ip w = Done w' -> scan_frame w w'.
Proof. apply scan_enter_frame. intros *. apply scan_loop_frame. Qed.

Lemma scan_exports_frame fuel es w w' :
  scan_exports fuel es w = Done w' -> scan_frame w w'.
Proof.
  revert w. induction es as [|e es IH]; intros w; simpl.
  - by intros [= <-].
  - destruct (scan_segment fuel (export_address e) w) as [w1| |] eqn:Hs;
      [|done..]. cbn [bind]. intros Hrest%IH.
    apply scan_segment_frame in Hs. by etrans.
Qed.

Lemma scan_exports_le fuel es w w' :
  scan_exports fuel es w = Done w' -> pe_le (w_pe w) (w_pe w').
Proof.
  revert w. induction es as [|e es IH]; intros w; simpl.
  - intros [= <-]. apply pe_le_refl.
  - destruct (scan_segment fuel (export_address e) w) as [w1| |] eqn:Hs;
      [|done..]. cbn [bind]. intros Hrest%IH.
    apply scan_segment_le in Hs. by eapply pe_le_trans.
Qed.

(** The scanner writes nothing to standard output and leaves the file
    contents and the options alone; the warnings there were are kept, new
    ones are appended. The image keeps every field but the classification
    maps, whose bytes only gain bits. *)
Theorem read_sections_frame (fuel : nat) (w w' : world) :
  read_sections fuel w = Done w' ->
  w_stdout w' = w_stdout w /\ w_file w' = w_file w /\ w_opts w' = w_opts w /\
  (exists ws, w_stderr w' = w_stderr w ++ ws) /\
  pe_frame (w_pe w') = pe_frame (w_pe w).
Proof.
  unfold read_sections.
  destruct (scan_exports fuel (exports (w_pe w)) w) as [wa| |] eqn:Hex;
    [|done..]. cbn [bind]. intros Hent.
  assert (Hfr : scan_frame w w' /\ pe_le (w_pe w) (w_pe w')).
  { assert (Ha : scan_frame w wa /\ pe_le (w_pe w) (w_pe wa)).
    { split; [by eapply scan_exports_frame | by eapply scan_exports_le]. }
    destruct Ha as [Hfa Hla].
    destruct (Z.land (Characteristics (w_pe wa)) 8192 =? 0).
    - split.
      + etrans; [exact Hfa | by eapply scan_segment_frame].
      + eapply pe_le_trans; [exact Hla | by eapply scan_segment_le].
    - by injection Hent as <-. }
  destruct Hfr as [(Hout & Hfile & Hopts & Herr) [Hpe _]].
  by repeat split.
Qed.

End ScannerFrame.

Lemma read_sections_frame_witness :
  w_stdout Demo.gap_ten_scanned = w_stdout Demo.gap_ten.
Proof.
  apply (read_sections_frame (SH := Demo.semblance_h)
           (XH := Demo.x86_instr_h) 3 Demo.gap_ten Demo.gap_ten_scanned).
  vm_compute. reflexivity.
Defined.

(** ** Termination of [read_sections] *)

Section ReadSectionsTotal.
Context {SH : Semblance_h} {XH : X86_instr_h} {HL : HeaderLaws}.

Lemma scan_segment_step fuel ip w :
  wf_pe (w_pe w) -> (unscanned (w_pe w) < fuel)%nat ->
  exists w', scan_segment fuel ip w = Done w' /\ wf_pe (w_pe w') /\
    (unscanned (w_pe w') <= unscanned (w_pe w))%nat /\ within_budget w w'.
Proof.
  intros Hwf Hfuel.
  destruct (scan_segment_total fuel ip w Hwf Hfuel) as (w' & Hw' & Hb).
  exists w'. split; [done|]. split; [|split; [|done]].
  - eapply wf_pe_frame; [|exact Hwf]. by apply scan_segment_le in Hw' as [? _].
  - revert Hw'. apply (scan_enter_rel unscanned_ge (scan_loop fuel)).
    intros *. apply scan_loop_unscanned.
Qed.

Lemma scan_exports_total fuel es w :
  wf_pe (w_pe w) -> (unscanned (w_pe w) < fuel)%nat ->
  exists w', scan_exports fuel es w = Done w' /\ wf_pe (w_pe w') /\
    (unscanned (w_pe w') <= unscanned (w_pe w))%nat /\
    (w_ticks w' + 2 * unscanned (w_pe w')
     <= w_ticks w + 2 * unscanned (w_pe w) + length es)%nat.
Proof.
  revert w. induction es as [|e es IH]; intros w Hwf Hfuel; simpl.
  - exists w. repeat split; [done | lia..].
  - destruct (scan_segment_step fuel (export_address e) w Hwf Hfuel)
      as (w1 & Hw1 & Hwf1 & Hu1 & Hb1).
    rewrite Hw1. cbn [bind].
    destruct (IH w1 Hwf1 ltac:(lia)) as (w' & Hw' & Hwf' & Hu' & Hb').
    exists w'. unfold within_budget in Hb1. repeat split; [done..|lia|lia].
Qed.

(** [read_sections] returns on every well-formed image, given fuel beyond
    the number of unscanned bytes: it does not fault, and the iterations of
    the loop of [scan_segment], over all entry points and all recursive
    calls, number at most twice the bytes newly scanned plus one for each
    entry point. *)
Theorem read_sections_terminates (fuel : nat) (w : world) :
  wf_pe (w_pe w) -> (unscanned (w_pe w) < fuel)%nat ->
  exists w', read_sections fuel w = Done w' /\
    (w_ticks w' + 2 * unscanned (w_pe w')
     <= w_ticks w + 2 * unscanned (w_pe w)
        + length (entry_points (w_pe w)))%nat /\
    (unscanned (w_pe w') <= unscanned (w_pe w) <= image_bytes (w_pe w))%nat.
Proof.
  intros Hwf Hfuel. unfold read_sections.
  destruct (scan_exports_total fuel (exports (w_pe w)) w Hwf Hfuel)
    as (wa & Hwa & Hwfa & Hua & Hba).
  rewrite Hwa. cbn [bind].
  pose proof (scan_exports_le _ _ _ _ Hwa) as [Hfr _].
  assert (Hch : Characteristics (w_pe wa) = Characteristics (w_pe w)).
  { unfold pe_frame in Hfr. by injection Hfr as _ _ _ _ _ ->. }
  pose proof (unscanned_le_image_bytes (w_pe w)) as Himg.
  unfold entry_points. rewrite length_app, length_fmap, Hch.
  destruct (Z.land (Characteristics (w_pe w)) 8192 =? 0).
  - destruct (scan_segment_step fuel (AddressOfEntryPoint (w_pe wa)) wa Hwfa
      ltac:(lia)) as (w' & Hw' & _ & Hu' & Hb').
    exists w'. unfold within_budget in Hb'. simpl.
    split; [done|]. lia.
  - exists wa. simpl. split; [done|]. lia.
Qed.

End ReadSectionsTotal.

Lemma read_sections_terminates_witness :
  exists w',
    read_sections (SH := Demo.semblance_h) (XH := Demo.x86_instr_h) 5
      Demo.self_loop = Done w' /\
    (w_ticks w' + 2 * unscanned (SH := Demo.semblance_h) (w_pe w')
     <= 0 + 2 * 4 + 1)%nat /\
    (unscanned (SH := Demo.semblance_h) (w_pe w') <= 4 <= 4)%nat.
Proof.
  exact (read_sections_terminates (HL := demo_laws) 5%nat Demo.self_loop
           (demo_one_section_wf 4096 4 4 0 [] 4096 ltac:(lia) ltac:(lia)
              ltac:(lia) ltac:(lia))
           (Nat.le_refl 5)).
Defined.

(** ** The scan follows the control flow *)

Section Closure.
Context {SH : Semblance_h} {XH : X86_instr_h} {HL : HeaderLaws}.

Lemma byte_has_at p si relip m :
  byte_has p si relip m <->
  0 <= relip /\ exists f, flag_at p si (Z.to_nat relip) = Some f /\
    has f m = true.
Proof.
  unfold byte_has. split.
  - intros (f & [Hr Hf]%flags_get_Done & Hm). eauto.
  - intros (Hr & f & Hf & Hm). exists f. split; [|done].
    by apply flags_get_Done.
Qed.

Lemma byte_has_mono p p' si relip m :
  pe_le p p' -> byte_has p si relip m -> byte_has p' si relip m.
Proof.
  intros [_ Hle] (Hr & f & Hf & Hm)%byte_has_at. apply byte_has_at.
  split; [done|]. destruct (Hle _ _ _ Hf) as (f' & Hf' & Hff).
  exists f'. split; [done|]. by eapply flag_le_has.
Qed.

(** Setting one bit leaves the other bits of every byte as they were. *)
Lemma flags_or_keeps si i m p p' m' :
  flags_or si i m p = Done p' -> byte_bit m -> byte_bit m' -> m <> m' ->
  forall sj relip, byte_has p' sj relip m' -> byte_has p sj relip m'.
Proof.
  intros (f & _ & Hf & _ & Hat)%flags_or_Done Hm Hm' Hne sj relip.
  rewrite !byte_has_at. intros (Hr & f' & Hf' & Hh). split; [done|].
  rewrite Hat in Hf'. case_decide as Hd; [|by exists f'].
  destruct Hd as [-> Hd]. injection Hf' as <-. exists f.
  split; [by rewrite Hd|]. by rewrite has_lor_other in Hh.
Qed.

Lemma mark_scanned_keeps n si i bound malloc p i' p' m' :
  mark_scanned n si i bound malloc p = Done (i', p') ->
  byte_bit m' -> INSTR_SCANNED <> m' ->
  forall sj relip, byte_has p' sj relip m' -> byte_has p sj relip m'.
Proof.
  intros Hm Hm' Hne. revert i p Hm.
  induction n as [|n IH]; intros i p; simpl.
  - by intros [= <- <-].
  - destruct ((i <? bound) && (i <? malloc)); [|by intros [= <- <-]].
    destruct (flags_or si i INSTR_SCANNED p) as [p1| |] eqn:Hor; [|done..].
    simpl. intros Hrest sj relip Hb.
    eapply flags_or_keeps; [exact Hor | apply scanned_bit | done | done |].
    by eapply IH.
Qed.

(** "mark the bytes" makes one new instruction start, at [relip]. *)
Lemma mark_instr_valid si relip len malloc p i p' :
  mark_instr si relip len malloc p = Done (i, p') ->
  forall sj j, byte_has p' sj j INSTR_VALID ->
    byte_has p sj j INSTR_VALID \/ (sj = si /\ j = relip).
Proof.
  unfold mark_instr.
  destruct (flags_or si relip INSTR_VALID p) as [p1| |] eqn:Hor; [|done..].
  simpl. intros Hm sj j Hb.
  eapply mark_scanned_keeps in Hb;
    [|exact Hm | apply valid_bit | by apply not_eq_sym, valid_scanned].
  apply flags_or_Done in Hor as (f & Hr & Hf & _ & Hat).
  apply byte_has_at in Hb as (Hj & f' & Hf' & Hh).
  rewrite Hat in Hf'. case_decide as Hd.
  - right. destruct Hd as [-> Hd]. split; [done | lia].
  - left. apply byte_has_at. eauto.
Qed.

(** The marking loop leaves every byte from [i] up to the bound and the end
    of the map [INSTR_SCANNED]. *)
Lemma mark_scanned_span n si i bound malloc p i' p' :
  (Z.to_nat (bound - i) <= n)%nat -> 0 <= i ->
  mark_scanned n si i bound malloc p = Done (i', p') ->
  forall k, i <= k < Z.min bound malloc -> byte_has p' si k INSTR_SCANNED.
Proof.
  revert i p. induction n as [|n IH]; intros i p Hn Hi; simpl.
  - intros _ k Hk. lia.
  - destruct (Z.ltb_spec i bound) as [Hb|Hb];
      [destruct (Z.ltb_spec i malloc) as [Ha|Ha]|]; simpl;
      try (intros _ k Hk; lia).
    destruct (flags_or si i INSTR_SCANNED p) as [p1| |] eqn:Hor; [|done..].
    simpl. intros Hrest k Hk.
    destruct (decide (k = i)) as [->|Hne].
    + eapply byte_has_mono; [by eapply mark_scanned_le|].
      apply flags_or_Done in Hor as (f & _ & Hf & _ & Hat).
      apply byte_has_at. split; [done|]. exists (Z.lor f INSTR_SCANNED).
      split; [|apply has_lor_self, scanned_bit].
      rewrite Hat. by rewrite decide_True.
    + apply (IH (i + 1) p1); [lia | lia | done | lia].
Qed.

Lemma mark_instr_span si relip len malloc p i p' :
  mark_instr si relip len malloc p = Done (i, p') ->
  0 <= relip -> relip + len < 2 ^ 32 -> 0 <= len ->
  forall k, relip <= k < Z.min (relip + len) malloc ->
    byte_has p' si k INSTR_SCANNED.
Proof.
  unfold mark_instr.
  destruct (flags_or si relip INSTR_VALID p) as [p1| |] eqn:Hor; [|done..].
  simpl. intros Hm Hr Hwrap Hlen.
  rewrite (u32_small (relip + len)) in Hm by lia.
  by apply (mark_scanned_span _ _ _ _ _ _ _ _ (Nat.le_refl _) Hr Hm).
Qed.

(** The decode window is read from the file alone. *)
Lemma decode_at_frame sec sec' relip w w' :
  sec_frame sec = sec_frame sec' -> w_file w = w_file w' ->
  decode_at sec relip w = decode_at sec' relip w'.
Proof.
  intros (_ & Ha & Hl & Ho & _)%sec_frame_fields Hfile.
  unfold decode_at, read_window, fread_buffer, fseek. simpl.
  by rewrite Ha, Hl, Ho, Hfile.
Qed.

Lemma target_done_mono ins p p' :
  pe_le p p' -> target_done ins p -> target_done ins p'.
Proof.
  intros [Hfr Hle] Hdone ti tsec' Ha' Hs'.
  rewrite <- (addr2section_frame p p' _ Hfr) in Ha'.
  destruct (addr2section_lookup _ _ _ Ha') as [tsec Hs].
  destruct (frame_lookup p p' ti tsec Hfr Hs) as (sec2 & Hs2 & Hf2).
  assert (sec2 = tsec') as -> by congruence.
  apply sec_frame_fields in Hf2 as (_ & Had & Hlen & _).
  destruct (Hdone ti tsec Ha' Hs) as (f & Hf & Hmk & Hsc).
  rewrite <- Had, <- Hlen.
  apply flags_get_Done in Hf as [Hr Hfa].
  destruct (Hle _ _ _ Hfa) as (f' & Hf' & Hff).
  exists f'. split; [by apply flags_get_Done|]. split.
  - by eapply flag_le_has.
  - intros Hlt. eapply flag_le_has; [exact Hff | by apply Hsc].
Qed.

Lemma ends_inside_frame sec sec' relip len :
  sec_frame sec = sec_frame sec' ->
  ends_inside sec relip len -> ends_inside sec' relip len.
Proof.
  intros (Hm & Ha & _)%sec_frame_fields. unfold ends_inside.
  by rewrite Hm, Ha.
Qed.

Lemma followed_mono w w' si sec sec' relip :
  pe_le (w_pe w) (w_pe w') -> w_file w' = w_file w ->
  sec_frame sec = sec_frame sec' ->
  followed w si sec relip -> followed w' si sec' relip.
Proof.
  intros Hle Hfile Hfr Hfol ins len Hdec.
  rewrite <- (decode_at_frame sec sec' relip w w' Hfr (eq_sym Hfile)) in Hdec.
  destruct (Hfol ins len Hdec) as [Hspan Hin].
  pose proof Hfr as (Hm & Ha & Hl & _)%sec_frame_fields.
  split.
  - intros k Hk. eapply byte_has_mono; [exact Hle|]. apply Hspan.
    by rewrite Hm.
  - intros Hends.
    destruct Hin as [Hbr Hnext]; [by eapply ends_inside_frame|]. split.
    + intros Hb. eapply target_done_mono; [exact Hle | by apply Hbr].
    + intros Hst Hlt. eapply byte_has_mono; [exact Hle|]. apply Hnext; [done|].
      by rewrite Hl.
Qed.

Lemma frame_lookup_back p p' si s' :
  pe_frame p = pe_frame p' -> sections p' !! si = Some s' ->
  exists s, sections p !! si = Some s /\ sec_frame s = sec_frame s'.
Proof.
  intros Hfr Hs'.
  destruct (frame_lookup p' p si s' (eq_sym Hfr) Hs') as (s & Hs & Hf).
  by exists s.
Qed.

Lemma advance_quiet w w' :
  w_pe w' = w_pe w -> w_file w' = w_file w -> advance w w'.
Proof.
  intros Hpe Hfile. split; [rewrite Hpe; apply pe_le_refl|].
  split; [done|]. intros si sec relip _ Hb. left. by rewrite <- Hpe.
Qed.

#[global] Instance advance_pre : PreOrder advance.
Proof.
  split.
  - intros w. by apply advance_quiet.
  - intros w1 w2 w3 (Hle1 & Hf1 & Hfol1) (Hle2 & Hf2 & Hfol2).
    split; [by eapply pe_le_trans|]. split; [congruence|].
    intros si sec3 relip Hs3 Hb.
    destruct (frame_lookup_back _ _ si sec3 (proj1 Hle2) Hs3)
      as (sec2 & Hs2 & Hfr2).
    destruct (Hfol2 si sec3 relip Hs3 Hb) as [Hb2|Hdone]; [|by right].
    destruct (Hfol1 si sec2 relip Hs2 Hb2) as [Hb1|[Hlt Hdone]];
      [by left|]. right.
    pose proof Hfr2 as (_ & _ & Hl & _)%sec_frame_fields.
    split; [by rewrite <- Hl|]. by eapply followed_mono.
Qed.

(** Marking a branch target makes no instruction start. *)
Lemma advance_target w ti trelip m p :
  m = INSTR_FUNC \/ m = INSTR_JUMP ->
  flags_or ti trelip m (w_pe w) = Done p -> advance w (set_pe w p).
Proof.
  intros Hm Hor. split; [|split; [done|]].
  - eapply flags_or_le; [|exact Hor]. tauto.
  - intros si sec relip _ Hb. left. simpl in Hb.
    eapply flags_or_keeps; [exact Hor| | apply valid_bit | | exact Hb].
    + destruct Hm as [-> | ->]; [apply func_bit | apply jump_bit].
    + destruct Hm as [-> | ->]; [apply func_valid | apply jump_valid].
Qed.

(** A completed call of the loop leaves the byte it started at
    [INSTR_SCANNED], if that byte lies inside the file contents. *)
Lemma scan_loop_settles n si ip relip w w' sec :
  wf_pe (w_pe w) -> sections (w_pe w) !! si = Some sec ->
  0 <= relip -> relip < min_alloc sec -> relip < sec_length sec ->
  scan_loop n si ip relip w = Done w' ->
  byte_has (w_pe w') si relip INSTR_SCANNED.
Proof.
  intros Hwf Hsec Hr Hin Hlt Hl.
  destruct n as [|n]; [done|]. apply scan_loop_cases in Hl.
  destruct Hl as [sec' Hs' Hge ->|sec' f' Hs' _ Hf' Hsc ->
                 |sec' f' buffer wr ins len i p Hs' _ Hf' Hsc Hrw Hgi Hm Hafter];
    assert (sec' = sec) as -> by congruence.
  - lia.
  - by exists f'.
  - pose proof Hf' as [_ Hfa]%flags_get_Done.
    pose proof (wf_pe_lookup _ _ _ Hwf Hsec) as
      (Hlen & Hma & Had & Hfit & _)%wf_frame_fields.
    pose proof (get_instr_length ip buffer 1) as Hlb. rewrite Hgi in Hlb.
    simpl in Hlb. pose proof max_instr_pos.
    pose proof (mark_instr_spec _ _ _ _ _ _ _ _ Hm Hfa ltac:(lia) ltac:(lia)
      ltac:(lia)) as (_ & (g & Hg & _ & Hgs) & _).
    assert (Hp : byte_has p si relip INSTR_SCANNED).
    { apply byte_has_at. split; [done|]. by exists g. }
    eapply byte_has_mono; [|exact Hp].
    assert (Hscan : forall ip w w', scan_enter (scan_loop n) ip w = Done w' ->
      pe_le (w_pe w) (w_pe w')) by (intros *; apply scan_segment_le).
    destruct Hafter as [_ ->|_ Hb3 _|w3 _ Hb3 _ Hl3].
    + apply pe_le_refl.
    + by apply scan_branch_le in Hb3.
    + apply scan_branch_le in Hb3; [|done]. apply scan_loop_le in Hl3.
      by eapply pe_le_trans.
Qed.

Lemma scan_enter_advance loop :
  loop_advances loop ->
  forall ip w w', wf_pe (w_pe w) -> scan_enter loop ip w = Done w' ->
    advance w w'.
Proof.
  intros Hloop ip w w' Hwf
    [[_ ->]|(si & sec & f & Ha & Hs & Hf & Hl)]%scan_enter_cases.
  - by apply advance_quiet.
  - destruct (addr2section_wf _ _ _ Hwf Ha) as (sec' & Hs' & Hin & Hu).
    assert (sec' = sec) as -> by congruence.
    rewrite Hu in Hl.
    assert (Hq : forall w1, w1 = (if Z.land f (Z.lor INSTR_VALID INSTR_SCANNED)
                                    =? INSTR_SCANNED
                                  then warn_at ip NotInstrStart w else w) ->
                 w_pe w1 = w_pe w /\ w_file w1 = w_file w).
    { intros w1 ->. by destruct (_ =? _). }
    destruct (Hq _ eq_refl) as [Hpe1 Hfile1].
    etrans; [by apply advance_quiet|].
    eapply (Hloop si ip (ip - address sec) _ w' sec); try exact Hl.
    + by rewrite Hpe1.
    + by rewrite Hpe1.
    + lia.
    + intros _. lia.
    + lia.
Qed.

(** The branch of a decoded instruction: when [scan_branch] returns, the
    scan has advanced and the target is done with. *)
Lemma scan_branch_advance n ip ins w w' :
  loop_advances (scan_loop n) -> wf_pe (w_pe w) ->
  scan_branch (scan_enter (scan_loop n)) ip ins w = Done w' ->
  advance w w' /\
  (has (op_flags (instr_op ins)) OP_BRANCH = true ->
   target_done ins (w_pe w')).
Proof.
  intros Hloop Hwf Hc%scan_branch_cases.
  destruct Hc as [[Hnb ->]|[(_ & Hno & ->)
                 |(_ & ti & tsec & m & p & Ha & Ht & Hm & Hor & Hs)]].
  - split; [reflexivity | congruence].
  - split; [by apply advance_quiet|]. intros _ ti tsec Ha. simpl in Ha.
    congruence.
  - assert (Hmm : m = INSTR_FUNC \/ m = INSTR_JUMP).
    { rewrite Hm. destruct (String.eqb _ _); auto. }
    pose proof (advance_target w _ _ _ _ Hmm Hor) as Hadv1.
    pose proof Hor as (f0 & Hr0 & Hf0 & Hfr0 & Hat0)%flags_or_Done.
    assert (Hwf1 : wf_pe (w_pe (set_pe w p))).
    { simpl. eapply wf_pe_frame; [symmetry; exact Hfr0 | done]. }
    pose proof (scan_enter_advance _ Hloop _ _ _ Hwf1 Hs) as Hadv2.
    split; [by etrans|]. intros _.
    pose proof (scan_segment_settles n _ _ _ Hwf1 Hs) as Hset.
    destruct Hadv2 as (Hle2 & _ & _). simpl in Hle2.
    assert (Hmark : byte_has p ti (u32 (arg0 ins - address tsec)) m).
    { apply byte_has_at. split; [done|]. exists (Z.lor f0 m). split.
      - rewrite Hat0. by rewrite decide_True.
      - apply has_lor_self.
        destruct Hmm as [-> | ->]; [apply func_bit | apply jump_bit]. }
    eapply byte_has_mono in Hmark; [|exact Hle2].
    intros ti' tsec' Ha' Hs'.
    assert (Hfr : pe_frame (w_pe w) = pe_frame (w_pe w'))
      by (rewrite <- Hfr0; apply Hle2).
    rewrite <- (addr2section_frame _ _ _ Hfr) in Ha'.
    assert (ti' = ti) as -> by congruence.
    destruct (frame_lookup _ _ ti tsec Hfr Ht) as (s2 & Hs2 & Hf2).
    assert (s2 = tsec') as -> by congruence.
    apply sec_frame_fields in Hf2 as (_ & Had & _).
    rewrite (addr2section_frame _ _ _ Hfr) in Ha'.
    destruct (Hset ti tsec' Ha' Hs') as (f & Hf & Hsc).
    exists f. split; [done|]. split; [|done].
    destruct Hmark as (f2 & Hf2 & Hh2). rewrite Had in Hf2.
    assert (f2 = f) as -> by congruence.
    unfold target_mark. by rewrite <- Hm.
Qed.

(** The instruction an iteration has decoded and marked is followed once
    the scan of what comes after it is complete. *)
Lemma advance_instr w w2 w' si sec relip ins len :
  sections (w_pe w) !! si = Some sec ->
  decode_at sec relip w = (ins, len) -> relip < sec_length sec ->
  pe_le (w_pe w) (w_pe w2) -> w_file w2 = w_file w ->
  (forall sj j, byte_has (w_pe w2) sj j INSTR_VALID ->
     byte_has (w_pe w) sj j INSTR_VALID \/ (sj = si /\ j = relip)) ->
  (forall k, relip <= k < Z.min (relip + len) (min_alloc sec) ->
     byte_has (w_pe w2) si k INSTR_SCANNED) ->
  advance w2 w' ->
  (ends_inside sec relip len ->
   (has (op_flags (instr_op ins)) OP_BRANCH = true ->
    target_done ins (w_pe w')) /\
   (has (op_flags (instr_op ins)) OP_STOP = false ->
    relip + len < sec_length sec ->
    byte_has (w_pe w') si (relip + len) INSTR_SCANNED)) ->
  advance w w'.
Proof.
  intros Hsec Hdec Hlt Hle Hfile Hval Hspan (Hle2 & Hfile2 & Hfol2) Hends.
  assert (Hle3 : pe_le (w_pe w) (w_pe w')) by (by eapply pe_le_trans).
  split; [done|]. split; [congruence|].
  intros sj secj j Hsj Hb.
  destruct (Hfol2 sj secj j Hsj Hb) as [Hb2|Hdone]; [|by right].
  destruct (Hval sj j Hb2) as [Hb1|[-> ->]]; [by left|]. right.
  destruct (frame_lookup _ _ si sec (proj1 Hle3) Hsec) as (s' & Hs' & Hfr).
  assert (s' = secj) as -> by congruence.
  pose proof Hfr as (Hm & Ha & Hl & _)%sec_frame_fields.
  split; [by rewrite <- Hl|].
  intros ins' len' Hdec'.
  rewrite <- (decode_at_frame sec secj relip w w' Hfr) in Hdec'
    by congruence.
  assert (ins' = ins /\ len' = len) as [-> ->] by (split; congruence).
  split.
  - intros k Hk. eapply byte_has_mono; [exact Hle2|]. apply Hspan.
    by rewrite Hm.
  - intros He. rewrite <- Hl. apply Hends.
    eapply ends_inside_frame; [symmetry; exact Hfr | done].
Qed.

Lemma scan_loop_advance n : loop_advances (scan_loop n).
Proof.
  induction n as [|n IH]; intros si ip relip w w' sec Hwf Hsec Hr Hin Hip;
    [done|].
  intros Hc%scan_loop_cases.
  destruct Hc as [sec' _ _ ->|sec' f _ _ _ _ ->
                 |sec' f buffer wr ins len i p Hsec' Hlt Hf Hs Hrw Hgi Hm Hafter].
  - by apply advance_quiet.
  - by apply advance_quiet.
  - assert (sec' = sec) as -> by congruence. specialize (Hin Hlt).
    pose proof (wf_pe_lookup _ _ _ Hwf Hsec) as
      (Hlen & Hma & Had & Hfit & Hzero)%wf_frame_fields.
    pose proof (get_instr_length ip buffer 1) as Hlb. rewrite Hgi in Hlb.
    simpl in Hlb. pose proof max_instr_pos as Hmax.
    pose proof Hf as [_ Hfa]%flags_get_Done.
    pose proof (mark_instr_spec _ _ _ _ _ _ _ _ Hm Hfa ltac:(lia) ltac:(lia)
      ltac:(lia)) as (Hi & _).
    pose proof (mark_instr_le _ _ _ _ _ _ _ Hm) as [Hle1 _].
    pose proof (mark_instr_valid _ _ _ _ _ _ _ Hm) as Hval.
    pose proof (mark_instr_span _ _ _ _ _ _ _ Hm Hr ltac:(lia) ltac:(lia))
      as Hspan.
    assert (Hdec : decode_at sec relip w = (ins, len)).
    { unfold decode_at. rewrite <- Hip.
      change (read_window sec relip w).1
        with (read_window sec relip (tick w)).1.
      by rewrite Hrw. }
    apply read_window_frame in Hrw as (Hpe & _ & _ & _ & Hfile & _).
    assert (Hwf2 : wf_pe p) by (eapply wf_pe_frame; [apply Hle1 | done]).
    assert (Hrest : advance (set_pe wr p) w' /\
      (ends_inside sec relip len ->
       (has (op_flags (instr_op ins)) OP_BRANCH = true ->
        target_done ins (w_pe w')) /\
       (has (op_flags (instr_op ins)) OP_STOP = false ->
        relip + len < sec_length sec ->
        byte_has (w_pe w') si (relip + len) INSTR_SCANNED))).
    { destruct Hafter as [Hbr ->|Hbr Hb3 Hstop|w3 Hbr Hb3 Hstop Hl3];
        rewrite (u32_small (ip + len)) in * by lia.
      - split; [by apply advance_quiet|]. unfold ends_inside. lia.
      - apply scan_branch_advance in Hb3 as [Hadv Htgt]; [|done..].
        split; [done|]. intros _. split; [done | congruence].
      - apply scan_branch_advance in Hb3 as [Hadv3 Htgt3]; [|done..].
        rewrite (u32_small (ip + len - address sec)) in Hl3 by lia.
        replace (ip + len - address sec) with (relip + len) in Hl3 by lia.
        assert (Hfr3 : pe_frame (w_pe w) = pe_frame (w_pe w3)).
        { destruct Hadv3 as ([Hfr3 _] & _). simpl in Hfr3.
          rewrite <- Hfr3. apply Hle1. }
        destruct (frame_lookup _ _ si sec Hfr3 Hsec) as (sec3 & Hsec3 & Hf3).
        pose proof Hf3 as (Hm3 & Ha3 & Hl3' & _)%sec_frame_fields.
        assert (Hwf3 : wf_pe (w_pe w3)) by (by eapply wf_pe_frame).
        pose proof (IH si (ip + len) (relip + len) w3 w' sec3 Hwf3 Hsec3
          ltac:(lia) ltac:(lia) ltac:(lia) Hl3) as Hadv'.
        split; [by etrans|]. intros He. split.
        + intros Hb. eapply target_done_mono; [apply Hadv' | by apply Htgt3].
        + intros _ Hnext.
          apply (scan_loop_settles n si (ip + len) (relip + len) w3 w' sec3);
            try done; unfold ends_inside in He; lia. }
    destruct Hrest as [Hadv Hends].
    eapply (advance_instr w (set_pe wr p) w' si sec relip ins len); done.
Qed.

Lemma scan_segment_advance fuel ip w w' :
  wf_pe (w_pe w) -> scan_segment fuel ip w = Done w' -> advance w w'.
Proof. apply scan_enter_advance, scan_loop_advance. Qed.

Lemma reachable_followed w :
  reachable w ->
  wf_pe (w_pe w) /\
  forall si sec relip,
    sections (w_pe w) !! si = Some sec ->
    byte_has (w_pe w) si relip INSTR_VALID ->
    relip < sec_length sec /\ followed w si sec relip.
Proof.
  induction 1 as [w Hwf Hempty|w fuel ip w' _ [Hwf IH] Hscan].
  - split; [done|]. intros si sec relip _ (_ & f & Hf & Hh)%byte_has_at.
    rewrite (Hempty _ _ _ Hf), has_zero in Hh. done.
  - pose proof (scan_segment_advance _ _ _ _ Hwf Hscan) as (Hle & Hfile & Hfol).
    split; [eapply wf_pe_frame; [apply Hle | done]|].
    intros si sec' relip Hs' Hb.
    destruct (Hfol si sec' relip Hs' Hb) as [Hb0|Hdone]; [|done].
    destruct (frame_lookup_back _ _ si sec' (proj1 Hle) Hs')
      as (sec & Hs & Hfr).
    destruct (IH si sec relip Hs Hb0) as [Hlt Hdone].
    pose proof Hfr as (_ & _ & Hl & _)%sec_frame_fields.
    split; [by rewrite <- Hl|]. by eapply followed_mono.
Qed.


End Closure.

Lemma demo_fork_scan :
  scan_segment (SH := Demo.semblance_h) (XH := Demo.x86_instr_h) 6 4096
    Demo.fork = Done Demo.fork_scanned.
Proof. vm_compute. reflexivity. Qed.

Lemma demo_fork_reachable :
  reachable (SH := Demo.semblance_h) (XH := Demo.x86_instr_h)
    Demo.fork_scanned.
Proof.
  apply (reach_scan Demo.fork 6%nat 4096 _); [|exact demo_fork_scan].
  apply reach_init.
  - apply demo_one_section_wf; lia.
  - apply demo_one_section_empty.
Qed.


(** ** The sweep of the renderer *)

Section Sweep.
Context {SH : Semblance_h} {XH : X86_instr_h} {HL : HeaderLaws}.

(** One iteration of the loop of [print_disassembly] is the search
    followed by the rest. *)
Lemma disassembly_step_parts si sec relip w :
  disassembly_step si sec relip w =
    let w0 := fseek (u32 (offset sec + relip)) w in
    do f <- flags_get si relip (w_pe w0);
    do (r, w1) <- sweep_find si sec relip f w0;
    sweep_tail si sec r w1.
Proof. reflexivity. Qed.

Lemma rendered_pe w w' : rendered w w' -> w_pe w' = w_pe w.
Proof. by intros [? _]. Qed.

(** The rest of an iteration at an offset inside the map: it returns at
    the end of the section, and prints the instruction at [relip]
    otherwise. *)
Lemma sweep_tail_spec si sec relip w :
  wf_pe (w_pe w) -> sections (w_pe w) !! si = Some sec -> 0 <= relip ->
  ((sec_length sec <= relip \/ min_alloc sec <= relip) /\
   exists w', sweep_tail si sec relip w = Done (Return w') /\
     w_stdout w' = w_stdout w /\ rendered w w') \/
  (relip < sec_length sec /\ relip < min_alloc sec /\
   exists f len out w',
     flags_get si relip (w_pe w) = Done f /\
     print_pe_instr si sec (address sec + relip) (read_window sec relip w).1
       (w_pe w) = Done (len, out) /\
     len = (decode_at sec relip w).2 /\ 1 <= len <= MAX_INSTR /\
     sweep_tail si sec relip w = Done (Next (relip + len) w') /\
     w_stdout w' = w_stdout w ++
       func_header f (address sec + relip) (w_pe w) ++ [InstrLine out] /\
     rendered w w').
Proof.
  intros Hwf Hsec Hr.
  pose proof (wf_pe_lookup _ _ _ Hwf Hsec) as
    (Hlen & Hma & Had & Hfit & _)%wf_frame_fields.
  pose proof max_instr_pos as Hmax.
  unfold sweep_tail.
  destruct (Z.leb_spec (sec_length sec) relip) as [Hl|Hl]; cbn [orb].
  { left. split; [by left|]. eexists. split; [done|]. split; [done|].
    apply rendered_fpos. }
  destruct (Z.leb_spec (min_alloc sec) relip) as [Hm|Hm].
  { left. split; [by right|]. eexists. split; [done|]. split; [done|].
    apply rendered_fpos. }
  right. split; [done|]. split; [done|].
  assert (Hb : (Z.to_nat relip < length (instr_flags sec))%nat) by lia.
  apply lookup_lt_is_Some in Hb as [f Hf].
  assert (Hg : flags_get si relip (w_pe w) = Done f).
  { apply flags_get_Done. split; [done|]. unfold flag_at. by rewrite Hsec. }
  rewrite (u32_small (relip + address sec)) by lia.
  replace (relip + address sec) with (address sec + relip) by lia.
  destruct (print_pe_instr_total si sec (address sec + relip)
    (read_window sec relip w).1 (w_pe w) f) as (len & out & Hp).
  { replace (address sec + relip - address sec) with relip by lia.
    by rewrite u32_small by lia. }
  assert (Hlen' : len = (decode_at sec relip w).2 /\ 1 <= len <= MAX_INSTR).
  { unfold print_pe_instr in Hp. unfold decode_at.
    pose proof (get_instr_length (address sec + relip)
      (read_window sec relip w).1 1) as Hb.
    destruct (get_instr (address sec + relip) (read_window sec relip w).1 1)
      as [ins l]. simpl in *.
    destruct (flags_get si (u32 (address sec + relip - address sec)) (w_pe w));
      [|done..]. cbn [bind] in Hp. injection Hp as <- _. done. }
  destruct Hlen' as [Hdec Hbound].
  exists f, len, out. pose proof Hp as Hp0.
  unfold read_window in Hp. unfold fread_buffer in *.
  cbn [fst w_file w_fpos fseek set_fpos printf] in *.
  cbn [w_pe set_fpos fseek printf]. rewrite Hg. cbn [bind].
  unfold func_header. destruct (has f INSTR_FUNC).
  - cbn [w_pe printf set_fpos fseek]. rewrite Hp. cbn [bind].
    rewrite (u32_small (relip + len)) by lia.
    eexists. repeat split; try done; try lia.
    + simpl. by rewrite <- !app_assoc.
    + simpl. eexists. by rewrite <- !app_assoc.
  - cbn [w_pe printf set_fpos fseek]. rewrite Hp. cbn [bind].
    rewrite (u32_small (relip + len)) by lia.
    eexists. repeat split; try done; try lia. simpl. by eexists.
Qed.

(** One iteration of the sweep at a byte that is [INSTR_VALID]. *)
Lemma sweep_at_valid si sec relip w f :
  wf_pe (w_pe w) -> sections (w_pe w) !! si = Some sec ->
  relip < sec_length sec ->
  flags_get si relip (w_pe w) = Done f -> has f INSTR_VALID = true ->
  exists len out w',
    len = (decode_at sec relip w).2 /\
    print_pe_instr si sec (address sec + relip) (read_window sec relip w).1
      (w_pe w) = Done (len, out) /\
    disassembly_step si sec relip w = Done (Next (relip + len) w') /\
    w_stdout w' = w_stdout w ++
      func_header f (address sec + relip) (w_pe w) ++ [InstrLine out].
Proof.
  intros Hwf Hsec Hlt Hf Hv.
  pose proof Hf as [Hr Hfa]%flags_get_Done.
  rewrite disassembly_step_parts. cbn zeta.
  change (w_pe (fseek (u32 (offset sec + relip)) w)) with (w_pe w).
  rewrite Hf. cbn [bind]. unfold sweep_find. rewrite Hv. cbn [negb bind].
  destruct (sweep_tail_spec si sec relip (fseek (u32 (offset sec + relip)) w)
    Hwf Hsec Hr)
    as [[Hend _]|(_ & _ & f' & len & out & w' & Hf' & Hp & Hdec & _ & Ht & Hout & _)].
  { pose proof (wf_pe_lookup _ _ _ Hwf Hsec) as (Hlen & _)%wf_frame_fields.
    unfold flag_at in Hfa. rewrite Hsec in Hfa.
    apply lookup_lt_Some in Hfa. lia. }
  change (w_pe (fseek (u32 (offset sec + relip)) w)) with (w_pe w) in *.
  assert (f' = f) as -> by congruence.
  by exists len, out, w'.
Qed.

(** A byte marked as the start of an instruction is printed where it is,
    in either mode: no gap marker, the label of a function if the byte is
    [INSTR_FUNC], then the line of the instruction decoded from the window
    at that offset, the one the scanner decodes there; the sweep moves on by
    the length of that instruction. *)
Theorem disassembly_step_valid (si : nat) (sec : section) (relip : Z)
    (w : world) (f : Z) :
  wf_pe (w_pe w) -> sections (w_pe w) !! si = Some sec ->
  relip < sec_length sec ->
  flags_get si relip (w_pe w) = Done f -> has f INSTR_VALID = true ->
  exists len out w',
    len = (decode_at sec relip w).2 /\
    print_pe_instr si sec (address sec + relip) (read_window sec relip w).1
      (w_pe w) = Done (len, out) /\
    disassembly_step si sec relip w = Done (Next (relip + len) w') /\
    w_stdout w' = w_stdout w ++
      func_header f (address sec + relip) (w_pe w) ++ [InstrLine out].
Proof. apply sweep_at_valid. Qed.

Lemma skip_zeroes_run n relip w :
  0 <= w_fpos w -> (length (w_file w) - Z.to_nat (w_fpos w) < n)%nat ->
  0 <= relip -> relip + Z.of_nat n < 2 ^ 32 ->
  (skip_zeroes n relip w).1
  = relip + Z.of_nat
      (leading_zeroes (drop (Z.to_nat (w_fpos w)) (w_file w))) /\
  w_stdout (skip_zeroes n relip w).2 = w_stdout w.
Proof.
  revert relip w. induction n as [|n IH]; intros relip w Hpos Hn Hr Hfit;
    [lia|].
  cbn [skip_zeroes]. unfold read_byte.
  destruct (w_file w !! Z.to_nat (w_fpos w)) as [b|] eqn:Hb.
  - pose proof (lookup_lt_Some _ _ _ Hb) as Hlt.
    rewrite (drop_S _ _ _ Hb). cbn [leading_zeroes].
    destruct (b =? 0); [|simpl; split; [lia | done]].
    rewrite (u32_small (relip + 1)) by lia.
    destruct (IH (relip + 1) (set_fpos w (w_fpos w + 1))) as [Hrun Hout];
      try (simpl; lia).
    rewrite Hrun, Hout. simpl.
    replace (Z.to_nat (w_fpos w + 1)) with (S (Z.to_nat (w_fpos w))) by lia.
    split; [lia | done].
  - apply lookup_ge_None in Hb. rewrite drop_ge by done. simpl.
    split; [lia | done].
Qed.

(** The search of one iteration, at an offset inside the map: it does not
    fault, and the offset it yields is not below the one it started at. *)
Lemma sweep_find_total si sec relip f w :
  wf_pe (w_pe w) -> sections (w_pe w) !! si = Some sec ->
  0 <= relip -> 0 <= w_fpos w ->
  Z.of_nat (length (w_file w)) < 2 ^ 31 -> relip < min_alloc sec ->
  exists r w1, sweep_find si sec relip f w = Done (r, w1) /\
    relip <= r /\ rendered w w1.
Proof.
  intros Hwf Hsec Hr Hpos Hfile Hm.
  pose proof (wf_pe_lookup _ _ _ Hwf Hsec) as
    (Hlen & Hma & Had & Hfit & _)%wf_frame_fields.
  pose proof max_instr_pos as Hmax.
  unfold sweep_find. destruct (has f INSTR_VALID); cbn [negb].
  2: destruct (has (w_opts w) DISASSEMBLE_ALL).
  - exists relip, w. split; [done|]. split; [lia | apply rendered_refl].
  - pose proof (read_byte_rendered w) as Hrb.
    assert (Hp1 : 0 <= w_fpos (read_byte w).2).
    { unfold read_byte. destruct (w_file w !! _); simpl; lia. }
    assert (Hf1 : w_file (read_byte w).2 = w_file w) by apply Hrb.
    destruct (read_byte w) as [b w1]. cbn [snd] in *.
    set (rw := if b =? 0 then (u32 (relip + 1), printf [GapMarker] w1)
               else (relip, w1)).
    assert (Hrw : relip <= rw.1 <= relip + 1 /\ rendered w rw.2 /\
                  w_fpos rw.2 = w_fpos w1 /\ w_file rw.2 = w_file w).
    { unfold rw. destruct (b =? 0); cbn [fst snd].
      - rewrite (u32_small (relip + 1)) by lia. split; [lia|]. split; [|done].
        eapply rendered_trans; [exact Hrb | apply rendered_printf].
      - split; [lia|]. done. }
    destruct rw as [r1 w2]. cbn [fst snd] in Hrw.
    destruct Hrw as (Hr1 & Hrd & Hp2 & Hf2).
    destruct (skip_zeroes_run (S (length (w_file w2))) r1 w2) as [Hrun _];
      try lia.
    { rewrite Hf2. lia. }
    pose proof (skip_zeroes_rendered (S (length (w_file w2))) r1 w2) as Hz.
    destruct (skip_zeroes (S (length (w_file w2))) r1 w2) as [r w3].
    cbn [fst snd] in *. exists r, w3. split; [done|]. split; [lia|].
    by eapply rendered_trans.
  - change (w_pe (printf [GapMarker] w)) with (w_pe w).
    destruct (skip_invalid_spec (Z.to_nat (min_alloc sec - relip)) si sec
      relip (w_pe w) Hsec Hlen ltac:(lia) Hr (Nat.le_refl _))
      as (r & Hskip & Hle & _).
    rewrite Hskip. cbn [bind]. exists r, (printf [GapMarker] w).
    split; [done|]. split; [done | apply rendered_printf].
Qed.

(** One iteration of the sweep at an offset inside the map does not
    fault, and if the sweep goes on, the offset has grown. *)
Lemma disassembly_step_total si sec relip w :
  wf_pe (w_pe w) -> sections (w_pe w) !! si = Some sec ->
  0 <= relip -> relip < min_alloc sec ->
  Z.of_nat (length (w_file w)) < 2 ^ 31 ->
  exists res, disassembly_step si sec relip w = Done res /\
    match res with
    | Return w' => rendered w w'
    | Next r' w' => relip < r' /\ rendered w w'
    end.
Proof.
  intros Hwf Hsec Hr Hm Hfile.
  pose proof (wf_pe_lookup _ _ _ Hwf Hsec) as
    (Hlen & Hma & Had & Hfit & _)%wf_frame_fields.
  rewrite disassembly_step_parts. cbn zeta.
  set (w0 := fseek (u32 (offset sec + relip)) w).
  assert (H0 : rendered w w0) by apply rendered_fpos.
  change (w_pe w0) with (w_pe w).
  assert (Hb : (Z.to_nat relip < length (instr_flags sec))%nat) by lia.
  apply lookup_lt_is_Some in Hb as [f Hf].
  assert (Hg : flags_get si relip (w_pe w) = Done f).
  { apply flags_get_Done. split; [done|]. unfold flag_at. by rewrite Hsec. }
  rewrite Hg. cbn [bind].
  destruct (sweep_find_total si sec relip f w0) as (r & w1 & Hfind & Hle & Hr1);
    try done.
  { unfold w0, u32. simpl. apply Z.mod_pos_bound. lia. }
  rewrite Hfind. cbn [bind].
  pose proof (rendered_pe _ _ Hr1) as Hpe1.
  change (w_pe w0) with (w_pe w) in Hpe1.
  destruct (sweep_tail_spec si sec r w1) as
    [(_ & w' & Ht & _ & Hrd)
    |(_ & _ & f' & len & out & w' & _ & _ & _ & Hlb & Ht & _ & Hrd)];
    try (rewrite Hpe1; done); try lia.
  - exists (Return w'). split; [done|].
    eapply rendered_trans; [exact H0|]. by eapply rendered_trans.
  - exists (Next (r + len) w'). split; [done|]. split; [lia|].
    eapply rendered_trans; [exact H0|]. by eapply rendered_trans.
Qed.

Lemma print_loop_total fuel si sec relip w :
  wf_pe (w_pe w) -> sections (w_pe w) !! si = Some sec ->
  sec_length sec <= min_alloc sec ->
  Z.of_nat (length (w_file w)) < 2 ^ 31 -> 0 <= relip ->
  (Z.to_nat (sec_length sec - relip) < fuel)%nat ->
  exists w', print_loop fuel si sec relip w = Done w'.
Proof.
  intros Hwf Hsec Hfits Hfile. revert relip w Hwf Hsec Hfile.
  induction fuel as [|n IH]; intros relip w Hwf Hsec Hfile Hr Hfuel; [lia|].
  cbn [print_loop].
  destruct (Z.ltb_spec relip (sec_length sec)) as [Hlt|Hge]; [|by eexists].
  destruct (disassembly_step_total si sec relip w Hwf Hsec Hr ltac:(lia) Hfile)
    as (res & Hstep & Hres).
  rewrite Hstep. cbn [bind]. destruct res as [r' w'|w']; [|by eexists].
  destruct Hres as [Hgt (Hpe & Hf & _)].
  apply IH; try lia; by rewrite ?Hpe, ?Hf.
Qed.

(** On a section whose file contents do not exceed its allocation,
    [print_disassembly] returns, in either mode and whatever the
    classification map holds: it reads no byte outside the map, and every
    iteration of its loop that does not return moves the offset forward, so
    that fuel beyond the length of the section is never used up. The image,
    the file and the warnings are as before. *)
Theorem print_disassembly_terminates (fuel : nat) (si : nat) (sec : section)
    (w : world) :
  wf_pe (w_pe w) -> sections (w_pe w) !! si = Some sec ->
  sec_length sec <= min_alloc sec ->
  Z.of_nat (length (w_file w)) < 2 ^ 31 ->
  (Z.to_nat (sec_length sec) < fuel)%nat ->
  exists w', print_disassembly fuel si w = Done w' /\
    w_pe w' = w_pe w /\ w_file w' = w_file w /\ w_stderr w' = w_stderr w /\
    exists ls, w_stdout w' = w_stdout w ++ ls.
Proof.
  intros Hwf Hsec Hfits Hfile Hfuel.
  destruct (print_loop_total fuel si sec 0 w Hwf Hsec Hfits Hfile ltac:(lia))
    as [w' Hw']; [by rewrite Z.sub_0_r|].
  exists w'. unfold print_disassembly. rewrite Hsec. split; [done|].
  apply print_loop_rendered in Hw' as (? & ? & _ & ? & ?). done.
Qed.

(** Where the file contents of a section exceed its allocation, an
    instruction start whose instruction ends at or past [min_alloc] and
    before [length] makes the next iteration of the loop of
    [print_disassembly] read [instr_flags] at an index outside the map. *)
Theorem print_disassembly_reads_past_map (n : nat) (si : nat)
    (sec : section) (relip : Z) (w : world) (f : Z) (ins : instr) (len : Z) :
  wf_pe (w_pe w) -> sections (w_pe w) !! si = Some sec ->
  relip < sec_length sec ->
  flags_get si relip (w_pe w) = Done f -> has f INSTR_VALID = true ->
  decode_at sec relip w = (ins, len) ->
  min_alloc sec <= relip + len < sec_length sec ->
  print_loop (S (S n)) si sec relip w = Fault.
Proof.
  intros Hwf Hsec Hlt Hf Hv Hdec Hover.
  destruct (sweep_at_valid si sec relip w f Hwf Hsec Hlt Hf Hv)
    as (len' & out & w' & Hlen' & _ & Hstep & _).
  rewrite Hdec in Hlen'. cbn [snd] in Hlen'. subst len'.
  pose proof (disassembly_step_rendered _ _ _ _ _ Hstep) as Hrd.
  cbn beta iota in Hrd. apply rendered_pe in Hrd.
  pose proof (wf_pe_lookup _ _ _ Hwf Hsec) as
    (Hlen & Hma & _)%wf_frame_fields.
  cbn [print_loop]. rewrite (proj2 (Z.ltb_lt _ _) Hlt), Hstep. cbn [bind].
  rewrite (proj2 (Z.ltb_lt (relip + len) (sec_length sec))) by lia.
  rewrite disassembly_step_parts. cbn zeta.
  change (w_pe (fseek (u32 (offset sec + (relip + len))) w')) with (w_pe w').
  assert (Hg : flags_get si (relip + len) (w_pe w') = Fault).
  { rewrite Hrd. unfold flags_get. rewrite Hsec.
    destruct (0 <=? relip + len); [|done].
    by rewrite (proj2 (lookup_ge_None _ _)) by lia. }
  by rewrite Hg.
Qed.

End Sweep.

Lemma demo_fork_wf :
  wf_pe (SH := Demo.semblance_h) (w_pe Demo.fork_scanned).
Proof. exact (proj1 (reachable_followed (HL := demo_laws) _ demo_fork_reachable)). Qed.

Lemma disassembly_step_valid_witness :
  exists len out w',
    len = (decode_at (SH := Demo.semblance_h) (XH := Demo.x86_instr_h)
             (mk_section ".text" 8 4096 8 0 32 [3; 1; 3; 3; 7; 0; 0; 0]) 0
             Demo.fork_scanned).2 /\
    print_pe_instr (XH := Demo.x86_instr_h) 0
      (mk_section ".text" 8 4096 8 0 32 [3; 1; 3; 3; 7; 0; 0; 0]) (4096 + 0)
      (read_window (SH := Demo.semblance_h)
         (mk_section ".text" 8 4096 8 0 32 [3; 1; 3; 3; 7; 0; 0; 0]) 0
         Demo.fork_scanned).1 (w_pe Demo.fork_scanned) = Done (len, out) /\
    disassembly_step (SH := Demo.semblance_h) (XH := Demo.x86_instr_h) 0
      (mk_section ".text" 8 4096 8 0 32 [3; 1; 3; 3; 7; 0; 0; 0]) 0
      Demo.fork_scanned = Done (Next (0 + len) w') /\
    w_stdout w' = [] ++ [] ++ [InstrLine out].
Proof.
  exact (disassembly_step_valid (HL := demo_laws) 0%nat
           (mk_section ".text" 8 4096 8 0 32 [3; 1; 3; 3; 7; 0; 0; 0]) 0
           Demo.fork_scanned 3 demo_fork_wf eq_refl eq_refl eq_refl eq_refl).
Defined.

Lemma print_disassembly_terminates_witness :
  exists w',
    print_disassembly (SH := Demo.semblance_h) (XH := Demo.x86_instr_h) 9 0
      Demo.fork_scanned = Done w' /\
    w_pe w' = w_pe Demo.fork_scanned /\
    w_file w' = w_file Demo.fork_scanned /\
    w_stderr w' = w_stderr Demo.fork_scanned /\
    exists ls, w_stdout w' = w_stdout Demo.fork_scanned ++ ls.
Proof.
  apply (print_disassembly_terminates (HL := demo_laws) 9%nat 0%nat
           (mk_section ".text" 8 4096 8 0 32 [3; 1; 3; 3; 7; 0; 0; 0])
           Demo.fork_scanned demo_fork_wf eq_refl).
  - simpl. lia.
  - simpl. lia.
  - simpl. lia.
Defined.

Lemma demo_short_alloc_wf :
  wf_pe (SH := Demo.semblance_h) (w_pe Demo.short_alloc_scanned).
Proof.
  apply (wf_pe_frame (w_pe Demo.short_alloc)); [reflexivity|].
  apply demo_one_section_wf; lia.
Qed.

Lemma print_disassembly_reads_past_map_witness :
  print_disassembly (SH := Demo.semblance_h) (XH := Demo.x86_instr_h) 2 0
    Demo.short_alloc_scanned = Fault.
Proof.
  exact (print_disassembly_reads_past_map (HL := demo_laws) 0%nat 0%nat
           (mk_section ".text" 3 4096 8 0 32 [3; 1; 1]) 0
           Demo.short_alloc_scanned 3
           (mk_instr (mk_op 232 0 "call" 7 8) 4101 0 0) 5
           demo_short_alloc_wf eq_refl eq_refl eq_refl eq_refl eq_refl
           (conj (Zle_bool_imp_le 3 5 eq_refl) eq_refl)).
Defined.

(** ** The entry of a scan *)

Section Entry.
Context {SH : Semblance_h} {XH : X86_instr_h} {HL : HeaderLaws}.



End Entry.


(** ** What is scanned stays decided *)

Section Decided.
Context {SH : Semblance_h} {XH : X86_instr_h} {HL : HeaderLaws}.

#[global] Instance decided_pre : PreOrder decided.
Proof.
  split.
  - intros p. split; [apply pe_le_refl|]. intros si j f Hf _. by exists f.
  - intros p q r [Hle1 Hd1] [Hle2 Hd2]. split; [by eapply pe_le_trans|].
    intros si j f Hf Hs.
    destruct (Hd1 _ _ _ Hf Hs) as (g & Hg & Hgv).
    destruct (proj2 Hle1 _ _ _ Hf) as (g' & Hg' & Hle).
    assert (g' = g) as -> by congruence.
    destruct (Hd2 _ _ _ Hg (flag_le_has _ _ _ Hle Hs)) as (h & Hh & Hhv).
    exists h. split; [done | congruence].
Qed.

(** A step that only sets bits and makes no instruction start but at
    bytes that are not scanned keeps what is decided. *)
Lemma decided_step p p' :
  pe_le p p' ->
  (forall sj j, byte_has p' sj j INSTR_VALID ->
     byte_has p sj j INSTR_VALID \/
     ~ byte_has p sj j INSTR_SCANNED) ->
  decided p p'.
Proof.
  intros Hle Hnew. split; [done|]. intros si j f Hf Hs.
  destruct (proj2 Hle _ _ _ Hf) as (f' & Hf' & Hff).
  exists f'. split; [done|].
  destruct (has f INSTR_VALID) eqn:Hv; [by eapply flag_le_has|].
  destruct (has f' INSTR_VALID) eqn:Hv'; [|done].
  destruct (Hnew si (Z.of_nat j)) as [Hold|Hns].
  - apply byte_has_at. rewrite Nat2Z.id. split; [lia|]. by exists f'.
  - apply byte_has_at in Hold as (_ & g & Hg & Hgv).
    rewrite Nat2Z.id in Hg. congruence.
  - destruct Hns. apply byte_has_at. rewrite Nat2Z.id. split; [lia|].
    by exists f.
Qed.

Lemma scan_enter_decided (loop : nat -> Z -> Z -> world -> result world) :
  (forall si ip relip w w',
     loop si ip relip w = Done w' -> decided (w_pe w) (w_pe w')) ->
  forall ip w w', scan_enter loop ip w = Done w' ->
    decided (w_pe w) (w_pe w').
Proof.
  intros Hloop ip w w' [[_ ->]|(si & sec & f & _ & _ & _ & Hl)]%scan_enter_cases.
  - reflexivity.
  - apply Hloop in Hl. by destruct (_ =? _).
Qed.

Lemma scan_branch_decided scan ip ins w w' :
  (forall ip w w', scan ip w = Done w' -> decided (w_pe w) (w_pe w')) ->
  scan_branch scan ip ins w = Done w' -> decided (w_pe w) (w_pe w').
Proof.
  intros Hscan Hc%scan_branch_cases.
  destruct Hc as [[_ ->]|[(_ & _ & ->)
                 |(_ & ti & tsec & m & p & _ & _ & Hm & Hor & Hs)]].
  - reflexivity.
  - reflexivity.
  - apply Hscan in Hs. simpl in Hs. etrans; [|exact Hs].
    assert (Hmm : m = INSTR_FUNC \/ m = INSTR_JUMP).
    { rewrite Hm. destruct (String.eqb _ _); auto. }
    apply decided_step.
    + eapply flags_or_le; [|exact Hor]. tauto.
    + intros sj j Hb. left.
      eapply flags_or_keeps; [exact Hor| | apply valid_bit | | exact Hb].
      * destruct Hmm as [-> | ->]; [apply func_bit | apply jump_bit].
      * destruct Hmm as [-> | ->]; [apply func_valid | apply jump_valid].
Qed.

Lemma scan_loop_decided n si ip relip w w' :
  scan_loop n si ip relip w = Done w' -> decided (w_pe w) (w_pe w').
Proof.
  revert si ip relip w w'. induction n as [|n IH]; intros si ip relip w w';
    [done|].
  intros Hc%scan_loop_cases.
  assert (Hscan : forall ip w w',
    scan_enter (scan_loop n) ip w = Done w' -> decided (w_pe w) (w_pe w'))
    by (apply scan_enter_decided; exact IH).
  destruct Hc as [sec _ _ ->|sec f _ _ _ _ ->
                 |sec f buffer wr ins len i p Hsec _ Hf Hns Hrw Hgi Hm Hafter].
  - reflexivity.
  - reflexivity.
  - assert (Hmark : decided (w_pe w) p).
    { apply decided_step; [by apply mark_instr_le in Hm as [? _]|].
      intros sj j Hb.
      destruct (mark_instr_valid _ _ _ _ _ _ _ Hm sj j Hb) as [?|[-> ->]];
        [by left|]. right. intros (g & Hg & Hgs). congruence. }
    etrans; [exact Hmark|].
    destruct Hafter as [_ ->|_ Hb _|w3 _ Hb _ Hl].
    + reflexivity.
    + by apply scan_branch_decided in Hb.
    + apply scan_branch_decided in Hb; [|done]. apply IH in Hl.
      simpl in Hb. by etrans.
Qed.

Lemma scans_decided w w' : scans w w' -> decided (w_pe w) (w_pe w').
Proof.
  induction 1 as [w|w fuel ip w1 w2 Hs _ IH]; [reflexivity|].
  etrans; [|exact IH]. revert Hs. apply scan_enter_decided.
  intros *. apply scan_loop_decided.
Qed.

(** Instruction boundaries are never revised: across any sequence of
    completed calls of [scan_segment], a byte that is [INSTR_SCANNED] stays
    as it is with respect to [INSTR_VALID]. A scanned instruction start
    stays one, and a scanned byte inside an instruction never becomes a
    start, whatever address later scans enter at. *)
Theorem scanned_stays_decided (w w' : world) (si : nat) (relip : Z) :
  scans w w' -> byte_has (w_pe w) si relip INSTR_SCANNED ->
  byte_has (w_pe w') si relip INSTR_SCANNED /\
  (byte_has (w_pe w') si relip INSTR_VALID <->
   byte_has (w_pe w) si relip INSTR_VALID).
Proof.
  intros [Hle Hd]%scans_decided Hs. split; [by eapply byte_has_mono|].
  split; [|by apply byte_has_mono].
  apply byte_has_at in Hs as (Hr & f & Hf & Hfs).
  destruct (Hd _ _ _ Hf Hfs) as (f' & Hf' & Hv).
  intros (_ & g & Hg & Hgv)%byte_has_at. apply byte_has_at.
  split; [done|]. exists f. split; [done|]. congruence.
Qed.

End Decided.

Lemma scanned_stays_decided_witness :
  byte_has (w_pe Demo.fork_rescanned) 0 1 2 <->
  byte_has (w_pe Demo.fork_scanned) 0 1 2.
Proof.
  apply (scanned_stays_decided (HL := demo_laws) Demo.fork_scanned
           Demo.fork_rescanned 0%nat 1).
  - apply (scans_more (SH := Demo.semblance_h) (XH := Demo.x86_instr_h)
             Demo.fork_scanned 3%nat 4097 Demo.fork_rescanned
             Demo.fork_rescanned); [vm_compute; reflexivity|].
    apply scans_none.
  - exists 1. split; reflexivity.
Defined.

(** ** Edges of the sweep *)

Section SweepEdges.
Context {SH : Semblance_h} {XH : X86_instr_h} {HL : HeaderLaws}.

(** In default mode a section in which no byte is [INSTR_VALID] is listed
    as one gap marker and nothing else: the sweep returns from inside its
    loop, and the blank line that ends a listing is not printed. A section
    with no file contents is listed as that blank line alone. *)
Theorem print_disassembly_unscanned (fuel : nat) (si : nat) (sec : section)
    (w : world) :
  wf_pe (w_pe w) -> sections (w_pe w) !! si = Some sec ->
  (0 < sec_length sec -> 0 < min_alloc sec) ->
  has (w_opts w) DISASSEMBLE_ALL = false ->
  (forall relip, ~ byte_has (w_pe w) si relip INSTR_VALID) ->
  (0 < fuel)%nat ->
  exists w', print_disassembly fuel si w = Done w' /\
    w_stdout w' = w_stdout w ++
      [if 0 <? sec_length sec then GapMarker else BlankLine].
Proof.
  intros Hwf Hsec Hpos Hopt Hnone Hfuel.
  pose proof (wf_pe_lookup _ _ _ Hwf Hsec) as
    (Hlen & Hma & Had & Hfit & _)%wf_frame_fields.
  pose proof max_instr_pos as Hmax.
  unfold print_disassembly. rewrite Hsec.
  destruct fuel as [|n]; [lia|]. cbn [print_loop].
  destruct (Z.ltb_spec 0 (sec_length sec)) as [Hlt|Hge]; [|by eexists].
  specialize (Hpos Hlt).
  rewrite disassembly_step_parts. cbn zeta.
  set (w0 := fseek (u32 (offset sec + 0)) w).
  change (w_pe w0) with (w_pe w).
  assert (Hb : (Z.to_nat 0 < length (instr_flags sec))%nat) by lia.
  apply lookup_lt_is_Some in Hb as [f Hf].
  assert (Hg : flags_get si 0 (w_pe w) = Done f).
  { apply flags_get_Done. split; [done|]. unfold flag_at. by rewrite Hsec. }
  rewrite Hg. cbn [bind].
  assert (Hv : has f INSTR_VALID = false).
  { destruct (has f INSTR_VALID) eqn:Hv; [|done].
    destruct (Hnone 0). by exists f. }
  unfold sweep_find. rewrite Hv. cbn [negb].
  change (w_opts w0) with (w_opts w). rewrite Hopt.
  change (w_pe (printf [GapMarker] w0)) with (w_pe w).
  destruct (skip_invalid_spec (Z.to_nat (min_alloc sec - 0)) si sec 0
    (w_pe w) Hsec Hlen ltac:(lia) ltac:(lia) (Nat.le_refl _))
    as (r & Hskip & Hle & _ & Hstop).
  rewrite Hskip. cbn [bind].
  destruct Hstop as [(_ & _ & g & Hg' & Hgv)|Hend].
  { destruct (Hnone r). apply byte_has_at. split; [done|]. by exists g. }
  destruct (sweep_tail_spec si sec r (printf [GapMarker] w0) Hwf Hsec Hle)
    as [(_ & w' & Ht & Hout & _)|(Hl & Hm & _)]; [|lia].
  exists w'. by rewrite Ht, Hout.
Qed.

(** The search of one iteration in disassemble-all mode, in terms of the
    bytes of the file from the position of the stream on. *)
Lemma sweep_find_all si sec relip f w :
  has f INSTR_VALID = false -> has (w_opts w) DISASSEMBLE_ALL = true ->
  0 <= relip -> 0 <= w_fpos w ->
  relip + Z.of_nat (length (w_file w)) + 2 < 2 ^ 32 ->
  exists w1,
    sweep_find si sec relip f w
    = Done (relip + Z.of_nat
              (if decide (leading_zeroes
                            (drop (Z.to_nat (w_fpos w)) (w_file w)) = 0%nat)
               then leading_zeroes
                      (drop 1 (drop (Z.to_nat (w_fpos w)) (w_file w)))
               else leading_zeroes (drop (Z.to_nat (w_fpos w)) (w_file w))),
            w1) /\
    rendered w w1 /\
    w_stdout w1 = w_stdout w ++
      (if decide (leading_zeroes
                    (drop (Z.to_nat (w_fpos w)) (w_file w)) = 0%nat)
       then [] else [GapMarker]).
Proof.
  intros Hv Hopt Hr Hpos Hfit. unfold sweep_find. rewrite Hv, Hopt.
  cbn [negb]. unfold read_byte.
  destruct (w_file w !! Z.to_nat (w_fpos w)) as [b|] eqn:Hb.
  - pose proof (lookup_lt_Some _ _ _ Hb) as Hlt.
    rewrite (drop_S _ _ _ Hb). cbn [leading_zeroes].
    change (drop 1 (b :: drop (S (Z.to_nat (w_fpos w))) (w_file w)))
      with (drop (S (Z.to_nat (w_fpos w))) (w_file w)).
    destruct (b =? 0).
    + rewrite decide_False by done.
      rewrite (u32_small (relip + 1)) by lia.
      set (w2 := printf [GapMarker] (set_fpos w (w_fpos w + 1))).
      destruct (skip_zeroes_run (S (length (w_file w2))) (relip + 1) w2)
        as [Hrun Hout]; try (simpl; lia).
      pose proof (skip_zeroes_rendered (S (length (w_file w2))) (relip + 1) w2)
        as Hz.
      destruct (skip_zeroes (S (length (w_file w2))) (relip + 1) w2)
        as [r w3]. cbn [fst snd] in *. exists w3.
      replace (Z.to_nat (w_fpos w2)) with (S (Z.to_nat (w_fpos w))) in Hrun
        by (simpl; lia).
      split; [f_equal; f_equal; simpl in Hrun; lia|]. split; [|done].
      eapply rendered_trans; [|exact Hz].
      eapply rendered_trans; [apply rendered_fpos | apply rendered_printf].
    + rewrite decide_True by done.
      set (w2 := set_fpos w (w_fpos w + 1)).
      destruct (skip_zeroes_run (S (length (w_file w2))) relip w2)
        as [Hrun Hout]; try (simpl; lia).
      pose proof (skip_zeroes_rendered (S (length (w_file w2))) relip w2)
        as Hz.
      destruct (skip_zeroes (S (length (w_file w2))) relip w2)
        as [r w3]. cbn [fst snd] in *. exists w3.
      replace (Z.to_nat (w_fpos w2)) with (S (Z.to_nat (w_fpos w))) in Hrun
        by (simpl; lia).
      split; [f_equal; f_equal; simpl in Hrun; lia|].
      split; [|by rewrite Hout, app_nil_r].
      eapply rendered_trans; [apply rendered_fpos | exact Hz].
  - pose proof Hb as Hge%lookup_ge_None.
    rewrite (drop_ge _ _ Hge). cbn [leading_zeroes drop].
    rewrite decide_True by done. cbn [Z.eqb].
    destruct (skip_zeroes_run (S (length (w_file w))) relip w)
      as [Hrun Hout]; try lia.
    pose proof (skip_zeroes_rendered (S (length (w_file w))) relip w) as Hz.
    destruct (skip_zeroes (S (length (w_file w))) relip w) as [r w3].
    cbn [fst snd] in *. exists w3. rewrite (drop_ge _ _ Hge) in Hrun.
    split; [f_equal; f_equal; simpl in Hrun; lia|].
    split; [done | by rewrite Hout, app_nil_r].
Qed.

(** In disassemble-all mode, at a byte that is not [INSTR_VALID], the sweep
    prints a gap marker exactly when the byte of the file at the offset is
    zero. It goes on at the offset advanced by the length of the run of
    zero bytes that starts at the offset, if there is one, and else by the
    length of the run of zero bytes that starts one byte further, the first
    test having consumed a byte. There it returns, at the end of the
    section, or prints the instruction. *)
Theorem disassembly_step_all_mode (si : nat) (sec : section) (relip : Z)
    (w : world) (f : Z) :
  wf_pe (w_pe w) -> sections (w_pe w) !! si = Some sec ->
  Z.of_nat (length (w_file w)) < 2 ^ 31 ->
  flags_get si relip (w_pe w) = Done f -> has f INSTR_VALID = false ->
  has (w_opts w) DISASSEMBLE_ALL = true ->
  let rest := drop (Z.to_nat (u32 (offset sec + relip))) (w_file w) in
  let z := leading_zeroes rest in
  let r := relip + Z.of_nat (if decide (z = 0%nat)
                             then leading_zeroes (drop 1 rest) else z) in
  let gap := if decide (z = 0%nat) then [] else [GapMarker] in
  ((sec_length sec <= r \/ min_alloc sec <= r) /\
   exists w', disassembly_step si sec relip w = Done (Return w') /\
     w_stdout w' = w_stdout w ++ gap) \/
  (r < sec_length sec /\ r < min_alloc sec /\
   exists f' len out w',
     flags_get si r (w_pe w) = Done f' /\
     len = (decode_at sec r w).2 /\
     disassembly_step si sec relip w = Done (Next (r + len) w') /\
     w_stdout w' = w_stdout w ++ gap ++
       func_header f' (address sec + r) (w_pe w) ++ [InstrLine out]).
Proof.
  intros Hwf Hsec Hfile Hf Hv Hopt rest z r gap.
  pose proof (wf_pe_lookup _ _ _ Hwf Hsec) as
    (Hlen & Hma & Had & Hfit & _)%wf_frame_fields.
  pose proof max_instr_pos as Hmax.
  pose proof Hf as [Hr Hfa]%flags_get_Done.
  assert (Hm : relip < min_alloc sec).
  { unfold flag_at in Hfa. rewrite Hsec in Hfa.
    apply lookup_lt_Some in Hfa. lia. }
  rewrite disassembly_step_parts. cbn zeta.
  set (w0 := fseek (u32 (offset sec + relip)) w).
  change (w_pe w0) with (w_pe w). rewrite Hf. cbn [bind].
  destruct (sweep_find_all si sec relip f w0 Hv Hopt Hr) as
    (w1 & Hfind & Hrd & Hout).
  { unfold w0, u32. simpl. apply Z.mod_pos_bound. lia. }
  { change (w_file w0) with (w_file w). lia. }
  change (w_fpos w0) with (u32 (offset sec + relip)) in Hfind, Hout.
  change (w_file w0) with (w_file w) in Hfind, Hout.
  change (w_stdout w0) with (w_stdout w) in Hout.
  fold rest in Hfind, Hout. fold z in Hfind, Hout. fold r in Hfind.
  fold gap in Hout. rewrite Hfind. cbn [bind].
  destruct Hrd as (Hpe & Hfl & _).
  change (w_pe w0) with (w_pe w) in Hpe.
  change (w_file w0) with (w_file w) in Hfl.
  assert (Hr0 : 0 <= r) by (unfold r; lia).
  destruct (sweep_tail_spec si sec r w1) as
    [(Hend & w' & Ht & Hout' & _)
    |(Hl & Hm' & f' & len & out & w' & Hf' & _ & Hdec & _ & Ht & Hout' & _)];
    try (by rewrite ?Hpe).
  - left. split; [done|]. exists w'. split; [done | congruence].
  - right. split; [done|]. split; [done|]. exists f', len, out, w'.
    rewrite Hpe in Hf', Hout'. split; [done|]. split.
    + rewrite Hdec. f_equal. by apply decode_at_frame.
    + split; [done|]. by rewrite Hout', Hout, <- app_assoc.
Qed.

End SweepEdges.

Lemma print_disassembly_unscanned_witness :
  exists w',
    print_disassembly (SH := Demo.semblance_h) (XH := Demo.x86_instr_h) 1 0
      Demo.fork = Done w' /\
    w_stdout w' = [] ++ [GapMarker].
Proof.
  apply (print_disassembly_unscanned (HL := demo_laws) 1%nat 0%nat
           (mk_section ".text" 8 4096 8 0 32 (replicate 8 0)) Demo.fork
           (demo_one_section_wf 4096 8 8 0 [] 4096 ltac:(lia) ltac:(lia)
              ltac:(lia) ltac:(lia)) eq_refl).
  - simpl. lia.
  - reflexivity.
  - intros relip (_ & f & Hf & Hv)%byte_has_at.
    rewrite (demo_one_section_empty 4096 8 8 0 [] 4096 _ _ _ Hf) in Hv.
    discriminate.
  - lia.
Defined.

Lemma disassembly_step_all_mode_witness :
  ((4 <= 2 \/ 4 <= 2) /\
   exists w',
     disassembly_step (SH := Demo.semblance_h) (XH := Demo.x86_instr_h) 0
       (mk_section ".text" 4 4096 4 0 32 [0; 0; 0; 0]) 0 Demo.nop_zeroes
     = Done (Return w') /\
     w_stdout w' = [] ++ []) \/
  (2 < 4 /\ 2 < 4 /\
   exists f' len out w',
     flags_get 0 2 (w_pe Demo.nop_zeroes) = Done f' /\
     len = (decode_at (SH := Demo.semblance_h) (XH := Demo.x86_instr_h)
              (mk_section ".text" 4 4096 4 0 32 [0; 0; 0; 0]) 2
              Demo.nop_zeroes).2 /\
     disassembly_step (SH := Demo.semblance_h) (XH := Demo.x86_instr_h) 0
       (mk_section ".text" 4 4096 4 0 32 [0; 0; 0; 0]) 0 Demo.nop_zeroes
     = Done (Next (2 + len) w') /\
     w_stdout w' = [] ++ [] ++
       func_header (SH := Demo.semblance_h) f' (4096 + 2)
         (w_pe Demo.nop_zeroes) ++ [InstrLine out]).
Proof.
  exact (disassembly_step_all_mode (HL := demo_laws) 0%nat
           (mk_section ".text" 4 4096 4 0 32 [0; 0; 0; 0]) 0 Demo.nop_zeroes 0
           (demo_one_section_wf 4096 4 4 0 [] 4096 ltac:(lia) ltac:(lia)
              ltac:(lia) ltac:(lia))
           eq_refl eq_refl eq_refl eq_refl eq_refl).
Defined.

(** ** Termination of [print_sections] *)

Section PrintSectionsTotal.
Context {SH : Semblance_h} {XH : X86_instr_h} {HL : HeaderLaws}.

Lemma print_sections_from_total fuel i ss w sheet :
  wf_pe (w_pe w) -> drop i (sections (w_pe w)) = ss ->
  Forall (fun sec => sec_length sec <= min_alloc sec /\
                     (Z.to_nat (sec_length sec) < fuel)%nat) ss ->
  Z.of_nat (length (w_file w)) < 2 ^ 31 ->
  exists w' sheet', print_sections_from fuel i ss w sheet = Done (w', sheet') /\
    rendered w w'.
Proof.
  revert i w sheet. induction ss as [|sec ss IH];
    intros i w sheet Hwf Hdrop Hall Hfile.
  - exists w, sheet. split; [done | apply rendered_refl].
  - apply Forall_cons in Hall as [[Hfits Hfuel] Hall].
    assert (Hsec : sections (w_pe w) !! i = Some sec).
    { rewrite <- (Nat.add_0_r i), <- lookup_drop. by rewrite Hdrop. }
    assert (Hrest : drop (S i) (sections (w_pe w)) = ss).
    { replace (S i) with (i + 1)%nat by lia.
      by rewrite <- drop_drop, Hdrop. }
    cbn [print_sections_from].
    assert (Hstep : exists w1 sheet1,
      (if has (sec_flags sec) 64
       then Done (w, sheet ++ section_heading sec)
       else if has (sec_flags sec) 32
            then do w' <- print_disassembly fuel i w;
                 Done (w', (sheet ++ section_heading sec) ++
                         (Listing <$> drop (length (w_stdout w))
                                        (w_stdout w')))
            else Done (w, sheet ++ section_heading sec))
      = Done (w1, sheet1) /\ rendered w w1).
    { destruct (has (sec_flags sec) 64);
        [|destruct (has (sec_flags sec) 32)].
      1, 3: eexists _, _; split; [done | apply rendered_refl].
      destruct (print_loop_total fuel i sec 0 w Hwf Hsec Hfits Hfile
        ltac:(lia)) as [w1 Hw1]; [by rewrite Z.sub_0_r|].
      unfold print_disassembly. rewrite Hsec, Hw1. cbn [bind].
      eexists _, _. split; [done|]. by eapply print_loop_rendered. }
    destruct Hstep as (w1 & sheet1 & -> & Hrd). cbn [bind].
    pose proof Hrd as (Hpe & Hfl & _).
    destruct (IH (S i) w1 sheet1) as (w' & sheet' & Hw' & Hrd');
      try (by rewrite ?Hpe, ?Hfl).
    exists w', sheet'. split; [done|]. by eapply rendered_trans.
Qed.

(** [print_sections] returns on every well-formed image whose sections have
    no more file contents than allocation, given fuel beyond the length of
    each section: no classification map is read out of range, whatever the
    maps hold and in either mode, and the image is left as it was. *)
Theorem print_sections_terminates (fuel : nat) (w : world) :
  wf_pe (w_pe w) ->
  Forall (fun sec => sec_length sec <= min_alloc sec /\
                     (Z.to_nat (sec_length sec) < fuel)%nat)
         (sections (w_pe w)) ->
  Z.of_nat (length (w_file w)) < 2 ^ 31 ->
  exists w' sheet, print_sections fuel w = Done (w', sheet) /\
    w_pe w' = w_pe w.
Proof.
  intros Hwf Hall Hfile.
  destruct (print_sections_from_total fuel 0 (sections (w_pe w)) w [] Hwf
    eq_refl Hall Hfile) as (w' & sheet & Hw' & Hpe & _).
  by exists w', sheet.
Qed.

End PrintSectionsTotal.

Lemma print_sections_terminates_witness :
  exists w' sheet,
    print_sections (SH := Demo.semblance_h) (XH := Demo.x86_instr_h) 9
      Demo.fork_scanned = Done (w', sheet) /\
    w_pe w' = w_pe Demo.fork_scanned.
Proof.
  apply (print_sections_terminates (HL := demo_laws) 9%nat Demo.fork_scanned
           demo_fork_wf).
  - apply Forall_cons_2; [|apply Forall_nil_2]. simpl. lia.
  - simpl. lia.
Defined.

(** ** The test for an instruction that hangs over the allocation *)

Section HangTest.
Context {SH : Semblance_h} {XH : X86_instr_h} {HL : HeaderLaws}.


End HangTest.


(** ** Entry points outside the image *)

Section Outside.
Context {SH : Semblance_h} {XH : X86_instr_h}.

Lemma scan_exports_outside fuel es w :
  Forall (fun e => addr2section (export_address e) (w_pe w) = None) es ->
  scan_exports fuel es w
  = Done (mk_world (w_pe w) (w_file w) (w_fpos w) (w_opts w) (w_stdout w)
            (w_stderr w ++ ((fun e => (export_address e, NotInImage)) <$> es))
            (w_ticks w)).
Proof.
  revert w. induction es as [|e es IH]; intros w Hall.
  - simpl. rewrite app_nil_r. by destruct w.
  - apply Forall_cons in Hall as [He Hall]. cbn [scan_exports].
    unfold scan_segment, scan_enter. rewrite He. cbn [bind].
    rewrite IH by done. simpl. by rewrite <- app_assoc.
Qed.

(** When no entry point lies in a section, and so when there is none,
    [read_sections] returns whatever the fuel without touching the image:
    all it does is warn once for each entry point, in their order, that
    the byte is not in the image. *)
Theorem read_sections_outside (fuel : nat) (w : world) :
  Forall (fun e => addr2section e (w_pe w) = None) (entry_points (w_pe w)) ->
  exists w', read_sections fuel w = Done w' /\
    w_pe w' = w_pe w /\ w_ticks w' = w_ticks w /\
    w_stderr w' = w_stderr w ++
      ((fun e => (e, NotInImage)) <$> entry_points (w_pe w)).
Proof.
  unfold entry_points. intros [Hex Hent]%Forall_app.
  apply Forall_fmap in Hex. unfold read_sections.
  rewrite (scan_exports_outside fuel _ w) by done. cbn [bind w_pe].
  rewrite fmap_app, <- list_fmap_compose.
  destruct (Z.land (Characteristics (w_pe w)) 8192 =? 0).
  - rewrite Forall_singleton in Hent.
    unfold scan_segment, scan_enter. cbn [w_pe]. rewrite Hent.
    eexists. split; [done|]. simpl. by rewrite <- app_assoc.
  - eexists. split; [done|]. simpl. by rewrite app_nil_r.
Qed.

End Outside.

Lemma read_sections_outside_witness :
  exists w',
    read_sections (SH := Demo.semblance_h) (XH := Demo.x86_instr_h) 0
      Demo.stray = Done w' /\
    w_pe w' = w_pe Demo.stray /\ w_ticks w' = 0%nat /\
    w_stderr w' = [] ++ [(36864, NotInImage); (20480, NotInImage)].
Proof.
  apply (read_sections_outside (SH := Demo.semblance_h)
           (XH := Demo.x86_instr_h) 0 Demo.stray).
  apply Forall_cons_2; [reflexivity|].
  apply Forall_cons_2; [reflexivity|]. apply Forall_nil_2.
Defined.

(** ** The gap of the default mode, in a whole listing *)

Section DefaultGapClaim.
Context {SH : Semblance_h} {XH : X86_instr_h} {HL : HeaderLaws}.


End DefaultGapClaim.



